(** * Mindustry server list prober: a shallow embedding of the two scripts

    The repository holds two variants of one Node.js program.  The newer
    one (called [Scan] below, source file [part_000]) loads a target list,
    probes every target over UDP, decodes the binary replies with
    [parseServerInfo] and writes a list of server records.  The older one
    (called [Legacy] below, source file [part_001]) keys replies by raw
    socket address, decodes them as text with [parseHexPayload] and also
    writes the list of targets that did not answer.

    Module [JS] models the part of the JavaScript / Node.js runtime the
    scripts rely on: strings as sequences of UTF-16 code units, numbers as
    integers or NaN, insertion-ordered objects, [Buffer] reads, the stable
    [Array.prototype.sort], and the regular expressions of the sources as
    scanners. *)

From Stdlib Require Import String Ascii ZArith Lia Bool QArith List.
From Stdlib Require Import Permutation Sorted.
From Stdlib.Strings Require Import Byte.
From Equations Require Import Equations.
Import ListNotations.
Local Open Scope Z_scope.

Set Implicit Arguments.

(* ===================================================================== *)
(** * The JavaScript runtime, as far as the scripts use it *)
(* ===================================================================== *)

Module JS.

(** ** Strings *)

(** A JavaScript string is a sequence of UTF-16 code units. *)
Definition jsstring := list Z.

(** ASCII literal: every character of [s] becomes one code unit. *)
Definition lit (s : string) : jsstring :=
  List.map (fun a => Z.of_N (N_of_ascii a)) (list_ascii_of_string s).

Definition COLON : Z := 58.
Definition LBRACK : Z := 91.
Definition RBRACK : Z := 93.
Definition LBRACE : Z := 123.
Definition RBRACE : Z := 125.
Definition HASH : Z := 35.
Definition SPACE : Z := 32.
Definition PIPE : Z := 124.

Fixpoint str_eqb (a b : jsstring) : bool :=
  match a, b with
  | [], [] => true
  | x :: a', y :: b' => (x =? y) && str_eqb a' b'
  | _, _ => false
  end.

(** [s.startsWith(p)] *)
Fixpoint startsWith (p s : jsstring) : bool :=
  match p, s with
  | [], _ => true
  | x :: p', y :: s' => (x =? y) && startsWith p' s'
  | _ :: _, [] => false
  end.

(** [s.endsWith(p)] *)
Definition endsWith (p s : jsstring) : bool :=
  startsWith (rev p) (rev s).

(** [s.includes(c)] for a one-character needle. *)
Definition includes (c : Z) (s : jsstring) : bool :=
  existsb (Z.eqb c) s.

(** [s.split(c)] for a one-character separator: never empty. *)
Fixpoint split (c : Z) (s : jsstring) : list jsstring :=
  match s with
  | [] => [[]]
  | x :: s' =>
      if x =? c then [] :: split c s'
      else match split c s' with
           | [] => [[x]]
           | seg :: segs => (x :: seg) :: segs
           end
  end.

(** [parts.join(c)] for a one-character separator. *)
Fixpoint join (c : Z) (parts : list jsstring) : jsstring :=
  match parts with
  | [] => []
  | [p] => p
  | p :: ps => p ++ c :: join c ps
  end.

(** [s.replace(pat, rep)] with a string pattern: only the first occurrence
    is replaced ([rep] holds no [$] here). *)
Fixpoint replaceFirst (pat rep s : jsstring) : jsstring :=
  if startsWith pat s then rep ++ skipn (length pat) s
  else match s with
       | [] => []
       | x :: s' => x :: replaceFirst pat rep s'
       end.

(** White space and line terminators: the characters of [\s], of
    [String.prototype.trim] and of the prefix that [parseInt] skips. *)
Definition isSpace (c : Z) : bool :=
  ((9 <=? c) && (c <=? 13)) || (c =? 32) || (c =? 160) || (c =? 5760)
  || ((8192 <=? c) && (c <=? 8202)) || (c =? 8232) || (c =? 8233)
  || (c =? 8239) || (c =? 8287) || (c =? 12288) || (c =? 65279).

Fixpoint dropWhile (p : Z -> bool) (s : jsstring) : jsstring :=
  match s with
  | [] => []
  | x :: s' => if p x then dropWhile p s' else s
  end.

Fixpoint takeWhile (p : Z -> bool) (s : jsstring) : jsstring :=
  match s with
  | [] => []
  | x :: s' => if p x then x :: takeWhile p s' else []
  end.

Definition trimStart (s : jsstring) : jsstring := dropWhile isSpace s.
Definition trimEnd (s : jsstring) : jsstring := rev (dropWhile isSpace (rev s)).
Definition trim (s : jsstring) : jsstring := trimEnd (trimStart s).

(** ** Numbers *)

(** The numbers of the scripts are ports, lengths and time stamps: integers,
    or the NaN that [parseInt] returns.  Integers are exact here; the
    rounding of doubles beyond 2^53 is outside the model. *)
Inductive jsnum : Type :=
| NaN
| Num (z : Z).

Definition num_eqb (a b : jsnum) : bool :=
  match a, b with
  | Num x, Num y => x =? y
  | _, _ => false      (* NaN === NaN is false *)
  end.

Definition isDigit (c : Z) : bool := (48 <=? c) && (c <=? 57).

(** Value of a digit in base 16, which covers base 10. *)
Definition hexval (c : Z) : option Z :=
  if (48 <=? c) && (c <=? 57) then Some (c - 48)
  else if (97 <=? c) && (c <=? 102) then Some (c - 87)
  else if (65 <=? c) && (c <=? 70) then Some (c - 55)
  else None.

Definition digitval (radix c : Z) : option Z :=
  match hexval c with
  | Some d => if d <? radix then Some d else None
  | None => None
  end.

(** The longest prefix of digits, read in [radix]; [None] when it is empty. *)
Fixpoint readDigits (radix : Z) (acc : option Z) (s : jsstring) : option Z :=
  match s with
  | [] => acc
  | c :: s' =>
      match digitval radix c with
      | Some d =>
          readDigits radix
            (Some (match acc with Some a => a * radix + d | None => d end)) s'
      | None => acc
      end
  end.

(** What [parseInt] reads after the leading white space and the sign. *)
Definition unsigned (s : jsstring) : jsstring :=
  let s1 := trimStart s in
  if startsWith [45] s1 || startsWith [43] s1 then tl s1 else s1.

(** [parseInt(s)] with no radix argument: white space, a sign, [0x] or
    [0X] for base 16, then the longest prefix of digits.  The integer
    read is kept exact; the engine returns the double nearest to it,
    which is the same number up to 2^53 in absolute value. *)
Definition parseInt (s : jsstring) : jsnum :=
  let neg := startsWith [45] (trimStart s) in
  let s2 := unsigned s in
  let hex := startsWith [48; 120] s2 || startsWith [48; 88] s2 in
  let radix := if hex then 16 else 10 in
  let s3 := if hex then skipn 2 s2 else s2 in
  match readDigits radix None s3 with
  | None => NaN
  | Some v => Num (if neg then - v else v)
  end.

(** Decimal digits of a natural number. *)
Equations? decimal (n : Z) : jsstring by wf (Z.to_nat n) lt :=
  decimal n with Z_lt_dec n 10 => {
    | left _ => [48 + Z.max n 0];
    | right _ => decimal (n / 10) ++ [48 + n mod 10] }.
Proof.
  assert (0 <= n / 10 < n) by (split; [apply Z.div_pos | apply Z.div_lt]; lia).
  lia.
Defined.

(** [String(n)], as in a template literal: plain decimal, which is what
    the engine prints for NaN and for every integer up to 2^53 in
    absolute value.  (A greater one is printed from the digits of its
    double, with an exponent from 1e21 on: outside the model.) *)
Definition numToString (n : jsnum) : jsstring :=
  match n with
  | NaN => lit "NaN"
  | Num z => if z <? 0 then 45 :: decimal (- z) else decimal z
  end.

(** ** Exceptions *)

(** What the [RangeError] of a failed [Buffer] read says.  Node throws
    ERR_OUT_OF_RANGE, whose message names the offset it received and the
    greatest offset the read allows, or, for a buffer that is shorter
    than the read, ERR_BUFFER_OUT_OF_BOUNDS, whose message names
    neither. *)
Inductive rangeCode : Type :=
| ERR_OUT_OF_RANGE (received greatest : Z)
| ERR_BUFFER_OUT_OF_BOUNDS.

(** What a [throw] carries.  [RangeError] is thrown by a [Buffer] read;
    [TypeError] is a property read on [undefined]; [Error] is a
    [new Error(message)] of the scripts. *)
Inductive error : Type :=
| RangeError (code : rangeCode)
| TypeError
| Error (message : jsstring).

(** Node's [boundsError(value, length)] for an integer offset [value];
    [length] is the greatest offset that the read allows, the length of
    the buffer minus the width of the read. *)
Definition boundsError (value length : Z) : error :=
  RangeError (if length <? 0 then ERR_BUFFER_OUT_OF_BOUNDS
              else ERR_OUT_OF_RANGE value length).

Inductive result (A : Type) : Type :=
| Ok (a : A)
| Throw (e : error).
Arguments Ok {A} a.
Arguments Throw {A} e.

Definition bind {A B} (r : result A) (k : A -> result B) : result B :=
  match r with
  | Ok a => k a
  | Throw e => Throw e
  end.

Notation "x <- r ;; k" := (bind r (fun x => k))
  (at level 61, r at next level, right associativity).

Definition isOk {A} (r : result A) : bool :=
  match r with Ok _ => true | Throw _ => false end.

(** ** Objects used as maps *)

(** A plain object with string keys: own properties in insertion order.
    (An engine lists keys that are array indices first, and a read of a
    missing key looks at [Object.prototype]; the keys that the scripts
    enumerate or test hold a [:], so they are neither array indices nor
    names of inherited properties.) *)
Definition object (V : Type) := list (jsstring * V).

Fixpoint get {V} (o : object V) (k : jsstring) : option V :=
  match o with
  | [] => None
  | (k', v) :: o' => if str_eqb k' k then Some v else get o' k
  end.

(** [o[k] = v]: an existing property keeps its place. *)
Fixpoint set {V} (o : object V) (k : jsstring) (v : V) : object V :=
  match o with
  | [] => [(k, v)]
  | (k', v') :: o' =>
      if str_eqb k' k then (k', v) :: o' else (k', v') :: set o' k v
  end.

Definition keys {V} (o : object V) : list jsstring := List.map fst o.

Definition has {V} (o : object V) (k : jsstring) : bool :=
  match get o k with Some _ => true | None => false end.

(** ** Buffers *)

Definition Buffer := list byte.

Definition byteval (b : byte) : Z := Z.of_N (Byte.to_N b).

Definition byteOf (z : Z) : byte :=
  match Byte.of_N (Z.to_N z) with Some b => b | None => x00 end.

Definition hexdigit (d : Z) : Z := if d <? 10 then 48 + d else 87 + d.

(** [buf.toString('hex')]: two lower-case digits per byte. *)
Definition toHex (buf : Buffer) : jsstring :=
  flat_map (fun b => [hexdigit (byteval b / 16); hexdigit (byteval b mod 16)]) buf.

(** [Buffer.from(s, 'hex')]: decoding stops at the first pair that is not
    two hexadecimal digits; a trailing single character is dropped. *)
Fixpoint fromHex (s : jsstring) : Buffer :=
  match s with
  | a :: b :: s' =>
      match hexval a, hexval b with
      | Some x, Some y => byteOf (16 * x + y) :: fromHex s'
      | _, _ => []
      end
  | _ => []
  end.

Definition blength (buf : Buffer) : Z := Z.of_nat (List.length buf).

(** [buf.readUInt8(offset)] throws unless [0 <= offset <= length - 1]:
    [boundsError(offset, this.length - 1)]. *)
Definition readUInt8 (buf : Buffer) (offset : Z) : result Z :=
  if (0 <=? offset) && (offset <? blength buf) then
    match nth_error buf (Z.to_nat offset) with
    | Some b => Ok (byteval b)
    | None => Throw (boundsError offset (blength buf - 1))
    end
  else Throw (boundsError offset (blength buf - 1)).

(** [buf.readInt8(offset)]: the same byte, read as two's complement. *)
Definition readInt8 (buf : Buffer) (offset : Z) : result Z :=
  v <- readUInt8 buf offset ;;
  Ok (if Z.testbit v 7 then v - 256 else v).

(** The bytes [start, end) of a buffer, for indices already clamped. *)
Definition bytesBetween (buf : Buffer) (start stop : Z) : Buffer :=
  firstn (Z.to_nat (stop - start)) (skipn (Z.to_nat start) buf).

(** [buf.slice(start, end)]: negative indices count from the end, and
    both are clamped to the buffer; it never throws. *)
Definition slice (buf : Buffer) (start stop : Z) : Buffer :=
  let len := blength buf in
  let clamp i := if i <? 0 then Z.max (len + i) 0 else Z.min i len in
  bytesBetween buf (clamp start) (Z.max (clamp start) (clamp stop)).

(** UTF-16 code units of a code point. *)
Definition utf16 (cp : Z) : jsstring :=
  if cp <? 65536 then [cp]
  else [55296 + Z.shiftr (cp - 65536) 10; 56320 + Z.land (cp - 65536) 1023].

Definition REPLACEMENT : Z := 65533.

(** The UTF-8 decoder, as a machine over bytes: either at a character
    boundary, or inside a sequence with [needed] continuation bytes to
    come, the code point read so far and the bounds of the next byte.
    Ill-formed input yields U+FFFD per maximal ill-formed prefix. *)
Inductive utf8state : Type :=
| Boundary
| Inside (needed : nat) (cp lo hi : Z).

Definition utf8lead (b : Z) : jsstring * utf8state :=
  if b <=? 127 then ([b], Boundary)
  else if (194 <=? b) && (b <=? 223) then
    ([], Inside 0 (Z.land b 31) 128 191)
  else if (224 <=? b) && (b <=? 239) then
    ([], Inside 1 (Z.land b 15)
           (if b =? 224 then 160 else 128) (if b =? 237 then 159 else 191))
  else if (240 <=? b) && (b <=? 244) then
    ([], Inside 2 (Z.land b 7)
           (if b =? 240 then 144 else 128) (if b =? 244 then 143 else 191))
  else ([REPLACEMENT], Boundary).

(** In [Inside n ..], [n] counts the continuation bytes that follow the
    next one. *)
Definition utf8step (st : utf8state) (b : Z) : jsstring * utf8state :=
  match st with
  | Boundary => utf8lead b
  | Inside n cp lo hi =>
      if (lo <=? b) && (b <=? hi) then
        let cp' := Z.lor (Z.shiftl cp 6) (Z.land b 63) in
        match n with
        | O => (utf16 cp', Boundary)
        | S n' => ([], Inside n' cp' 128 191)
        end
      else
        let (out, st') := utf8lead b in (REPLACEMENT :: out, st')
  end.

Fixpoint utf8run (st : utf8state) (bs : Buffer) : jsstring :=
  match bs with
  | [] => match st with Boundary => [] | Inside _ _ _ _ => [REPLACEMENT] end
  | b :: bs' =>
      let (out, st') := utf8step st (byteval b) in out ++ utf8run st' bs'
  end.

(** [buf.toString('utf8')] of a whole buffer. *)
Definition utf8Decode (bs : Buffer) : jsstring := utf8run Boundary bs.

(** [buf.toString('utf-8', start, end)]: the range is clamped to the
    buffer and an empty or inverted range gives the empty string; it never
    throws. *)
Definition toString (buf : Buffer) (start stop : Z) : jsstring :=
  let len := blength buf in
  if (0 <? start) && (len <=? start) then []
  else
    let start' := if start <=? 0 then 0 else start in
    let stop' := if len <? stop then len else stop in
    if stop' <=? start' then []
    else utf8Decode (bytesBetween buf start' stop').

(** A literal of the sources that is not ASCII: the file is UTF-8. *)
Definition text (s : string) : jsstring := utf8Decode (list_byte_of_string s).

(** ** Global replacement by a regular expression *)

(** A regular expression is modelled by its matcher at the head of a
    string: the replacement text and the length of the match (at least
    one).  [replaceAll] is [s.replace(/re/g, rep)]: matches are taken
    left to right, the scan resumes after each match, and unmatched
    characters are copied. *)
Definition matcher := jsstring -> option (jsstring * nat).

Equations? replaceAll (m : matcher) (s : jsstring) : jsstring
  by wf (List.length s) lt :=
  replaceAll m [] := [];
  replaceAll m (c :: s') with m (c :: s') => {
    | Some (rep, n) => rep ++ replaceAll m (skipn (Nat.pred n) s');
    | None => c :: replaceAll m s' }.
Proof.
  all: simpl; try lia.
  pose proof (length_skipn (Nat.pred n) s'). lia.
Defined.

(** ** Sorting *)

(** [Array.prototype.sort(cmp)] is stable: for a comparator that orders
    by a numeric key the result is the one of insertion sort. *)
Fixpoint insertBy {A} (cmp : A -> A -> Z) (x : A) (l : list A) : list A :=
  match l with
  | [] => [x]
  | y :: l' => if cmp x y <=? 0 then x :: l else y :: insertBy cmp x l'
  end.

Definition sortBy {A} (cmp : A -> A -> Z) (l : list A) : list A :=
  fold_right (insertBy cmp) [] l.

(** [buf[i]]: [undefined] outside the buffer. *)
Definition byteAt (buf : Buffer) (i : nat) : option Z :=
  option_map byteval (nth_error buf i).

(** [buf.readUInt16BE(offset)] throws unless [0 <= offset <= length - 2]:
    [boundsError(offset, this.length - 2)]. *)
Definition readUInt16BE (buf : Buffer) (offset : Z) : result Z :=
  if (0 <=? offset) && (offset + 2 <=? blength buf) then
    match byteAt buf (Z.to_nat offset), byteAt buf (S (Z.to_nat offset)) with
    | Some first, Some last => Ok (first * 256 + last)
    | _, _ => Throw (boundsError offset (blength buf - 2))
    end
  else Throw (boundsError offset (blength buf - 2)).

End JS.

Import JS.

(* ===================================================================== *)
(** * Data shared by the two scripts *)
(* ===================================================================== *)

(** One element of the parsed [servers_v7.json]: [address] is [None] when
    the property is not an array (such a group is skipped). *)
Module Group.
Record t : Type := { name : jsstring; address : option (list jsstring) }.
End Group.

(** A probe target; the older script calls the host [ip]. *)
Module Server.
Record t : Type := { host : jsstring; port : jsnum; name : jsstring }.
End Server.

(** One entry of a reply list: [{ timestamp: Date.now(), response: hex }]. *)
Module Reply.
Record t : Type := { timestamp : Z; response : jsstring }.
End Reply.

(** The collected replies: key to replies in arrival order. *)
Definition ReplySet := object (list Reply.t).

(** The socket is [udp4]: the sender address of a datagram is a dotted
    quad and its port a natural number. *)
Definition ipv4 : Type := byte * byte * byte * byte.

Definition DOT : Z := 46.

Definition showAddress (a : ipv4) : jsstring :=
  let '(a1, a2, a3, a4) := a in
  decimal (byteval a1) ++ DOT :: decimal (byteval a2) ++ DOT ::
  decimal (byteval a3) ++ DOT :: decimal (byteval a4).

(** A ['message'] event: the datagram, where it came from ([rinfo]) and
    the reading of [Date.now()] in the handler. *)
Module Message.
Record t : Type := { msg : Buffer; address : ipv4; port : N; now : Z }.
End Message.

(** [`${rinfo.address}:${rinfo.port}`] *)
Definition rawKey (m : Message.t) : jsstring :=
  showAddress (Message.address m)
    ++ COLON :: numToString (Num (Z.of_N (Message.port m))).

(** [`${server.host}:${server.port}`] *)
Definition serverKey (s : Server.t) : jsstring :=
  Server.host s ++ COLON :: numToString (Server.port s).

(** [responses[key].push({ timestamp: Date.now(), response: hexData })],
    after [if (!responses[key]) responses[key] = []]. *)
Definition replyOf (m : Message.t) : Reply.t :=
  {| Reply.timestamp := Message.now m; Reply.response := toHex (Message.msg m) |}.

Definition record (responses : ReplySet) (key : jsstring) (m : Message.t)
  : ReplySet :=
  match get responses key with
  | None => set responses key [replyOf m]
  | Some l => set responses key (l ++ [replyOf m])
  end.

(** [new Date(ts)] or [new Date()], before formatting for the locale. *)
Inductive date : Type :=
| DateOf (timestamp : Z)
| DateNow.

Definition defaultPort : Z := 6567.

(** [const [a, b] = parts]: [b] may be [undefined]. *)
Definition second (parts : list jsstring) : option jsstring := nth_error parts 1.

(** [parseInt(x)] applies [String(x)] first. *)
Definition parseIntOf (x : option jsstring) : jsnum :=
  parseInt (match x with Some s => s | None => lit "undefined" end).

(** [port && parseInt(port) !== config.defaultPort] as a condition. *)
Definition showsPort (port : option jsstring) : bool :=
  match port with
  | None => false
  | Some [] => false
  | Some p => negb (num_eqb (parseInt p) (Num defaultPort))
  end.

(** [socket.send] throws ERR_SOCKET_BAD_PORT unless the port is an integer
    between 1 and 65535. *)
Definition validPort (p : jsnum) : bool :=
  match p with
  | NaN => false
  | Num z => (1 <=? z) && (z <=? 65535)
  end.

(* ===================================================================== *)
(** * The newer script: binary decoder, correlation by declared port *)
(* ===================================================================== *)

Module Scan.

(** [config.colorTagRegex = /\[([a-z0-9#]+)\]/g] *)
Definition isTagChar (c : Z) : bool :=
  ((97 <=? c) && (c <=? 122)) || ((48 <=? c) && (c <=? 57)) || (c =? HASH).

Definition colorTagRegex : matcher := fun s =>
  match s with
  | c :: s' =>
      if c =? LBRACK then
        let tok := takeWhile isTagChar s' in
        match tok, dropWhile isTagChar s' with
        | _ :: _, d :: _ =>
            if d =? RBRACK then
              Some (LBRACE :: tok ++ [RBRACE], (List.length tok + 2)%nat)
            else None
        | _, _ => None
        end
      else None
  | [] => None
  end.

(** [text.replace(config.colorTagRegex, '{$1}')] *)
Definition processColorTags (text : jsstring) : jsstring :=
  replaceAll colorTagRegex text.

(** [loadServers], on the parsed file. *)
Definition loadAddress (group : Group.t) (addr : jsstring) : Server.t :=
  let (host, port) :=
    if includes COLON addr
    then (hd [] (split COLON addr), second (split COLON addr))
    else (addr, Some (numToString (Num defaultPort))) in
  {| Server.host := host; Server.port := parseIntOf port;
     Server.name := Group.name group |}.

Definition loadServers (serverGroups : list Group.t) : list Server.t :=
  flat_map (fun group =>
    match Group.address group with
    | Some addrs => List.map (loadAddress group) addrs
    | None => []
    end) serverGroups.

(** The table [hostPortMap], filled while the requests go out. *)
Definition hostPortMap (servers : list Server.t) : object jsstring :=
  fold_left (fun o s => set o (serverKey s) (serverKey s)) servers [].

(** [Object.keys(hostPortMap).find(k => k.endsWith(`:${rinfo.port}`)) || ipKey] *)
Definition matchedKey (table : object jsstring) (m : Message.t) : jsstring :=
  let ipKey := rawKey m in
  let suffix := COLON :: numToString (Num (Z.of_N (Message.port m))) in
  match find (endsWith suffix) (keys table) with
  | Some [] => ipKey
  | Some k => k
  | None => ipKey
  end.

(** The ['message'] handler. *)
Definition onMessage (table : object jsstring) (responses : ReplySet)
  (m : Message.t) : ReplySet :=
  record responses (matchedKey table m) m.

(** [sendUDPRequests(servers)], given the datagrams that arrive before the
    timer fires.  With no target the promise resolves at once with the
    empty object.  A target whose port [socket.send] refuses makes the
    bind callback throw before the handler is installed: no reply set is
    produced ([None]). *)
Definition sendUDPRequests (servers : list Server.t) (inbound : list Message.t)
  : option ReplySet :=
  match servers with
  | [] => Some []
  | _ =>
      if forallb (fun s => validPort (Server.port s)) servers
      then Some (fold_left (onMessage (hostPortMap servers)) inbound [])
      else None
  end.

(** What [parseServerInfo] returns. *)
Module Info.
Record t : Type :=
  { name : jsstring; description : jsstring; players : Z; map : jsstring }.
End Info.

Definition EMPTY_TAG : jsstring := [LBRACK; RBRACK].

Definition parseServerInfo (hexString : jsstring) : result Info.t :=
  let buf := fromHex hexString in
  nameLenth <- readUInt8 buf 0 ;;
  mapLenth <- readUInt8 buf (nameLenth + 1) ;;
  let subHex := slice buf (nameLenth + 1 + mapLenth + 1) 12 in
  officalLenth <- readUInt8 buf (nameLenth + 1 + mapLenth + 1 + 12) ;;
  let sub2Hex := slice buf (nameLenth + 1 + mapLenth + 1 + 12 + officalLenth + 1) 6 in
  descriptionLenth <-
    readInt8 buf (nameLenth + 1 + mapLenth + 1 + 12 + officalLenth + 1 - 1 + 6) ;;
  let sub3Hex :=
    slice buf (nameLenth + 1 + mapLenth + 1 + 12 + officalLenth + 1 + 6
               + descriptionLenth + 1 - 1) 3 in
  let local_name :=
    replaceFirst EMPTY_TAG [SPACE] (toString buf 1 (nameLenth - 1)) in
  let local_map :=
    replaceFirst EMPTY_TAG [SPACE]
      (toString buf (nameLenth + 2) (nameLenth + 2 + mapLenth)) in
  local_players <- readUInt8 buf (nameLenth + 2 + mapLenth + 1 + 2) ;;
  let local_description :=
    replaceFirst EMPTY_TAG [SPACE]
      (toString buf
         (nameLenth + 1 + mapLenth + 1 + 12 + officalLenth + 1 - 1 + 6 + 1)
         (nameLenth + 1 + mapLenth + 1 + 12 + officalLenth + 1 - 1 + 6 + 1
          + descriptionLenth)) in
  Ok {| Info.name := processColorTags local_name;
        Info.description := processColorTags local_description;
        Info.players := local_players;
        Info.map := processColorTags local_map |}.

(** The [players] property is a number, or the string of the failure
    entry. *)
Inductive players : Type :=
| Players (n : Z)
| PlayersText (s : jsstring).

(** An element of [servers] in the output. *)
Module Entry.
Record t : Type :=
  { ip : jsstring; name : jsstring; players : Scan.players;
    map : jsstring; description : jsstring; ping : jsstring;
    updatedAt : date; sentPackets : Z; receivedMeta : Q }.
End Entry.

(** The entry of the [catch] branch. *)
Definition failed (address : jsstring) : Entry.t :=
  {| Entry.ip := address;
     Entry.name := text "数据解析失败";
     Entry.players := PlayersText (text "未知");
     Entry.map := text "未知地图";
     Entry.description := text "解析失败";
     Entry.ping := text "未知";
     Entry.updatedAt := DateNow;
     Entry.sentPackets := 0;
     Entry.receivedMeta := 0%Q |}.

(** [responses.sort((a, b) => b.timestamp - a.timestamp)[0]] *)
Definition latest (responses : list Reply.t) : option Reply.t :=
  hd_error
    (sortBy (fun a b => Reply.timestamp b - Reply.timestamp a) responses).

Section Aggregate.

(** The outcome of the ping of a host, already as the text that is stored
    ([`${res.time}ms`], ['超时'] or ['错误']): an input from the network. *)
Variable pingOf : jsstring -> jsstring.

(** The body of the [try] for one key of the reply set. *)
Definition tryEntry (address : jsstring) (responses : list Reply.t)
  : result Entry.t :=
  latest <- match latest responses with
            | Some r => Ok r
            | None => Throw TypeError
            end ;;
  info <- parseServerInfo (Reply.response latest) ;;
  let host := hd [] (split COLON address) in
  let port := second (split COLON address) in
  let displayAddress :=
    if showsPort port
    then host ++ COLON :: match port with Some p => p | None => [] end
    else host in
  Ok {| Entry.ip := displayAddress;
        Entry.name := Info.name info;
        Entry.players := Players (Info.players info);
        Entry.map := Info.map info;
        Entry.description := Info.description info;
        Entry.ping := pingOf host;
        Entry.updatedAt := DateOf (Reply.timestamp latest);
        Entry.sentPackets := Z.of_nat (List.length responses);
        Entry.receivedMeta :=
          (Z.of_nat (List.length (Reply.response latest)) # 2)%Q |}.

Definition entryOf (kv : jsstring * list Reply.t) : Entry.t :=
  match tryEntry (fst kv) (snd kv) with
  | Ok e => e
  | Throw _ => failed (fst kv)
  end.

(** [processEnhancedData(inputData).servers] *)
Definition processEnhancedData (inputData : ReplySet) : list Entry.t :=
  List.map entryOf inputData.

End Aggregate.

(** [/\[([#0-9A-Fa-f]+)\]/g], the expression of [fixBrackets] *)
Definition isHexTagChar (c : Z) : bool :=
  (c =? HASH) || ((48 <=? c) && (c <=? 57)) || ((65 <=? c) && (c <=? 70))
  || ((97 <=? c) && (c <=? 102)).

Definition hexTagRegex : matcher := fun s =>
  match s with
  | c :: s' =>
      if c =? LBRACK then
        let tok := takeWhile isHexTagChar s' in
        match tok, dropWhile isHexTagChar s' with
        | _ :: _, d :: _ =>
            if d =? RBRACK then
              Some (LBRACE :: tok ++ [RBRACE], (List.length tok + 2)%nat)
            else None
        | _, _ => None
        end
      else None
  | [] => None
  end.

(** [s.replace(/\[([#0-9A-Fa-f]+)\]/g, '{$1}')] *)
Definition fixText (text : jsstring) : jsstring :=
  replaceAll hexTagRegex text.

(** [fixBrackets], on the [servers] array that it reads from
    [servers.json] and writes back.  The entries are those that [main]
    wrote: [name] and [description] are strings. *)
Definition fixServer (server : Entry.t) : Entry.t :=
  {| Entry.ip := Entry.ip server;
     Entry.name := fixText (Entry.name server);
     Entry.players := Entry.players server;
     Entry.map := Entry.map server;
     Entry.description := fixText (Entry.description server);
     Entry.ping := Entry.ping server;
     Entry.updatedAt := Entry.updatedAt server;
     Entry.sentPackets := Entry.sentPackets server;
     Entry.receivedMeta := Entry.receivedMeta server |}.

Definition fixBrackets (servers : list Entry.t) : list Entry.t :=
  List.map fixServer servers.

(** [SERVER_LIST_URLS], and the constants of [downloadServerList]. *)
Definition SERVER_LIST_URLS : list jsstring :=
  [ lit "https://raw.githubusercontent.com/Anuken/Mindustry/master/servers_v7.json";
    lit "https://cdn.staticaly.com/gh/Anuken/Mindustry/master/servers_v7.json";
    lit "https://github.moeyy.xyz/https://github.com/Anuken/Mindustry/blob/master/servers_v7.json" ].

Definition MAX_RETRIES : nat := 3.
Definition RETRY_DELAY : Z := 5000.

(** What [downloadServerList] does to the network and to the clock: the
    request number [attempt] to the source [urlIndex], and a pause. *)
Inductive event : Type :=
| Request (urlIndex attempt : nat)
| Delay (ms : Z).

Section Download.

(** The body that a request brings, when the status is 200 and the body
    could be written to the list file; [None] when the promise of the
    attempt is rejected.  An input from the network; every attempt is
    taken to settle. *)
Variable data : Type.
Variable fetch : nat -> nat -> option data.

(** The loop [for (attempt = ...; attempt <= MAX_RETRIES; attempt++)],
    with [left] turns to go. *)
Fixpoint attempts (urlIndex attempt left : nat) : option data * list event :=
  match left with
  | O => (None, [])
  | S left' =>
      match fetch urlIndex attempt with
      | Some d => (Some d, [Request urlIndex attempt])
      | None =>
          let (r, log) := attempts urlIndex (S attempt) left' in
          (r, Request urlIndex attempt
              :: (if (attempt <? MAX_RETRIES)%nat then [Delay RETRY_DELAY] else [])
              ++ log)
      end
  end.

(** The loop over the sources, with [left] sources to go. *)
Fixpoint sources (urlIndex left : nat) : option data * list event :=
  match left with
  | O => (None, [])
  | S left' =>
      match attempts urlIndex 1 MAX_RETRIES with
      | (Some d, log) => (Some d, log)
      | (None, log) =>
          let (r, log') := sources (S urlIndex) left' in (r, log ++ log')
      end
  end.

Definition downloadServerList : result data * list event :=
  match sources 0 (List.length SERVER_LIST_URLS) with
  | (Some d, log) => (Ok d, log)
  | (None, log) => (Throw (Error (text "所有下载源都失败")), log)
  end.

End Download.

(** How a call of [main] ends: both output files written, the return
    after the message that no list could be had, or the exception of the
    bind callback of [sendUDPRequests], which nothing catches. *)
Inductive outcome : Type :=
| Written (responses : ReplySet) (servers : list Entry.t)
| Stopped
| Crashed.

Section Main.

Variable pingOf : jsstring -> jsstring.

(** The list file as [JSON.parse] and the array test read it: [None] for
    a file that is missing, is no JSON or holds no array.  A body that a
    request brings is read the same way once it is the list file. *)
Variable fetch : nat -> nat -> option (option (list Group.t)).

(** [loadServers()], which returns the empty list when it catches. *)
Definition loadFile (file : option (list Group.t)) : list Server.t :=
  match file with
  | Some serverGroups => loadServers serverGroups
  | None => []
  end.

(** [main] from [sendUDPRequests(servers)] on. *)
Definition probe (servers : list Server.t) (inbound : list Message.t)
  : outcome :=
  match sendUDPRequests servers inbound with
  | Some responses => Written responses (processEnhancedData pingOf responses)
  | None => Crashed
  end.

Definition main (file : option (list Group.t)) (inbound : list Message.t)
  : outcome * list event :=
  match loadFile file with
  | [] =>
      match downloadServerList fetch with
      | (Ok body, log) =>
          match loadFile body with
          | [] => (Stopped, log)
          | servers => (probe servers inbound, log)
          end
      | (Throw _, log) => (Stopped, log)
      end
  | servers => (probe servers inbound, [])
  end.

End Main.

End Scan.

(* ===================================================================== *)
(** * The older script: text decoder, raw keys, list of silent targets *)
(* ===================================================================== *)

Module Legacy.

(** [config.colorTagRegex = /\[#?(\w+)\]/g] *)
Definition isWordChar (c : Z) : bool :=
  ((97 <=? c) && (c <=? 122)) || ((65 <=? c) && (c <=? 90))
  || ((48 <=? c) && (c <=? 57)) || (c =? 95).

Definition colorTagRegex : matcher := fun s =>
  match s with
  | c :: s' =>
      if c =? LBRACK then
        let hash := match s' with
                    | h :: _ => if h =? HASH then 1%nat else 0%nat
                    | [] => 0%nat
                    end in
        let tok := takeWhile isWordChar (skipn hash s') in
        match tok, dropWhile isWordChar (skipn hash s') with
        | _ :: _, d :: _ =>
            if d =? RBRACK then
              Some (LBRACE :: tok ++ [RBRACE], (hash + List.length tok + 2)%nat)
            else None
        | _, _ => None
        end
      else None
  | [] => None
  end.

(** [text.replace(config.colorTagRegex, '{$1}')] *)
Definition processColorTags (text : jsstring) : jsstring :=
  replaceAll colorTagRegex text.

(** [loadServers], on the parsed file; the target is [{ ip, port, name }]. *)
Definition loadAddress (group : Group.t) (addr : jsstring) : Server.t :=
  let (ip, port) :=
    if includes COLON addr
    then (hd [] (split COLON addr), parseIntOf (second (split COLON addr)))
    else (addr, Num defaultPort) in
  {| Server.host := ip; Server.port := port; Server.name := Group.name group |}.

Definition loadServers (serverGroups : list Group.t) : list Server.t :=
  flat_map (fun group =>
    match Group.address group with
    | Some addrs => List.map (loadAddress group) addrs
    | None => []
    end) serverGroups.

(** The ['message'] handler: the key is the sender's address and port. *)
Definition onMessage (responses : ReplySet) (m : Message.t) : ReplySet :=
  record responses (rawKey m) m.

(** [sendUDPRequests()], given the datagrams that arrive before the timer
    fires.  The handler is installed outside the bind callback, whose
    [try] contains the sends: the reply set does not depend on them. *)
Definition sendUDPRequests (inbound : list Message.t) : ReplySet :=
  fold_left onMessage inbound [].

(** [/^[0-9a-fA-F]+$/.test(s)] *)
Definition isHexString (s : jsstring) : bool :=
  match s with
  | [] => false
  | _ => forallb (fun c => match hexval c with Some _ => true | None => false end) s
  end.

(** [/[\x00-\x1F\x7F-\x9F]/] *)
Definition isControl (c : Z) : bool :=
  ((0 <=? c) && (c <=? 31)) || ((127 <=? c) && (c <=? 159)).

(** [s.replace(/\s+/g, ' ')]; [inRun] tells that the previous character
    was white space. *)
Fixpoint collapseSpaces (inRun : bool) (s : jsstring) : jsstring :=
  match s with
  | [] => []
  | c :: s' =>
      if isSpace c then
        if inRun then collapseSpaces true s' else SPACE :: collapseSpaces true s'
      else c :: collapseSpaces false s'
  end.

Definition parseHexPayload (hexString : jsstring) : result jsstring :=
  if isHexString hexString then
    let buffer := fromHex hexString in
    Ok (trim (collapseSpaces false
                (filter (fun c => negb (isControl c)) (utf8Decode buffer))))
  else
    Throw (Error (text "HEX解析失败: " ++ text "包含非16进制字符")).

(** [err.message]; the texts of the engine's own errors are not modelled
    (none of them reaches a place where the message is read). *)
Definition message (e : error) : jsstring :=
  match e with
  | Error m => m
  | RangeError _ => lit "RangeError"
  | TypeError => lit "TypeError"
  end.

(** [validateTimestamp] then [new Date(ts)]: a negative time stamp is
    replaced by the current time. *)
Definition validateTimestamp (ts : Z) : date :=
  if ts <? 0 then DateNow else DateOf ts.

(** A value of the result object. *)
Module Entry.
Record t : Type :=
  { name : jsstring; description : jsstring; last_updated : date;
    raw_hex : jsstring; all_responses : list Reply.t }.
End Entry.

(** A value of [groupedResults]; [final] is [undefined] for an empty list. *)
Module Grouped.
Record t : Type := { final : option Reply.t; all_responses : list Reply.t }.
End Grouped.

(** [inputData[key].sort((a, b) => a.timestamp - b.timestamp)] *)
Definition sorted (responses : list Reply.t) : list Reply.t :=
  sortBy (fun a b => Reply.timestamp a - Reply.timestamp b) responses.

Definition group (responses : list Reply.t) : Grouped.t :=
  let responsesArr := sorted responses in
  {| Grouped.final := last (List.map Some responsesArr) None;
     Grouped.all_responses := responsesArr |}.

(** First loop of [processEnhancedData]. *)
Definition groupedResults (inputData : ReplySet) : object Grouped.t :=
  fold_left (fun g key =>
    match get inputData key with
    | Some responses => set g key (group responses)
    | None => g
    end) (keys inputData) [].

(** [showPort ? address : domain], the key of a decoded entry. *)
Definition displayKey (address : jsstring) : jsstring :=
  let domain := hd [] (split COLON address) in
  let port := second (split COLON address) in
  let showPort := showsPort port in
  if showPort then address else domain.

(** The [try] of the second loop, for a defined [serverData]. *)
Definition tryEntry (address : jsstring) (serverData : Reply.t)
  (all : list Reply.t) : result (jsstring * Entry.t) :=
  let timestamp := validateTimestamp (Reply.timestamp serverData) in
  parsedData <- parseHexPayload (Reply.response serverData) ;;
  let namePart := hd [] (split PIPE parsedData) in
  let descParts := tl (split PIPE parsedData) in
  let serverName :=
    processColorTags
      (trim (match namePart with [] => text "未知服务器" | _ => namePart end)) in
  let description := processColorTags (trim (join PIPE descParts)) in
  Ok (displayKey address,
      {| Entry.name := serverName;
         Entry.description :=
           match description with [] => text "暂无描述" | _ => description end;
         Entry.last_updated := timestamp;
         Entry.raw_hex := Reply.response serverData;
         Entry.all_responses := all |}).

(** The entry of the [catch] branch. *)
Definition failed (e : error) (serverData : Reply.t) (all : list Reply.t)
  : Entry.t :=
  {| Entry.name := text "数据解析失败";
     Entry.description := text "错误详情: " ++ message e;
     Entry.last_updated := DateNow;
     Entry.raw_hex := Reply.response serverData;
     Entry.all_responses := all |}.

(** One turn of the second loop.  With [serverData] undefined the [try]
    throws and so does the [catch]: the whole call fails. *)
Definition step (results : object Entry.t) (kv : jsstring * Grouped.t)
  : result (object Entry.t) :=
  let (address, g) := kv in
  match Grouped.final g with
  | None => Throw TypeError
  | Some serverData =>
      match tryEntry address serverData (Grouped.all_responses g) with
      | Ok (key, entry) => Ok (set results key entry)
      | Throw e =>
          Ok (set results address (failed e serverData (Grouped.all_responses g)))
      end
  end.

Fixpoint steps (results : object Entry.t) (l : list (jsstring * Grouped.t))
  : result (object Entry.t) :=
  match l with
  | [] => Ok results
  | kv :: l' => results' <- step results kv ;; steps results' l'
  end.

Definition processEnhancedData (inputData : ReplySet) : result (object Entry.t) :=
  steps [] (groupedResults inputData).

(** Step 4 of [main]: the targets whose key is not in the reply set. *)
Definition noResponseServers (servers : list Server.t) (responses : ReplySet)
  : list Server.t :=
  let responseKeys := keys responses in
  filter (fun server =>
            negb (existsb (str_eqb (serverKey server)) responseKeys)) servers.

(** What one round of [main] writes: the raw replies, the report and the
    silent targets (the per-address files of step 3 are left out). *)
Module Round.
Record t : Type :=
  { responses : ReplySet; processedData : object Entry.t;
    noResponse : list Server.t }.
End Round.

Definition main (serverGroups : list Group.t) (inbound : list Message.t)
  : result Round.t :=
  let responses := sendUDPRequests inbound in
  processedData <- processEnhancedData responses ;;
  Ok {| Round.responses := responses;
        Round.processedData := processedData;
        Round.noResponse := noResponseServers (loadServers serverGroups) responses |}.

(** ** The per-address files of step 3 *)

Definition DASH : Z := 45.
Definition NUL : Z := 0.
Definition GOLD : jsstring := lit "[gold]".
Definition ACID : jsstring := lit "[acid]".

(** The characters that [.] does not match. *)
Definition isLineTerminator (c : Z) : bool :=
  (c =? 10) || (c =? 13) || (c =? 8232) || (c =? 8233).

(** [(.*?)(?=\u0000|$)] at the head of [s]: the shortest run of
    characters that [.] matches up to a NUL or the end of the text. *)
Fixpoint lazyToEnd (s : jsstring) : option jsstring :=
  match s with
  | [] => Some []
  | c :: s' =>
      if c =? NUL then Some []
      else if isLineTerminator c then None
      else option_map (cons c) (lazyToEnd s')
  end.

(** [(.*?)\[acid\](.*?)(?=\u0000|$)] at the head of [s]: the first group
    grows by one character whenever the rest does not match. *)
Fixpoint lazyToAcid (s : jsstring) : option (jsstring * jsstring) :=
  match (if startsWith ACID s then lazyToEnd (skipn 6 s) else None) with
  | Some g2 => Some ([], g2)
  | None =>
      match s with
      | [] => None
      | c :: s' =>
          if isLineTerminator c then None
          else match lazyToAcid s' with
               | Some (g1, g2) => Some (c :: g1, g2)
               | None => None
               end
      end
  end.

(** [text.match(/\[gold\](.*?)\[acid\](.*?)(?=\u0000|$)/)]: the two
    groups of the leftmost match. *)
Fixpoint descriptionMatch (s : jsstring) : option (jsstring * jsstring) :=
  match (if startsWith GOLD s then lazyToAcid (skipn 6 s) else None) with
  | Some groups => Some groups
  | None =>
      match s with
      | [] => None
      | _ :: s' => descriptionMatch s'
      end
  end.

Definition serverDescription (messageText : jsstring) : jsstring :=
  match descriptionMatch messageText with
  | Some (g1, g2) => trim g1 ++ trim g2
  | None => text "未找到服务器简介"
  end.

(** [Array.from(bytes).join('.')] *)
Definition dotted (bytes : Buffer) : jsstring :=
  join DOT (List.map (fun b => decimal (byteval b)) bytes).

Module IpHeader.
Record t : Type :=
  { version : Z; headerLength : Z; totalLength : Z; ttl : option Z;
    protocol : option Z; sourceIP : jsstring; destIP : jsstring }.
End IpHeader.

Module UdpHeader.
Record t : Type := { sourcePort : Z; destPort : Z; length : Z }.
End UdpHeader.

(** The content of the file of one address. *)
Module Parsed.
Record t : Type :=
  { ipHeader : IpHeader.t; udpHeader : UdpHeader.t;
    mindustryMessage : jsstring; serverDescription : jsstring;
    update_time : date }.
End Parsed.

(** The body of the [try] of [logs.forEach], up to [parsedData]: the
    reply is read as an IP packet that carries a UDP datagram.  A missing
    first byte counts as 0 in [>>] and [&]. *)
Definition parsePacket (data : jsstring) : result Parsed.t :=
  let msg := fromHex data in
  let first := match byteAt msg 0 with Some b => b | None => 0 end in
  let version := Z.shiftr first 4 in
  let headerLength := Z.land first 15 * 4 in
  totalLength <- readUInt16BE msg 2 ;;
  let ipHeader :=
    {| IpHeader.version := version;
       IpHeader.headerLength := headerLength;
       IpHeader.totalLength := totalLength;
       IpHeader.ttl := byteAt msg 8;
       IpHeader.protocol := byteAt msg 9;
       IpHeader.sourceIP := dotted (slice msg 12 16);
       IpHeader.destIP := dotted (slice msg 16 20) |} in
  let udpHeaderOffset := headerLength in
  sourcePort <- readUInt16BE msg udpHeaderOffset ;;
  destPort <- readUInt16BE msg (udpHeaderOffset + 2) ;;
  length <- readUInt16BE msg (udpHeaderOffset + 4) ;;
  let udpHeader :=
    {| UdpHeader.sourcePort := sourcePort; UdpHeader.destPort := destPort;
       UdpHeader.length := length |} in
  let dataOffset := udpHeaderOffset + 8 in
  let rawData := slice msg dataOffset (blength msg) in
  let messageText := utf8Decode rawData in
  Ok {| Parsed.ipHeader := ipHeader;
        Parsed.udpHeader := udpHeader;
        Parsed.mindustryMessage := messageText;
        Parsed.serverDescription := serverDescription messageText;
        Parsed.update_time := DateNow |}.

(** An element of [logs], and an element of [serveIpData]. *)
Module Log.
Record t : Type := { ip : jsstring; port : option jsstring; data : jsstring }.
End Log.

Module ServeIp.
Record t : Type :=
  { ip : jsstring; port : option jsstring; description : jsstring }.
End ServeIp.

(** The first loop of [processIPResponses], over the keys [ks]: the last
    reply of each key by time stamp; reading it throws for a key without
    reply. *)
Fixpoint logsOf (responses : ReplySet) (ks : list jsstring)
  : result (list Log.t) :=
  match ks with
  | [] => Ok []
  | key :: ks' =>
      match get responses key with
      | None => Throw TypeError
      | Some arr =>
          match last (List.map Some (sorted arr)) None with
          | None => Throw TypeError
          | Some finalResponse =>
              logs <- logsOf responses ks' ;;
              Ok ({| Log.ip := hd [] (split COLON key);
                     Log.port := second (split COLON key);
                     Log.data := Reply.response finalResponse |} :: logs)
          end
      end
  end.

(** [log.ip.replace(/\./g, '-') + '.json'] *)
Definition fileName (ip : jsstring) : jsstring :=
  List.map (fun c => if c =? DOT then DASH else c) ip ++ lit ".json".

(** The files written to the output folder, by name, and [serveIpData]. *)
Module Output.
Record t : Type :=
  { files : object Parsed.t; serveIpData : list ServeIp.t }.
End Output.

(** One turn of [logs.forEach]: a reply that cannot be read as a packet
    is skipped. *)
Definition processLog (out : Output.t) (log : Log.t) : Output.t :=
  match parsePacket (Log.data log) with
  | Ok parsedData =>
      {| Output.files :=
           set (Output.files out) (fileName (Log.ip log)) parsedData;
         Output.serveIpData :=
           Output.serveIpData out ++
           [ {| ServeIp.ip := Log.ip log; ServeIp.port := Log.port log;
                ServeIp.description := Parsed.serverDescription parsedData |} ] |}
  | Throw _ => out
  end.

Definition processIPResponses (responses : ReplySet) : result Output.t :=
  logs <- logsOf responses (keys responses) ;;
  Ok (fold_left processLog logs
        {| Output.files := []; Output.serveIpData := [] |}).

End Legacy.

(* ===================================================================== *)
(** * Notions used to state the properties *)
(* ===================================================================== *)

(** The text of a port starts a number when, after white space and a sign,
    a decimal digit comes first. *)
Definition startsNumber (s : jsstring) : bool :=
  match unsigned s with
  | c :: _ => isDigit c
  | [] => false
  end.

(** [pat] occurs in [s] at position [i]. *)
Definition occursAt (pat s : jsstring) (i : nat) : Prop :=
  startsWith pat (skipn i s) = true.

(** A colour token: one or more characters of [a-z0-9#]. *)
Definition isToken (tok : jsstring) : bool :=
  match tok with
  | [] => false
  | _ => forallb Scan.isTagChar tok
  end.

(** The port of a target is the source port of a datagram. *)
Definition samePort (m : Message.t) (s : Server.t) : bool :=
  num_eqb (Server.port s) (Num (Z.of_N (Message.port m))).

(** All the replies of [l] are older than [t]; none is newer than [t]. *)
Definition timestamps_lt (t : Z) (l : list Reply.t) : Prop :=
  Forall (fun r => Reply.timestamp r < t) l.

Definition timestamps_le (t : Z) (l : list Reply.t) : Prop :=
  Forall (fun r => Reply.timestamp r <= t) l.

(** The record that [parseServerInfo] builds from the five bytes it reads:
    the three field lengths of the walk, the signed description length and
    the player count. *)
Definition decoded (buf : Buffer) (L1 L2 Lo Ld pl : Z) : Scan.Info.t :=
  {| Scan.Info.name :=
       Scan.processColorTags
         (replaceFirst Scan.EMPTY_TAG [SPACE] (toString buf 1 (L1 - 1)));
     Scan.Info.description :=
       Scan.processColorTags
         (replaceFirst Scan.EMPTY_TAG [SPACE]
            (toString buf (L1 + L2 + Lo + 21) (L1 + L2 + Lo + 21 + Ld)));
     Scan.Info.players := pl;
     Scan.Info.map :=
       Scan.processColorTags
         (replaceFirst Scan.EMPTY_TAG [SPACE]
            (toString buf (L1 + 2) (L1 + 2 + L2))) |}.

(** A payload of 25 bytes whose name field is ["[]"]: 04 5b 5d 00 ... 00. *)
Definition payload_empty_tag_name : Buffer :=
  [x04; x5b; x5d] ++ repeat x00 22.


(** A character that is a hexadecimal digit. *)
Definition hexChar (c : Z) : bool :=
  match hexval c with Some _ => true | None => false end.

(** The error of [parseHexPayload]. *)
Definition HEX_ERROR : error :=
  Error (text "HEX解析失败: " ++ text "包含非16进制字符").

(** A payload of 21 bytes, all zero but the last: the byte at offset 20
    declares a description of 5 bytes from offset 21 on. *)
Definition payload_long_description : Buffer := repeat x00 20 ++ [x05].

(** The replies that a handler with key function [keyOf] files under
    [key]: those of the messages whose key it is, in arrival order. *)
Definition attributed (keyOf : Message.t -> jsstring) (key : jsstring)
  (inbound : list Message.t) : list Reply.t :=
  List.map replyOf (filter (fun m => str_eqb (keyOf m) key) inbound).

(** Two targets that share a port, and a datagram from 203.0.113.5:6567. *)
Definition target_a : Server.t :=
  {| Server.host := lit "a.test"; Server.port := Num 6567;
     Server.name := lit "Alpha" |}.

Definition target_b : Server.t :=
  {| Server.host := lit "b.test"; Server.port := Num 6567;
     Server.name := lit "Beta" |}.

Definition reply_6567 : Message.t :=
  {| Message.msg := [x41]; Message.address := (xcb, x00, x71, x05);
     Message.port := 6567%N; Message.now := 100 |}.

(** The reply set of a probe of the newer script, empty when none is
    produced. *)
Definition probed (servers : list Server.t) (inbound : list Message.t) : ReplySet :=
  match Scan.sendUDPRequests servers inbound with
  | Some R => R
  | None => []
  end.

(** A key of the form [host:port], with a host that holds no colon: the
    declared key of a loaded target and the raw key of a datagram. *)
Definition keyForm (key : jsstring) : Prop :=
  exists (host : jsstring) (port : jsnum),
    includes COLON host = false /\ key = host ++ COLON :: numToString port.

(** A reply set as the older probe produces it. *)
Definition probeShaped (R : ReplySet) : Prop :=
  NoDup (keys R) /\ Forall (fun kv => keyForm (fst kv) /\ snd kv <> []) R.

(** What one turn of the second loop of the older [processEnhancedData]
    stores for a key: the key and the entry, or nothing when the reply
    list is empty (the call then throws). *)
Definition legacyOutcome (address : jsstring) (responses : list Reply.t)
  : option (jsstring * Legacy.Entry.t) :=
  match Legacy.Grouped.final (Legacy.group responses) with
  | None => None
  | Some serverData =>
      Some match Legacy.tryEntry address serverData (Legacy.sorted responses) with
           | Ok ke => ke
           | Throw e =>
               (address, Legacy.failed e serverData (Legacy.sorted responses))
           end
  end.

(** The second loop stores one outcome per key. *)
Definition store (results : object Legacy.Entry.t) (kv : jsstring * list Reply.t)
  : object Legacy.Entry.t :=
  match legacyOutcome (fst kv) (snd kv) with
  | Some (k, e) => set results k e
  | None => results
  end.

(** A ping that always times out. *)
Definition noPing (host : jsstring) : jsstring := text "超时".

(** Two payloads of 24 bytes that decode to the names A and B. *)
Definition payload_A : Buffer := [x03; x41] ++ repeat x00 22.
Definition payload_B : Buffer := [x03; x42] ++ repeat x00 22.

(** A reply set whose first key has two replies with one time stamp and
    whose second key has two replies that do not decode. *)
Definition tied_input : ReplySet :=
  [ (lit "1.2.3.4:6567",
     [ {| Reply.timestamp := 100; Reply.response := toHex payload_A |};
       {| Reply.timestamp := 100; Reply.response := toHex payload_B |} ]);
    (lit "5.6.7.8:6567",
     [ {| Reply.timestamp := 1; Reply.response := lit "41" |};
       {| Reply.timestamp := 2; Reply.response := lit "41" |} ]) ].

(** A server list with the one address of [target_a], and an empty
    datagram from 1.2.3.4:6567. *)
Definition one_group : list Group.t :=
  [ {| Group.name := lit "Alpha"; Group.address := Some [lit "a.test"] |} ].

Definition empty_datagram : Message.t :=
  {| Message.msg := []; Message.address := (x01, x02, x03, x04);
     Message.port := 6567%N; Message.now := 7 |}.

(** The number of replies that a reply set holds, over all its keys. *)
Definition totalReplies (R : ReplySet) : nat :=
  list_sum (List.map (fun kv => List.length (snd kv)) R).

(** What the colour-tag rewrite may do to one character: keep it, or turn
    a bracket into the brace of the same side. *)
Definition rewritten (a b : Z) : Prop :=
  b = a \/ (a = LBRACK /\ b = LBRACE) \/ (a = RBRACK /\ b = RBRACE).

(** A target with a port text that is no number. *)
Definition bad_port_group : list Group.t :=
  [ {| Group.name := lit "Alpha";
       Group.address := Some [lit "a.test"; lit "b.test:port"] |} ].

(** The datagram with the payload of the name A, from 1.2.3.4:6567. *)
Definition datagram_A : Message.t :=
  {| Message.msg := payload_A; Message.address := (x01, x02, x03, x04);
     Message.port := 6567%N; Message.now := 100 |}.

(** No two neighbours in [s] are both white space. *)
Fixpoint singleSpaced (s : jsstring) : bool :=
  match s with
  | a :: s' =>
      match s' with
      | b :: _ => negb (isSpace a && isSpace b) && singleSpaced s'
      | [] => true
      end
  | [] => true
  end.

(** The cleaning that [parseHexPayload] applies to the decoded text. *)
Definition cleaned (s : jsstring) : jsstring :=
  trim (Legacy.collapseSpaces false
          (filter (fun c => negb (Legacy.isControl c)) s)).

(** A reply whose payload is the text [Hub|a|b]. *)
Definition reply_Hub : Reply.t :=
  {| Reply.timestamp := 100; Reply.response := lit "4875627c617c62" |}.

(** The matcher of [/\[([class]+)\]/] with the replacement [{$1}], for
    a class [p] of characters. *)
Definition bracketed (p : Z -> bool) : matcher := fun s =>
  match s with
  | c :: s' =>
      if c =? LBRACK then
        let tok := takeWhile p s' in
        match tok, dropWhile p s' with
        | _ :: _, d :: _ =>
            if d =? RBRACK then
              Some (LBRACE :: tok ++ [RBRACE], (List.length tok + 2)%nat)
            else None
        | _, _ => None
        end
      else None
  | [] => None
  end.

(** One or more characters of the class [p]. *)
Definition isTokenOf (p : Z -> bool) (tok : jsstring) : bool :=
  match tok with
  | [] => false
  | _ => forallb p tok
  end.

(** [s] holds the token [tok] in brackets. *)
Definition holdsTag (s tok : jsstring) : Prop :=
  exists pre post, s = pre ++ LBRACK :: tok ++ RBRACK :: post.

(** Two entries that differ at most by brackets that became braces in
    the name and in the description. *)
Definition sameButBraces (a b : Scan.Entry.t) : Prop :=
  Scan.Entry.ip b = Scan.Entry.ip a
  /\ Scan.Entry.players b = Scan.Entry.players a
  /\ Scan.Entry.map b = Scan.Entry.map a
  /\ Scan.Entry.ping b = Scan.Entry.ping a
  /\ Scan.Entry.updatedAt b = Scan.Entry.updatedAt a
  /\ Scan.Entry.sentPackets b = Scan.Entry.sentPackets a
  /\ Scan.Entry.receivedMeta b = Scan.Entry.receivedMeta a
  /\ Forall2 rewritten (Scan.Entry.name a) (Scan.Entry.name b)
  /\ Forall2 rewritten (Scan.Entry.description a) (Scan.Entry.description b).

(** An upper-case letter from A to F. *)
Definition isUpperHex (c : Z) : bool := (65 <=? c) && (c <=? 70).

(** The requests of a log, as pairs of source and attempt, and the time
    that its pauses add up to. *)
Definition requests (log : list Scan.event) : list (nat * nat) :=
  flat_map (fun ev =>
              match ev with
              | Scan.Request urlIndex attempt => [(urlIndex, attempt)]
              | Scan.Delay _ => []
              end) log.

Definition waited (log : list Scan.event) : Z :=
  fold_right (fun ev t =>
                match ev with
                | Scan.Request _ _ => t
                | Scan.Delay ms => ms + t
                end) 0 log.

(** The order of the attempts: source by source, three attempts each. *)
Definition attemptOrder : list (nat * nat) :=
  list_prod (seq 0 3) (seq 1 3).

(** The network of a download whose every request fails, and of one
    whose second source answers at the second attempt. *)
Definition fetch_nothing (urlIndex attempt : nat)
  : option (option (list Group.t)) := None.

Definition fetch_second (urlIndex attempt : nat)
  : option (option (list Group.t)) :=
  if (urlIndex =? 1)%nat && (attempt =? 2)%nat then Some (Some one_group)
  else None.

(** [s] holds [\[gold\]], [g1], [\[acid\]] and [g2] in a row, both
    groups without line terminator, and [g2] ends at a NUL or at the end
    of [s]; [pre] is what stands before. *)
Definition describedBy (s pre g1 g2 : jsstring) : Prop :=
  exists post,
    s = pre ++ Legacy.GOLD ++ g1 ++ Legacy.ACID ++ g2 ++ post
    /\ (post = [] \/ exists post', post = Legacy.NUL :: post')
    /\ Forall (fun c => Legacy.isLineTerminator c = false) g1
    /\ Forall (fun c => Legacy.isLineTerminator c = false) g2.

(** A text with two descriptions, the first of which is cut by a line
    break. *)
Definition text_two_descriptions : jsstring :=
  lit "[gold]a" ++ [10] ++ lit "[acid]b[gold] Hub [acid] pvp " ++ [0]
  ++ lit "rest".

(** What a log adds to [serveIpData]: nothing when its reply does not
    read as a packet. *)
Definition logEntry (log : Legacy.Log.t) : list Legacy.ServeIp.t :=
  match Legacy.parsePacket (Legacy.Log.data log) with
  | Ok parsedData =>
      [ {| Legacy.ServeIp.ip := Legacy.Log.ip log;
           Legacy.ServeIp.port := Legacy.Log.port log;
           Legacy.ServeIp.description :=
             Legacy.Parsed.serverDescription parsedData |} ]
  | Throw _ => []
  end.

(** The log of a key of the reply set: address and port are cut from the
    key, the data are those of the newest reply. *)
Definition logOf (kv : jsstring * list Reply.t) (log : Legacy.Log.t) : Prop :=
  Legacy.Log.ip log = hd [] (split COLON (fst kv))
  /\ Legacy.Log.port log = second (split COLON (fst kv))
  /\ exists final,
      Legacy.Grouped.final (Legacy.group (snd kv)) = Some final
      /\ Legacy.Log.data log = Reply.response final.

(** Two datagrams from one address and two ports. *)
Definition datagram_A2 : Message.t :=
  {| Message.msg := payload_A; Message.address := (x01, x02, x03, x04);
     Message.port := 6568%N; Message.now := 101 |}.


(* ===================================================================== *)
(** * Facts about the runtime model *)
(* ===================================================================== *)

Unset Implicit Arguments.

Section Strings.

Lemma str_eqb_spec (a b : jsstring) : str_eqb a b = true <-> a = b.
Proof.
  revert b; induction a as [|x a IH]; intros [|y b]; simpl;
    try (split; [discriminate | discriminate]); try tauto.
  rewrite andb_true_iff, Z.eqb_eq, IH.
  split; [intros [-> ->]; reflexivity | intros E; inversion E; auto].
Qed.

Lemma str_eqb_refl (a : jsstring) : str_eqb a a = true.
Proof. apply str_eqb_spec; reflexivity. Qed.

Lemma str_eqb_neq (a b : jsstring) : a <> b -> str_eqb a b = false.
Proof.
  intros H; destruct (str_eqb a b) eqn:E; [|reflexivity].
  apply str_eqb_spec in E; contradiction.
Qed.

Lemma str_eqb_sym (a b : jsstring) : str_eqb a b = str_eqb b a.
Proof.
  destruct (str_eqb b a) eqn:E.
  - apply str_eqb_spec in E; subst; apply str_eqb_refl.
  - destruct (str_eqb a b) eqn:E'; [|reflexivity].
    apply str_eqb_spec in E'; subst. rewrite str_eqb_refl in E; discriminate.
Qed.

Lemma startsWith_app (p s : jsstring) : startsWith p (p ++ s) = true.
Proof. induction p; simpl; [reflexivity|]. rewrite Z.eqb_refl; assumption. Qed.

Lemma startsWith_spec (p s : jsstring) :
  startsWith p s = true <-> exists r, s = p ++ r.
Proof.
  revert s; induction p as [|x p IH]; intros s; simpl.
  - split; [exists s; reflexivity | reflexivity].
  - destruct s as [|y s].
    + split; [discriminate | intros [r E]; discriminate].
    + rewrite andb_true_iff, Z.eqb_eq, IH. split.
      * intros [-> [r ->]]. exists r; reflexivity.
      * intros [r E]. inversion E; subst. split; [reflexivity | exists r; reflexivity].
Qed.

Lemma includes_false (c : Z) (s : jsstring) :
  includes c s = false <-> ~ In c s.
Proof.
  unfold includes. split.
  - intros H I. assert (existsb (Z.eqb c) s = true).
    { apply existsb_exists. exists c; split; [assumption | apply Z.eqb_refl]. }
    congruence.
  - intros H. destruct (existsb (Z.eqb c) s) eqn:E; [|reflexivity].
    apply existsb_exists in E. destruct E as [x [I E]].
    apply Z.eqb_eq in E; subst. contradiction.
Qed.

Lemma includes_app (c : Z) (a b : jsstring) :
  includes c (a ++ b) = includes c a || includes c b.
Proof. unfold includes. apply existsb_app. Qed.

Lemma split_nonempty (c : Z) (s : jsstring) : split c s <> [].
Proof.
  induction s as [|x s IH]; simpl; [discriminate|].
  destruct (x =? c); [discriminate|]. destruct (split c s); discriminate.
Qed.

(** A string without the separator is its own single segment. *)
Lemma split_none (c : Z) (s : jsstring) :
  includes c s = false -> split c s = [s].
Proof.
  induction s as [|x s IH]; simpl; [reflexivity|].
  unfold includes; simpl. rewrite Z.eqb_sym.
  destruct (x =? c); simpl; [discriminate|].
  intros H. rewrite (IH H). reflexivity.
Qed.

(** The first segment ends at the first separator. *)
Lemma split_app (c : Z) (h r : jsstring) :
  includes c h = false -> split c (h ++ c :: r) = h :: split c r.
Proof.
  induction h as [|x h IH]; simpl.
  - intros _. rewrite Z.eqb_refl. reflexivity.
  - unfold includes; simpl. rewrite Z.eqb_sym.
    destruct (x =? c); simpl; [discriminate|].
    intros H. rewrite (IH H). reflexivity.
Qed.


End Strings.

Section Numbers.

Lemma isDigit_range (c : Z) : isDigit c = true <-> 48 <= c <= 57.
Proof. unfold isDigit. rewrite andb_true_iff, !Z.leb_le. tauto. Qed.

Lemma digitval_digit (c : Z) :
  isDigit c = true -> digitval 10 c = Some (c - 48).
Proof.
  intros H. unfold digitval, hexval. unfold isDigit in H. rewrite H.
  apply isDigit_range in H.
  destruct (c - 48 <? 10) eqn:E; [reflexivity | apply Z.ltb_ge in E; lia].
Qed.

Lemma digitval_not_digit (c : Z) :
  isDigit c = false -> digitval 10 c = None.
Proof.
  intros H. unfold digitval, hexval. unfold isDigit in H. rewrite H.
  destruct ((97 <=? c) && (c <=? 102)) eqn:E1.
  - apply andb_true_iff in E1. rewrite !Z.leb_le in E1.
    destruct (c - 87 <? 10) eqn:E; [apply Z.ltb_lt in E; lia | reflexivity].
  - destruct ((65 <=? c) && (c <=? 70)) eqn:E2; [|reflexivity].
    apply andb_true_iff in E2. rewrite !Z.leb_le in E2.
    destruct (c - 55 <? 10) eqn:E; [apply Z.ltb_lt in E; lia | reflexivity].
Qed.

Lemma isDigit_not_space (c : Z) : isDigit c = true -> isSpace c = false.
Proof.
  intros H. apply isDigit_range in H. unfold isSpace.
  repeat match goal with
         | |- context [?a <=? ?b] =>
             let E := fresh in destruct (Z.leb_spec a b) as [E|E]
         | |- context [?a =? ?b] =>
             let E := fresh in destruct (Z.eqb_spec a b) as [E|E]
         end; simpl; try reflexivity; lia.
Qed.

Lemma decimal_digits (n : Z) : Forall (fun c => isDigit c = true) (decimal n).
Proof.
  funelim (decimal n).
  - constructor; [|constructor]. apply isDigit_range. lia.
  - apply Forall_app; split; [assumption|].
    constructor; [|constructor]. apply isDigit_range.
    pose proof (Z.mod_pos_bound n 10). lia.
Qed.

Lemma decimal_nonempty (n : Z) : decimal n <> [].
Proof.
  funelim (decimal n); [discriminate|].
  destruct (decimal (n / 10)); discriminate.
Qed.

Lemma decimal_no (c : Z) (n : Z) : isDigit c = false -> ~ In c (decimal n).
Proof.
  intros H I. pose proof (decimal_digits n) as F.
  rewrite Forall_forall in F. apply F in I. congruence.
Qed.

Lemma readDigits_snoc (acc : option Z) (xs : jsstring) (c : Z) :
  Forall (fun x => isDigit x = true) xs -> isDigit c = true ->
  readDigits 10 acc (xs ++ [c]) =
  Some (match readDigits 10 acc xs with
        | Some a => a * 10 + (c - 48)
        | None => c - 48
        end).
Proof.
  intros F Hc. revert acc. induction F as [|x xs Hx F IH]; intros acc; simpl.
  - rewrite (digitval_digit _ Hc). reflexivity.
  - rewrite (digitval_digit _ Hx). apply IH.
Qed.

Lemma readDigits_decimal (n : Z) :
  0 <= n -> readDigits 10 None (decimal n) = Some n.
Proof.
  funelim (decimal n); intros Hn.
  - cbn [readDigits]. rewrite digitval_digit by (apply isDigit_range; lia).
    f_equal. lia.
  - rewrite readDigits_snoc.
    + rewrite H by (apply Z.div_pos; lia). f_equal.
      pose proof (Z.div_mod n 10). lia.
    + apply decimal_digits.
    + apply isDigit_range. pose proof (Z.mod_pos_bound n 10). lia.
Qed.

Lemma decimal_inj (a b : Z) : 0 <= a -> 0 <= b -> decimal a = decimal b -> a = b.
Proof.
  intros Ha Hb E. pose proof (readDigits_decimal a Ha) as Ra.
  rewrite E, (readDigits_decimal b Hb) in Ra. congruence.
Qed.

(** A string of decimal digits is read back in base 10 as it stands. *)
Lemma parseInt_digits (s : jsstring) :
  s <> [] -> Forall (fun c => isDigit c = true) s ->
  parseInt s = match readDigits 10 None s with Some v => Num v | None => NaN end.
Proof.
  intros Hne F. destruct s as [|c s]; [contradiction|].
  inversion F as [|? ? Hc F']; subst.
  assert (Ht : trimStart (c :: s) = c :: s).
  { unfold trimStart; simpl. rewrite (isDigit_not_space _ Hc). reflexivity. }
  apply isDigit_range in Hc.
  assert (H45 : (45 =? c) = false) by (apply Z.eqb_neq; lia).
  assert (H43 : (43 =? c) = false) by (apply Z.eqb_neq; lia).
  assert (Hu : unsigned (c :: s) = c :: s).
  { unfold unsigned. rewrite Ht. cbn [startsWith]. rewrite H45, H43. reflexivity. }
  unfold parseInt. rewrite Hu, Ht.
  assert (Hx : startsWith [48; 120] (c :: s) || startsWith [48; 88] (c :: s) = false).
  { destruct s as [|d s]; cbn [startsWith]; [rewrite !andb_false_r; reflexivity|].
    inversion F' as [|? ? Hd _]; subst. apply isDigit_range in Hd.
    replace (120 =? d) with false by (symmetry; apply Z.eqb_neq; lia).
    replace (88 =? d) with false by (symmetry; apply Z.eqb_neq; lia).
    rewrite !andb_false_r. reflexivity. }
  rewrite Hx. cbn [startsWith]. rewrite H45. cbn [andb].
  destruct (readDigits 10 None (c :: s)); reflexivity.
Qed.

Lemma parseInt_decimal (n : Z) : 0 <= n -> parseInt (decimal n) = Num n.
Proof.
  intros Hn. rewrite parseInt_digits.
  - rewrite (readDigits_decimal _ Hn). reflexivity.
  - apply decimal_nonempty.
  - apply decimal_digits.
Qed.

(** Reading a number back from its text gives the number. *)
Lemma parseInt_numToString (q : jsnum) : parseInt (numToString q) = q.
Proof.
  destruct q as [|z]; [reflexivity|]. unfold numToString.
  destruct (Z.ltb_spec z 0) as [Hz|Hz]; [|apply parseInt_decimal; assumption].
  pose proof (decimal_nonempty (- z)) as Hne.
  pose proof (decimal_digits (- z)) as F.
  pose proof (readDigits_decimal (- z) ltac:(lia)) as R.
  destruct (decimal (- z)) as [|c s] eqn:E; [contradiction|].
  inversion F as [|? ? Hc F']; subst.
  assert (Hu : unsigned (45 :: c :: s) = c :: s) by reflexivity.
  unfold parseInt. rewrite Hu.
  assert (Hx : startsWith [48; 120] (c :: s) || startsWith [48; 88] (c :: s) = false).
  { destruct s as [|d s]; cbn [startsWith]; [rewrite !andb_false_r; reflexivity|].
    inversion F' as [|? ? Hd _]; subst. apply isDigit_range in Hd.
    replace (120 =? d) with false by (symmetry; apply Z.eqb_neq; lia).
    replace (88 =? d) with false by (symmetry; apply Z.eqb_neq; lia).
    rewrite !andb_false_r. reflexivity. }
  rewrite Hx, R. change (startsWith [45] (trimStart (45 :: c :: s))) with true.
  cbv iota. f_equal. lia.
Qed.

Lemma numToString_inj (p q : jsnum) : numToString p = numToString q -> p = q.
Proof.
  intros E. rewrite <- (parseInt_numToString p), E. apply parseInt_numToString.
Qed.

Lemma numToString_no_colon (q : jsnum) : includes COLON (numToString q) = false.
Proof.
  apply includes_false. destruct q as [|z]; simpl.
  - unfold COLON. intros [H|[H|[H|[]]]]; discriminate.
  - destruct (z <? 0); [intros [H|H]; [discriminate|]; revert H|];
      apply decimal_no; reflexivity.
Qed.

Lemma numToString_nonempty (q : jsnum) : numToString q <> [].
Proof.
  destruct q as [|z]; simpl; [discriminate|].
  destruct (z <? 0); [discriminate | apply decimal_nonempty].
Qed.

(** A text that does not start a number reads as NaN. *)
Lemma parseInt_NaN (s : jsstring) : startsNumber s = false -> parseInt s = NaN.
Proof.
  unfold startsNumber, parseInt. intros H.
  destruct (unsigned s) as [|c r]; [reflexivity|].
  assert (Hc : (48 =? c) = false).
  { apply Z.eqb_neq. intros <-. discriminate. }
  cbn [startsWith]. rewrite Hc. cbn [andb orb readDigits].
  rewrite (digitval_not_digit _ H). reflexivity.
Qed.

End Numbers.

(* ===================================================================== *)
(** * Loading the targets *)
(* ===================================================================== *)

Section Loader.

Lemma loadAddress_same (group : Group.t) (addr : jsstring) :
  Scan.loadAddress group addr = Legacy.loadAddress group addr.
Proof.
  unfold Scan.loadAddress, Legacy.loadAddress.
  destruct (includes COLON addr); [reflexivity|].
  unfold parseIntOf. rewrite parseInt_numToString. reflexivity.
Qed.

Lemma loadServers_same (serverGroups : list Group.t) :
  Scan.loadServers serverGroups = Legacy.loadServers serverGroups.
Proof.
  unfold Scan.loadServers, Legacy.loadServers.
  induction serverGroups as [|g gs IH]; simpl; [reflexivity|].
  rewrite IH. f_equal. destruct (Group.address g) as [addrs|]; [|reflexivity].
  apply map_ext. intros a. apply loadAddress_same.
Qed.

Lemma loadAddress_no_colon (group : Group.t) (h : jsstring) :
  includes COLON h = false ->
  Legacy.loadAddress group h =
  {| Server.host := h; Server.port := Num defaultPort;
     Server.name := Group.name group |}.
Proof. intros H. unfold Legacy.loadAddress. rewrite H. reflexivity. Qed.

Lemma loadAddress_colon (group : Group.t) (h r : jsstring) :
  includes COLON h = false ->
  Legacy.loadAddress group (h ++ COLON :: r) =
  {| Server.host := h;
     Server.port := parseInt (hd [] (split COLON r));
     Server.name := Group.name group |}.
Proof.
  intros H. unfold Legacy.loadAddress.
  assert (I : includes COLON (h ++ COLON :: r) = true).
  { apply existsb_exists. exists COLON. split; [|apply Z.eqb_refl].
    apply in_or_app. right. left. reflexivity. }
  rewrite I, (split_app _ _ _ H).
  unfold second, parseIntOf. simpl.
  pose proof (split_nonempty COLON r).
  destruct (split COLON r); [contradiction|]. reflexivity.
Qed.


Lemma loadServers_In (serverGroups : list Group.t) (s : Server.t) :
  In s (Legacy.loadServers serverGroups) <->
  exists group addrs addr,
    In group serverGroups /\ Group.address group = Some addrs /\
    In addr addrs /\ s = Legacy.loadAddress group addr.
Proof.
  unfold Legacy.loadServers. rewrite in_flat_map. split.
  - intros [g [Ig H]]. destruct (Group.address g) as [addrs|] eqn:E; [|destruct H].
    apply in_map_iff in H. destruct H as [a [<- Ia]].
    exists g, addrs, a. auto.
  - intros [g [addrs [a [Ig [E [Ia ->]]]]]]. exists g. split; [assumption|].
    rewrite E. apply in_map. assumption.
Qed.

(** C9. The target loader splits an address on [:] and keeps the first two
    segments: the host is the text before the first colon, the port is
    [parseInt] of the text between the first and the second colon, further
    segments are lost; a port text that does not start a number gives the
    port NaN and the target is kept; an address without colon gets port
    6567.  Both scripts load the same targets, one per address. *)
Theorem loadServers_splits_address :
  forall (serverGroups : list Group.t) (group : Group.t)
         (addrs : list jsstring) (h p q rest : jsstring),
    In group serverGroups -> Group.address group = Some addrs ->
    includes COLON h = false -> includes COLON p = false ->
    includes COLON q = false -> startsNumber q = false ->
    let target host port :=
      {| Server.host := host; Server.port := port;
         Server.name := Group.name group |} in
    Scan.loadServers serverGroups = Legacy.loadServers serverGroups /\
    (forall addr, In addr addrs ->
       In (Scan.loadAddress group addr) (Scan.loadServers serverGroups)) /\
    Scan.loadAddress group h = target h (Num 6567) /\
    Scan.loadAddress group (h ++ COLON :: p) = target h (parseInt p) /\
    Scan.loadAddress group (h ++ COLON :: p ++ COLON :: rest)
      = target h (parseInt p) /\
    Scan.loadAddress group (h ++ COLON :: q) = target h NaN /\
    Scan.loadAddress group (h ++ COLON :: q ++ COLON :: rest) = target h NaN.
Proof.
  intros serverGroups group addrs h p q rest Ig Ea Hh Hp Hq Hn target.
  split; [apply loadServers_same|].
  split.
  { intros addr Ia. rewrite loadServers_same, loadAddress_same.
    apply loadServers_In. exists group, addrs, addr. auto. }
  rewrite !loadAddress_same. subst target. cbv beta.
  rewrite (loadAddress_no_colon _ _ Hh), !(loadAddress_colon _ _ _ Hh).
  rewrite (split_app _ _ _ Hp), (split_app _ _ _ Hq).
  rewrite (split_none _ _ Hp), (split_none _ _ Hq).
  cbn [hd]. rewrite (parseInt_NaN _ Hn). auto 10.
Qed.

Lemma loadServers_splits_address_witness :
  let group := {| Group.name := lit "EscoCorp";
                  Group.address := Some [lit "121.127.37.17:6568:7";
                                         lit "example.com:port"] |} in
  Scan.loadAddress group (lit "121.127.37.17:6568:7")
    = {| Server.host := lit "121.127.37.17"; Server.port := Num 6568;
         Server.name := lit "EscoCorp" |} /\
  Scan.loadAddress group (lit "example.com:port")
    = {| Server.host := lit "example.com"; Server.port := NaN;
         Server.name := lit "EscoCorp" |} /\
  Scan.loadAddress group (lit "121.127.37.17")
    = {| Server.host := lit "121.127.37.17"; Server.port := Num 6567;
         Server.name := lit "EscoCorp" |}.
Proof.
  intros group.
  pose proof (loadServers_splits_address [group] group
                [lit "121.127.37.17:6568:7"; lit "example.com:port"]
                (lit "121.127.37.17") (lit "6568") (lit "port") (lit "7")
                (or_introl eq_refl) eq_refl eq_refl eq_refl eq_refl eq_refl)
    as (_ & _ & H1 & _ & H2 & _ & _).
  pose proof (loadServers_splits_address [group] group
                [lit "121.127.37.17:6568:7"; lit "example.com:port"]
                (lit "example.com") (lit "6568") (lit "port") (lit "7")
                (or_introl eq_refl) eq_refl eq_refl eq_refl eq_refl eq_refl)
    as (_ & _ & _ & _ & _ & H3 & _).
  exact (conj H2 (conj H3 H1)).
Defined.

End Loader.

(* ===================================================================== *)
(** * The colour-tag rewrite *)
(* ===================================================================== *)

Section ColorTags.

Lemma replaceAll_cons (m : matcher) (c : Z) (s : jsstring) :
  replaceAll m (c :: s) =
  match m (c :: s) with
  | Some (rep, n) => rep ++ replaceAll m (skipn (Nat.pred n) s)
  | None => c :: replaceAll m s
  end.
Proof.
  simp replaceAll. destruct (m (c :: s)) as [[rep n]|]; reflexivity.
Qed.

Lemma takeWhile_dropWhile (p : Z -> bool) (s : jsstring) :
  takeWhile p s ++ dropWhile p s = s.
Proof.
  induction s as [|x s IH]; simpl; [reflexivity|].
  destruct (p x); simpl; [rewrite IH|]; reflexivity.
Qed.

Lemma takeWhile_all (p : Z -> bool) (s : jsstring) :
  forallb p (takeWhile p s) = true.
Proof.
  induction s as [|x s IH]; simpl; [reflexivity|].
  destruct (p x) eqn:E; simpl; [rewrite E, IH|]; reflexivity.
Qed.

Lemma dropWhile_head (p : Z -> bool) (s : jsstring) (c : Z) (r : jsstring) :
  dropWhile p s = c :: r -> p c = false.
Proof.
  induction s as [|x s IH]; simpl; [discriminate|].
  destruct (p x) eqn:E; [assumption|]. intros H; inversion H; subst; assumption.
Qed.

(** A run of [p]-characters followed by nothing or by a character that
    fails [p] is exactly what [takeWhile] takes. *)
Lemma takeWhile_run (p : Z -> bool) (t r : jsstring) :
  forallb p t = true ->
  match r with [] => True | d :: _ => p d = false end ->
  takeWhile p (t ++ r) = t /\ dropWhile p (t ++ r) = r.
Proof.
  intros Ht Hr. induction t as [|x t IH]; simpl in *.
  - destruct r as [|d r]; simpl; [auto|]. rewrite Hr. auto.
  - apply andb_true_iff in Ht. destruct Ht as [Hx Ht]. rewrite Hx.
    destruct (IH Ht) as [-> ->]. auto.
Qed.

(** Every string is a run of [p]-characters followed by nothing or by a
    character that fails [p]. *)
Lemma run_decompose (p : Z -> bool) (s : jsstring) :
  exists t r,
    s = t ++ r /\ forallb p t = true /\
    match r with [] => True | d :: _ => p d = false end.
Proof.
  exists (takeWhile p s), (dropWhile p s).
  split; [symmetry; apply takeWhile_dropWhile|].
  split; [apply takeWhile_all|].
  destruct (dropWhile p s) as [|d r] eqn:E; [exact I|].
  exact (dropWhile_head _ _ _ _ E).
Qed.

Lemma tagChar_not_bracket (c : Z) :
  Scan.isTagChar c = true -> c <> LBRACK /\ c <> RBRACK /\ c <> LBRACE.
Proof.
  unfold Scan.isTagChar, HASH, LBRACK, RBRACK, LBRACE.
  rewrite !orb_true_iff, !andb_true_iff, !Z.leb_le, Z.eqb_eq. lia.
Qed.

Lemma isToken_spec (tok : jsstring) :
  isToken tok = true <-> tok <> [] /\ forallb Scan.isTagChar tok = true.
Proof.
  destruct tok as [|c tok]; simpl.
  - split; [discriminate | intros [H _]; contradiction].
  - split; [intros H; split; [discriminate | assumption] | tauto].
Qed.

(** The matcher, on a bracket followed by a run [t] of tag characters and
    a remainder [r] that does not go on with one. *)
Lemma colorTag_shape (t r : jsstring) :
  forallb Scan.isTagChar t = true ->
  match r with [] => True | d :: _ => Scan.isTagChar d = false end ->
  Scan.colorTagRegex (LBRACK :: t ++ r) =
  match t, r with
  | _ :: _, d :: _ =>
      if d =? RBRACK
      then Some (LBRACE :: t ++ [RBRACE], (List.length t + 2)%nat)
      else None
  | _, _ => None
  end.
Proof.
  intros Ht Hr. unfold Scan.colorTagRegex. rewrite Z.eqb_refl.
  destruct (takeWhile_run _ t r Ht Hr) as [-> ->]. reflexivity.
Qed.

Lemma colorTag_other (c : Z) (s : jsstring) :
  c <> LBRACK -> Scan.colorTagRegex (c :: s) = None.
Proof.
  intros H. unfold Scan.colorTagRegex.
  destruct (Z.eqb_spec c LBRACK); [contradiction | reflexivity].
Qed.

Lemma colorTag_match (tok rest : jsstring) :
  isToken tok = true ->
  Scan.colorTagRegex (LBRACK :: tok ++ RBRACK :: rest)
  = Some (LBRACE :: tok ++ [RBRACE], (List.length tok + 2)%nat).
Proof.
  intros H. apply isToken_spec in H. destruct H as [Hne Ht].
  rewrite colorTag_shape; [|assumption|reflexivity].
  destruct tok; [contradiction|]. reflexivity.
Qed.

Lemma colorTag_inv (s rep : jsstring) (n : nat) :
  Scan.colorTagRegex s = Some (rep, n) ->
  exists tok rest,
    isToken tok = true /\ s = LBRACK :: tok ++ RBRACK :: rest /\
    rep = LBRACE :: tok ++ [RBRACE] /\ n = (List.length tok + 2)%nat.
Proof.
  destruct s as [|c s]; [discriminate|].
  destruct (Z.eq_dec c LBRACK) as [->|Hc];
    [|rewrite (colorTag_other _ _ Hc); discriminate].
  destruct (run_decompose Scan.isTagChar s) as (t & r & -> & A & Hr).
  rewrite (colorTag_shape t r A Hr).
  destruct t as [|x t]; [discriminate|]. destruct r as [|d r]; [discriminate|].
  destruct (Z.eqb_spec d RBRACK) as [->|]; [|discriminate].
  intros H; inversion H; subst. exists (x :: t), r.
  split; [exact A|]. split; [reflexivity|]. split; reflexivity.
Qed.

Lemma processColorTags_nil : Scan.processColorTags [] = [].
Proof. reflexivity. Qed.

Lemma processColorTags_match (tok rest : jsstring) :
  isToken tok = true ->
  Scan.processColorTags (LBRACK :: tok ++ RBRACK :: rest)
  = LBRACE :: tok ++ RBRACE :: Scan.processColorTags rest.
Proof.
  intros H. unfold Scan.processColorTags.
  rewrite replaceAll_cons, (colorTag_match _ _ H).
  replace (Nat.pred (List.length tok + 2)) with (List.length tok + 1)%nat by lia.
  rewrite skipn_app, skipn_all2 by lia.
  replace (List.length tok + 1 - List.length tok)%nat with 1%nat by lia.
  simpl. rewrite <- app_assoc. reflexivity.
Qed.

Lemma processColorTags_copy (c : Z) (s : jsstring) :
  Scan.colorTagRegex (c :: s) = None ->
  Scan.processColorTags (c :: s) = c :: Scan.processColorTags s.
Proof.
  intros H. unfold Scan.processColorTags. rewrite replaceAll_cons, H. reflexivity.
Qed.

Lemma processColorTags_plain (t s : jsstring) :
  Forall (fun x => x <> LBRACK) t ->
  Scan.processColorTags (t ++ s) = t ++ Scan.processColorTags s.
Proof.
  induction 1 as [|x t Hx _ IH]; simpl; [reflexivity|].
  rewrite processColorTags_copy by (apply colorTag_other; assumption).
  rewrite IH. reflexivity.
Qed.

Lemma tagChars_plain (t : jsstring) :
  forallb Scan.isTagChar t = true -> Forall (fun x => x <> LBRACK) t.
Proof.
  rewrite forallb_forall, Forall_forall. intros H x Hx.
  apply (tagChar_not_bracket x (H x Hx)).
Qed.

(** Every string is empty, starts with a tag, or starts with a character
    that is copied. *)
Lemma processColorTags_cases (s : jsstring) :
  s = [] \/
  (exists tok rest, isToken tok = true /\ s = LBRACK :: tok ++ RBRACK :: rest) \/
  (exists c s', s = c :: s' /\ Scan.colorTagRegex (c :: s') = None).
Proof.
  destruct s as [|c s']; [left; reflexivity|right].
  destruct (Scan.colorTagRegex (c :: s')) as [[rep n]|] eqn:E.
  - left. destruct (colorTag_inv _ _ _ E) as (tok & rest & Ht & Es & _).
    exists tok, rest. auto.
  - right. exists c, s'. auto.
Qed.

(** The first character of the output: the one of the input, or a brace
    for a bracket. *)
Lemma processColorTags_head (r : jsstring) :
  match r, Scan.processColorTags r with
  | [], [] => True
  | d :: _, d' :: _ => d' = d \/ (d = LBRACK /\ d' = LBRACE)
  | _, _ => False
  end.
Proof.
  destruct (processColorTags_cases r) as [->|[(tok & rest & Ht & ->)|(c & s' & -> & E)]].
  - exact I.
  - rewrite (processColorTags_match _ _ Ht). right. auto.
  - rewrite (processColorTags_copy _ _ E). left. reflexivity.
Qed.

(** A bracket that starts no tag in the input starts none in the output. *)
Lemma colorTag_none_stable (s : jsstring) :
  Scan.colorTagRegex (LBRACK :: s) = None ->
  Scan.colorTagRegex (LBRACK :: Scan.processColorTags s) = None.
Proof.
  destruct (run_decompose Scan.isTagChar s) as (t & r & -> & A & Hr).
  rewrite (colorTag_shape t r A Hr).
  rewrite (processColorTags_plain t r (tagChars_plain t A)).
  pose proof (processColorTags_head r) as Hh.
  intros N. revert Hh.
  destruct r as [|d r'], (Scan.processColorTags _) as [|d' r''];
    intros Hh; try contradiction.
  - rewrite colorTag_shape; [|assumption|exact I].
    destruct t; reflexivity.
  - rewrite colorTag_shape; [|assumption|].
    + destruct t as [|x t']; [reflexivity|].
      destruct Hh as [->|[-> ->]]; [exact N | reflexivity].
    + destruct Hh as [->|[-> ->]]; [assumption | reflexivity].
Qed.

Lemma processColorTags_length (s : jsstring) :
  List.length (Scan.processColorTags s) = List.length s.
Proof.
  remember (List.length s) as n eqn:En. revert s En.
  induction n as [n IH] using lt_wf_ind. intros s En.
  destruct (processColorTags_cases s) as [->|[(tok & rest & Ht & ->)|(c & s' & -> & E)]].
  - subst n. reflexivity.
  - rewrite (processColorTags_match _ _ Ht). subst n. simpl.
    rewrite !length_app. simpl.
    rewrite (IH (List.length rest)); [reflexivity | | reflexivity].
    simpl. rewrite length_app. simpl. lia.
  - rewrite (processColorTags_copy _ _ E). subst n. simpl.
    rewrite (IH (List.length s')); [reflexivity | simpl; lia | reflexivity].
Qed.

(** The rewrite is idempotent. *)
Lemma processColorTags_idem (s : jsstring) :
  Scan.processColorTags (Scan.processColorTags s) = Scan.processColorTags s.
Proof.
  remember (List.length s) as n eqn:En. revert s En.
  induction n as [n IH] using lt_wf_ind. intros s En.
  destruct (processColorTags_cases s) as [->|[(tok & rest & Ht & ->)|(c & s' & -> & E)]].
  - reflexivity.
  - rewrite (processColorTags_match _ _ Ht).
    apply isToken_spec in Ht. destruct Ht as [_ Ht].
    change (LBRACE :: tok ++ RBRACE :: Scan.processColorTags rest)
      with ((LBRACE :: tok) ++ RBRACE :: Scan.processColorTags rest).
    rewrite processColorTags_plain.
    + rewrite processColorTags_copy by (apply colorTag_other; discriminate).
      rewrite (IH (List.length rest)); [reflexivity | | reflexivity].
      subst n. simpl. rewrite length_app. simpl. lia.
    + constructor; [discriminate | apply tagChars_plain; assumption].
  - rewrite (processColorTags_copy _ _ E).
    rewrite processColorTags_copy.
    + rewrite (IH (List.length s')); [reflexivity | subst n; simpl; lia | reflexivity].
    + destruct (Z.eq_dec c LBRACK) as [->|Hc].
      * apply colorTag_none_stable. assumption.
      * apply colorTag_other. assumption.
Qed.

(** The text before a bracket is rewritten on its own. *)
Lemma processColorTags_app_bracket (pre y : jsstring) :
  Scan.processColorTags (pre ++ LBRACK :: y)
  = Scan.processColorTags pre ++ Scan.processColorTags (LBRACK :: y).
Proof.
  remember (List.length pre) as n eqn:En. revert pre En.
  induction n as [n IH] using lt_wf_ind. intros pre En.
  destruct (processColorTags_cases pre)
    as [->|[(tok & rest & Ht & ->)|(c & s' & -> & E)]].
  - reflexivity.
  - simpl. rewrite <- app_assoc. simpl.
    rewrite !(processColorTags_match _ _ Ht).
    rewrite (IH (List.length rest)); [| | reflexivity].
    + simpl. rewrite <- app_assoc. reflexivity.
    + subst n. simpl. rewrite length_app. simpl. lia.
  - rewrite (processColorTags_copy _ _ E). simpl.
    rewrite processColorTags_copy.
    + rewrite (IH (List.length s')); [reflexivity | subst n; simpl; lia | reflexivity].
    + destruct (Z.eq_dec c LBRACK) as [->|Hc]; [|apply colorTag_other; assumption].
      destruct (run_decompose Scan.isTagChar s') as (t & r & -> & A & Hr).
      rewrite (colorTag_shape t r A Hr) in E.
      rewrite <- app_assoc. rewrite colorTag_shape; [|assumption|].
      * destruct t as [|x t']; [reflexivity|].
        destruct r as [|d r']; simpl; [reflexivity | exact E].
      * destruct r as [|d r']; simpl; [reflexivity | assumption].
Qed.

Lemma app_same_length (x1 x2 y1 y2 : jsstring) :
  List.length x1 = List.length y1 -> x1 ++ x2 = y1 ++ y2 -> x1 = y1 /\ x2 = y2.
Proof.
  revert y1; induction x1 as [|a x1 IH]; intros [|b y1]; simpl;
    try discriminate; [auto|].
  intros L E. inversion E; subst. destruct (IH y1) as [-> ->]; auto.
Qed.

(** A bracketed text without brackets inside that is no token starts no
    tag. *)
Lemma colorTag_not_token (other post : jsstring) :
  isToken other = false ->
  Forall (fun c => c <> LBRACK /\ c <> RBRACK) other ->
  Scan.colorTagRegex (LBRACK :: other ++ RBRACK :: post) = None.
Proof.
  intros Hn F.
  destruct (run_decompose Scan.isTagChar other) as (t & r & -> & A & Hr).
  rewrite <- app_assoc. destruct r as [|d r].
  - rewrite app_nil_r in Hn. destruct t as [|x t].
    + reflexivity.
    + cbn [isToken] in Hn. congruence.
  - cbn [app]. rewrite colorTag_shape; [|exact A|exact Hr].
    destruct t as [|x t]; [reflexivity|].
    destruct (Z.eqb_spec d RBRACK) as [->|_]; [|reflexivity].
    exfalso. rewrite Forall_forall in F.
    destruct (F RBRACK) as [_ N]; [|apply N; reflexivity].
    apply in_or_app. right. left. reflexivity.
Qed.

Lemma processColorTags_not_token (pre other post : jsstring) :
  isToken other = false ->
  Forall (fun c => c <> LBRACK /\ c <> RBRACK) other ->
  Scan.processColorTags (pre ++ LBRACK :: other ++ RBRACK :: post)
  = Scan.processColorTags pre
      ++ LBRACK :: other ++ RBRACK :: Scan.processColorTags post.
Proof.
  intros Hn F. rewrite processColorTags_app_bracket.
  rewrite processColorTags_copy by (apply colorTag_not_token; assumption).
  rewrite processColorTags_plain
    by (eapply Forall_impl; [|exact F]; cbv beta; tauto).
  rewrite processColorTags_copy by (apply colorTag_other; discriminate).
  reflexivity.
Qed.

(** C4. The colour-tag rewrite is a total function; one pass turns every
    bracketed token, a run of one or more characters of the class
    [a-z0-9#] of the regular expression, into the token in braces,
    wherever it stands; its output holds no bracketed token any more; and
    rewriting the output again changes nothing.  A bracketed text without
    brackets inside that is empty or holds a character outside the class,
    such as an upper-case letter, stays in its brackets. *)
Theorem processColorTags_total_idempotent :
  forall (pre tok post text : jsstring),
    isToken tok = true ->
    Scan.processColorTags (pre ++ LBRACK :: tok ++ RBRACK :: post)
      = Scan.processColorTags pre
          ++ LBRACE :: tok ++ RBRACE :: Scan.processColorTags post
    /\ Scan.processColorTags text <> pre ++ LBRACK :: tok ++ RBRACK :: post
    /\ Scan.processColorTags (Scan.processColorTags text)
       = Scan.processColorTags text
    /\ (forall other : jsstring,
          isToken other = false ->
          Forall (fun c => c <> LBRACK /\ c <> RBRACK) other ->
          Scan.processColorTags (pre ++ LBRACK :: other ++ RBRACK :: post)
          = Scan.processColorTags pre
              ++ LBRACK :: other ++ RBRACK :: Scan.processColorTags post).
Proof.
  intros pre tok post text Ht.
  assert (R : Scan.processColorTags (pre ++ LBRACK :: tok ++ RBRACK :: post)
              = Scan.processColorTags pre
                  ++ LBRACE :: tok ++ RBRACE :: Scan.processColorTags post).
  { rewrite processColorTags_app_bracket, (processColorTags_match _ _ Ht).
    reflexivity. }
  split; [exact R|]. split; [|split; [apply processColorTags_idem|]].
  - intros E. pose proof (processColorTags_idem text) as Idem.
    rewrite E, R in Idem.
    apply app_same_length in Idem; [|apply processColorTags_length].
    destruct Idem as [_ Idem]. discriminate.
  - intros other Hn F. apply processColorTags_not_token; assumption.
Qed.

Lemma processColorTags_total_idempotent_witness :
  Scan.processColorTags (lit "[a[#ff00aa]Hub[gold]")
    = Scan.processColorTags (lit "[a") ++ lit "{#ff00aa}"
        ++ Scan.processColorTags (lit "Hub[gold]")
  /\ Scan.processColorTags (Scan.processColorTags (lit "x[red]"))
     = Scan.processColorTags (lit "x[red]")
  /\ Scan.processColorTags (lit "[a" ++ lit "[#FF00AA]" ++ lit "Hub[gold]")
     = Scan.processColorTags (lit "[a") ++ lit "[#FF00AA]"
         ++ Scan.processColorTags (lit "Hub[gold]").
Proof.
  pose proof (processColorTags_total_idempotent
                (lit "[a") (lit "#ff00aa") (lit "Hub[gold]") (lit "x[red]")
                eq_refl) as (H1 & _ & H2 & H3).
  split; [exact H1|]. split; [exact H2|].
  apply (H3 (lit "#FF00AA") eq_refl).
  repeat constructor; discriminate.
Defined.

(** A bracketed token with an upper-case letter is not rewritten. *)
Lemma processColorTags_keeps_upper_case_token :
  isToken (lit "RED") = false /\
  Scan.processColorTags (lit "[RED]") = lit "[RED]" /\
  Scan.processColorTags (lit "[A]") = lit "[A]" /\
  Scan.processColorTags (lit "[#FF00AA]") = lit "[#FF00AA]" /\
  Scan.processColorTags (lit "[red]") = lit "{red}".
Proof. repeat split; reflexivity. Qed.

End ColorTags.

(* ===================================================================== *)
(** * The binary decoder *)
(* ===================================================================== *)

Section Decoder.

Lemma readUInt8_Ok (buf : Buffer) (offset v : Z) :
  readUInt8 buf offset = Ok v -> 0 <= offset < blength buf /\ 0 <= v <= 255.
Proof.
  unfold readUInt8.
  destruct ((0 <=? offset) && (offset <? blength buf)) eqn:E; [|discriminate].
  apply andb_true_iff in E. rewrite Z.leb_le, Z.ltb_lt in E.
  destruct (nth_error buf (Z.to_nat offset)) as [b|]; [|discriminate].
  intros H; inversion H; subst. split; [assumption|].
  unfold byteval. pose proof (Byte.to_N_bounded b). lia.
Qed.

Lemma readUInt8_in_range (buf : Buffer) (offset : Z) :
  0 <= offset < blength buf -> exists v, readUInt8 buf offset = Ok v.
Proof.
  intros H. unfold readUInt8.
  replace ((0 <=? offset) && (offset <? blength buf)) with true
    by (symmetry; apply andb_true_iff; rewrite Z.leb_le, Z.ltb_lt; assumption).
  destruct (nth_error buf (Z.to_nat offset)) as [b|] eqn:E; [eauto|].
  apply nth_error_None in E. unfold blength in H. lia.
Qed.

Lemma readUInt8_Throw (buf : Buffer) (offset : Z) (e : error) :
  readUInt8 buf offset = Throw e ->
  e = boundsError offset (blength buf - 1)
  /\ (offset < 0 \/ blength buf <= offset).
Proof.
  unfold readUInt8.
  destruct ((0 <=? offset) && (offset <? blength buf)) eqn:E.
  - apply andb_true_iff in E. rewrite Z.leb_le, Z.ltb_lt in E.
    destruct (readUInt8_in_range buf offset E) as [v Hv].
    unfold readUInt8 in Hv.
    replace ((0 <=? offset) && (offset <? blength buf)) with true in Hv
      by (symmetry; apply andb_true_iff; rewrite Z.leb_le, Z.ltb_lt; assumption).
    destruct (nth_error buf (Z.to_nat offset)); discriminate.
  - intros H; inversion H; subst. split; [reflexivity|].
    apply andb_false_iff in E. rewrite Z.leb_gt, Z.ltb_ge in E. lia.
Qed.

Lemma readInt8_Ok (buf : Buffer) (offset v : Z) :
  readInt8 buf offset = Ok v ->
  exists u, readUInt8 buf offset = Ok u /\ v = (if Z.testbit u 7 then u - 256 else u).
Proof.
  unfold readInt8, bind. destruct (readUInt8 buf offset) as [u|e]; [|discriminate].
  intros H; inversion H; subst. eauto.
Qed.

Lemma readInt8_Throw (buf : Buffer) (offset : Z) (e : error) :
  readInt8 buf offset = Throw e -> readUInt8 buf offset = Throw e.
Proof.
  unfold readInt8, bind. destruct (readUInt8 buf offset) as [u|e']; [discriminate|].
  intros H; inversion H; subst. reflexivity.
Qed.

Lemma parseServerInfo_unfold (hexString : jsstring) :
  Scan.parseServerInfo hexString =
  let buf := fromHex hexString in
  L1 <- readUInt8 buf 0 ;;
  L2 <- readUInt8 buf (L1 + 1) ;;
  Lo <- readUInt8 buf (L1 + L2 + 14) ;;
  Ld <- readInt8 buf (L1 + L2 + Lo + 20) ;;
  pl <- readUInt8 buf (L1 + L2 + 5) ;;
  Ok (decoded buf L1 L2 Lo Ld pl).
Proof.
  unfold Scan.parseServerInfo, decoded, bind. cbv zeta.
  destruct (readUInt8 (fromHex hexString) 0) as [L1|]; [|reflexivity].
  destruct (readUInt8 (fromHex hexString) (L1 + 1)) as [L2|]; [|reflexivity].
  replace (L1 + 1 + L2 + 1 + 12) with (L1 + L2 + 14) by lia.
  destruct (readUInt8 (fromHex hexString) (L1 + L2 + 14)) as [Lo|]; [|reflexivity].
  replace (L1 + L2 + 14 + Lo + 1 - 1 + 6) with (L1 + L2 + Lo + 20) by lia.
  destruct (readInt8 (fromHex hexString) (L1 + L2 + Lo + 20)) as [Ld|]; [|reflexivity].
  replace (L1 + 2 + L2 + 1 + 2) with (L1 + L2 + 5) by lia.
  destruct (readUInt8 (fromHex hexString) (L1 + L2 + 5)) as [pl|]; [|reflexivity].
  replace (L1 + L2 + Lo + 20 + 1) with (L1 + L2 + Lo + 21) by lia.
  reflexivity.
Qed.

(** Success means that the five single-byte reads succeed. *)
Lemma parseServerInfo_Ok (hexString : jsstring) (info : Scan.Info.t) :
  Scan.parseServerInfo hexString = Ok info <->
  exists L1 L2 Lo Ld pl,
    readUInt8 (fromHex hexString) 0 = Ok L1 /\
    readUInt8 (fromHex hexString) (L1 + 1) = Ok L2 /\
    readUInt8 (fromHex hexString) (L1 + L2 + 14) = Ok Lo /\
    readInt8 (fromHex hexString) (L1 + L2 + Lo + 20) = Ok Ld /\
    readUInt8 (fromHex hexString) (L1 + L2 + 5) = Ok pl /\
    info = decoded (fromHex hexString) L1 L2 Lo Ld pl.
Proof.
  rewrite parseServerInfo_unfold. cbv zeta. unfold bind. split.
  - destruct (readUInt8 (fromHex hexString) 0) as [L1|] eqn:E1; [|discriminate].
    destruct (readUInt8 (fromHex hexString) (L1 + 1)) as [L2|] eqn:E2; [|discriminate].
    destruct (readUInt8 (fromHex hexString) (L1 + L2 + 14)) as [Lo|] eqn:E3;
      [|discriminate].
    destruct (readInt8 (fromHex hexString) (L1 + L2 + Lo + 20)) as [Ld|] eqn:E4;
      [|discriminate].
    destruct (readUInt8 (fromHex hexString) (L1 + L2 + 5)) as [pl|] eqn:E5;
      [|discriminate].
    intros H; inversion H; subst. exists L1, L2, Lo, Ld, pl. auto 10.
  - intros (L1 & L2 & Lo & Ld & pl & -> & -> & -> & -> & -> & ->). reflexivity.
Qed.

(** Failure is a [RangeError] for an offset at or beyond the buffer end. *)
Lemma parseServerInfo_Throw (hexString : jsstring) (e : error) :
  Scan.parseServerInfo hexString = Throw e ->
  exists offset,
    e = boundsError offset (blength (fromHex hexString) - 1) /\
    0 <= offset /\ blength (fromHex hexString) <= offset.
Proof.
  rewrite parseServerInfo_unfold. cbv zeta. unfold bind.
  destruct (readUInt8 (fromHex hexString) 0) as [L1|e1] eqn:E1.
  2:{ intros H; inversion H; subst.
      destruct (readUInt8_Throw _ _ _ E1) as [-> Hr]. exists 0. split; [reflexivity|lia]. }
  destruct (readUInt8_Ok _ _ _ E1) as [_ B1].
  destruct (readUInt8 (fromHex hexString) (L1 + 1)) as [L2|e2] eqn:E2.
  2:{ intros H; inversion H; subst.
      destruct (readUInt8_Throw _ _ _ E2) as [-> Hr]. exists (L1 + 1).
      split; [reflexivity|lia]. }
  destruct (readUInt8_Ok _ _ _ E2) as [_ B2].
  destruct (readUInt8 (fromHex hexString) (L1 + L2 + 14)) as [Lo|e3] eqn:E3.
  2:{ intros H; inversion H; subst.
      destruct (readUInt8_Throw _ _ _ E3) as [-> Hr]. exists (L1 + L2 + 14).
      split; [reflexivity|lia]. }
  destruct (readUInt8_Ok _ _ _ E3) as [_ B3].
  destruct (readInt8 (fromHex hexString) (L1 + L2 + Lo + 20)) as [Ld|e4] eqn:E4.
  2:{ intros H; inversion H; subst. apply readInt8_Throw in E4.
      destruct (readUInt8_Throw _ _ _ E4) as [-> Hr]. exists (L1 + L2 + Lo + 20).
      split; [reflexivity|lia]. }
  destruct (readInt8_Ok _ _ _ E4) as (u & E4' & _).
  destruct (readUInt8_Ok _ _ _ E4') as [R4 _].
  destruct (readUInt8 (fromHex hexString) (L1 + L2 + 5)) as [pl|e5] eqn:E5;
    [discriminate|].
  intros H; inversion H; subst.
  destruct (readUInt8_Throw _ _ _ E5) as [-> Hr]. exists (L1 + L2 + 5).
  split; [reflexivity|lia].
Qed.

(** An accepted payload has at least the 21 bytes of the fixed layout. *)
Lemma parseServerInfo_min_length (hexString : jsstring) (info : Scan.Info.t) :
  Scan.parseServerInfo hexString = Ok info -> 21 <= blength (fromHex hexString).
Proof.
  intros H. apply parseServerInfo_Ok in H.
  destruct H as (L1 & L2 & Lo & Ld & pl & E1 & E2 & E3 & E4 & _).
  apply readUInt8_Ok in E1, E2, E3. apply readInt8_Ok in E4.
  destruct E4 as (u & E4 & _). apply readUInt8_Ok in E4. lia.
Qed.

End Decoder.

Section DecodedFields.

Lemma fromHex_toHex_cons (b : byte) (buf : Buffer) :
  fromHex (toHex (b :: buf)) = b :: fromHex (toHex buf).
Proof. destruct b; reflexivity. Qed.

(** The hexadecimal text of a datagram decodes to the datagram. *)
Lemma fromHex_toHex (buf : Buffer) : fromHex (toHex buf) = buf.
Proof.
  induction buf as [|b buf IH]; [reflexivity|].
  rewrite fromHex_toHex_cons, IH. reflexivity.
Qed.

Lemma replaceFirst_unfold (pat rep s : jsstring) :
  replaceFirst pat rep s =
  if startsWith pat s then rep ++ skipn (List.length pat) s
  else match s with
       | [] => []
       | x :: s' => x :: replaceFirst pat rep s'
       end.
Proof. destruct s; reflexivity. Qed.


Lemma replaceFirst_absent (pat rep s : jsstring) :
  (forall i, ~ occursAt pat s i) -> replaceFirst pat rep s = s.
Proof.
  induction s as [|x s IH]; intros H.
  - rewrite replaceFirst_unfold.
    destruct (startsWith pat []) eqn:E; [|reflexivity].
    exfalso. apply (H 0%nat). exact E.
  - rewrite replaceFirst_unfold.
    destruct (startsWith pat (x :: s)) eqn:E.
    + exfalso. apply (H 0%nat). exact E.
    + f_equal. apply IH. intros i O. apply (H (S i)). exact O.
Qed.

(** Within the buffer, [toString] decodes exactly the bytes of the range. *)
Lemma toString_within (buf : Buffer) (start stop : Z) :
  0 < start -> stop <= blength buf -> start < blength buf ->
  toString buf start stop = utf8Decode (bytesBetween buf start stop).
Proof.
  intros Hs He Hl. unfold toString.
  replace (0 <? start) with true by (symmetry; apply Z.ltb_lt; lia).
  replace (blength buf <=? start) with false by (symmetry; apply Z.leb_gt; lia).
  replace (start <=? 0) with false by (symmetry; apply Z.leb_gt; lia).
  replace (blength buf <? stop) with false by (symmetry; apply Z.ltb_ge; lia).
  cbn [andb]. destruct (Z.leb_spec stop start) as [H|H]; [|reflexivity].
  unfold bytesBetween. replace (Z.to_nat (stop - start)) with 0%nat by lia.
  reflexivity.
Qed.

(** C7. For an accepted payload with [L1] the byte at offset 0, the name is
    the UTF-8 decoding of the bytes from offset 1 to offset [L1 - 1]
    (exclusive), in which the first ["[]"] is replaced by a space and which
    is then passed through the colour-tag rewrite; for a name without
    ["[]"] that is the colour-tag rewrite of the decoded bytes. *)
Theorem parseServerInfo_name_bytes :
  forall (hexString : jsstring) (info : Scan.Info.t) (L1 : Z),
    Scan.parseServerInfo hexString = Ok info ->
    readUInt8 (fromHex hexString) 0 = Ok L1 ->
    let raw := utf8Decode (bytesBetween (fromHex hexString) 1 (L1 - 1)) in
    Scan.Info.name info
      = Scan.processColorTags (replaceFirst Scan.EMPTY_TAG [SPACE] raw)
    /\ ((forall i, ~ occursAt Scan.EMPTY_TAG raw i) ->
        Scan.Info.name info = Scan.processColorTags raw).
Proof.
  intros hexString info L1 H E1 raw.
  apply parseServerInfo_Ok in H.
  destruct H as (L1' & L2 & Lo & Ld & pl & E1' & E2 & _ & _ & _ & ->).
  rewrite E1 in E1'. inversion E1'; subst L1'.
  apply readUInt8_Ok in E1, E2.
  assert (N : Scan.Info.name (decoded (fromHex hexString) L1 L2 Lo Ld pl)
              = Scan.processColorTags (replaceFirst Scan.EMPTY_TAG [SPACE] raw)).
  { unfold decoded. cbn [Scan.Info.name]. rewrite toString_within by lia.
    reflexivity. }
  split; [exact N|]. intros A. rewrite N, (replaceFirst_absent _ _ _ A).
  reflexivity.
Qed.

Lemma parseServerInfo_name_bytes_witness :
  Scan.Info.name (decoded payload_empty_tag_name 4 0 0 0 0)
  = Scan.processColorTags
      (replaceFirst Scan.EMPTY_TAG [SPACE]
         (utf8Decode (bytesBetween (fromHex (toHex payload_empty_tag_name)) 1 (4 - 1)))).
Proof.
  exact (proj1 (parseServerInfo_name_bytes (toHex payload_empty_tag_name)
                  (decoded payload_empty_tag_name 4 0 0 0 0) 4 eq_refl eq_refl)).
Defined.

(** The name is not the colour-tag rewrite of the decoded bytes alone: for
    the name bytes ["[]"] the decoder returns a space. *)
Lemma parseServerInfo_name_not_plain_rewrite :
  exists info,
    Scan.parseServerInfo (toHex payload_empty_tag_name) = Ok info /\
    readUInt8 (fromHex (toHex payload_empty_tag_name)) 0 = Ok 4 /\
    Scan.Info.name info = lit " " /\
    Scan.processColorTags
      (utf8Decode (bytesBetween (fromHex (toHex payload_empty_tag_name)) 1 (4 - 1)))
    = lit "[]" /\
    Scan.Info.name info
    <> Scan.processColorTags
         (utf8Decode (bytesBetween (fromHex (toHex payload_empty_tag_name)) 1 (4 - 1))).
Proof.
  exists (decoded payload_empty_tag_name 4 0 0 0 0).
  repeat (split; [reflexivity|]). discriminate.
Qed.



End DecodedFields.

Section DecodeFailure.

Lemma toHex_hexChars (buf : Buffer) : forallb hexChar (toHex buf) = true.
Proof.
  induction buf as [|b buf IH]; [reflexivity|].
  change (toHex (b :: buf)) with (toHex [b] ++ toHex buf).
  rewrite forallb_app, IH, andb_true_r. destruct b; reflexivity.
Qed.

(** The text of a datagram is a hexadecimal string unless it is empty. *)
Lemma isHexString_toHex (buf : Buffer) :
  Legacy.isHexString (toHex buf) = match buf with [] => false | _ => true end.
Proof.
  destruct buf as [|b buf]; [reflexivity|].
  pose proof (toHex_hexChars (b :: buf)) as H.
  unfold Legacy.isHexString. fold hexChar.
  destruct (toHex (b :: buf)) eqn:E; [destruct b; discriminate E | exact H].
Qed.

Lemma parseHexPayload_cases (hexString : jsstring) :
  match Legacy.parseHexPayload hexString with
  | Ok _ => Legacy.isHexString hexString = true
  | Throw e => Legacy.isHexString hexString = false /\ e = HEX_ERROR
  end.
Proof.
  unfold Legacy.parseHexPayload.
  destruct (Legacy.isHexString hexString); [reflexivity | split; reflexivity].
Qed.

End DecodeFailure.

(* ===================================================================== *)
(** * Objects *)
(* ===================================================================== *)

Section Objects.

Context {V : Type}.

Lemma get_set_same (o : object V) (k : jsstring) (v : V) :
  get (set o k v) k = Some v.
Proof.
  induction o as [|[k' v'] o IH]; simpl.
  - rewrite str_eqb_refl. reflexivity.
  - destruct (str_eqb k' k) eqn:E; simpl; rewrite E; [reflexivity | exact IH].
Qed.

Lemma get_set_other (o : object V) (k k' : jsstring) (v : V) :
  k <> k' -> get (set o k v) k' = get o k'.
Proof.
  intros N. induction o as [|[k0 v0] o IH]; simpl.
  - rewrite (str_eqb_neq _ _ N). reflexivity.
  - destruct (str_eqb k0 k) eqn:E; simpl.
    + apply str_eqb_spec in E; subst k0. rewrite (str_eqb_neq _ _ N). reflexivity.
    + rewrite IH. reflexivity.
Qed.

Lemma get_set (o : object V) (k k' : jsstring) (v : V) :
  get (set o k v) k' = if str_eqb k k' then Some v else get o k'.
Proof.
  destruct (str_eqb k k') eqn:E.
  - apply str_eqb_spec in E; subst. apply get_set_same.
  - apply get_set_other. intros ->. rewrite str_eqb_refl in E. discriminate.
Qed.

Lemma get_In_keys (o : object V) (k : jsstring) :
  get o k <> None <-> In k (keys o).
Proof.
  induction o as [|[k' v'] o IH]; simpl; [tauto|].
  destruct (str_eqb k' k) eqn:E.
  - apply str_eqb_spec in E. split; [auto | discriminate].
  - rewrite IH. split; [auto | intros [->|H]; [|assumption]].
    rewrite str_eqb_refl in E. discriminate.
Qed.

Lemma get_None_keys (o : object V) (k : jsstring) :
  get o k = None <-> ~ In k (keys o).
Proof.
  rewrite <- get_In_keys. destruct (get o k); split; try tauto; try discriminate.
  intros H. exfalso. apply H. discriminate.
Qed.

(** Setting a property appends its key unless the key is there. *)
Lemma keys_set (o : object V) (k : jsstring) (v : V) :
  keys (set o k v) = match get o k with Some _ => keys o | None => keys o ++ [k] end.
Proof.
  induction o as [|[k' v'] o IH]; simpl; [reflexivity|].
  destruct (str_eqb k' k) eqn:E; unfold keys in *; simpl; [reflexivity|].
  rewrite IH. destruct (get o k); reflexivity.
Qed.

Lemma NoDup_keys_set (o : object V) (k : jsstring) (v : V) :
  NoDup (keys o) -> NoDup (keys (set o k v)).
Proof.
  intros N. rewrite keys_set. destruct (get o k) eqn:E; [assumption|].
  apply get_None_keys in E.
  apply NoDup_app; [assumption | repeat constructor; intros [] | ].
  intros x Ix [<-|[]]. contradiction.
Qed.

Lemma get_In (o : object V) (k : jsstring) (v : V) :
  NoDup (keys o) -> In (k, v) o -> get o k = Some v.
Proof.
  induction o as [|[k' v'] o IH]; simpl; [intros _ []|].
  intros N. inversion N as [|? ? Hk N']; subst. intros [E|I].
  - inversion E; subst. rewrite str_eqb_refl. reflexivity.
  - destruct (str_eqb k' k) eqn:E; [|apply IH; assumption].
    apply str_eqb_spec in E; subst k'. exfalso. apply Hk.
    change k with (fst (k, v)). apply in_map. assumption.
Qed.

Lemma get_Some_In (o : object V) (k : jsstring) (v : V) :
  get o k = Some v -> In (k, v) o.
Proof.
  induction o as [|[k' v'] o IH]; simpl; [discriminate|].
  destruct (str_eqb k' k) eqn:E; [|auto].
  apply str_eqb_spec in E; subst. intros H; inversion H; auto.
Qed.

End Objects.

(* ===================================================================== *)
(** * Collecting the replies *)
(* ===================================================================== *)

Section Probe.

Lemma serverKey_has_colon (s : Server.t) : In COLON (serverKey s).
Proof. unfold serverKey. apply in_or_app. right. left. reflexivity. Qed.

Lemma rawKey_has_colon (m : Message.t) : In COLON (rawKey m).
Proof. unfold rawKey. apply in_or_app. right. left. reflexivity. Qed.

Lemma get_record (R : ReplySet) (k k' : jsstring) (m : Message.t) :
  get (record R k m) k' =
  if str_eqb k k'
  then Some (match get R k with Some l => l ++ [replyOf m] | None => [replyOf m] end)
  else get R k'.
Proof.
  unfold record. destruct (get R k); rewrite get_set; reflexivity.
Qed.

Lemma NoDup_keys_record (R : ReplySet) (k : jsstring) (m : Message.t) :
  NoDup (keys R) -> NoDup (keys (record R k m)).
Proof.
  intros N. unfold record. destruct (get R k); apply NoDup_keys_set; assumption.
Qed.

Variable keyOf : Message.t -> jsstring.

Lemma get_collect (inbound : list Message.t) (R0 : ReplySet) (key : jsstring) :
  get (fold_left (fun r m => record r (keyOf m) m) inbound R0) key =
  match get R0 key, attributed keyOf key inbound with
  | Some l, new => Some (l ++ new)
  | None, [] => None
  | None, new => Some new
  end.
Proof.
  revert R0. induction inbound as [|m inbound IH]; intros R0.
  - simpl. destruct (get R0 key); [rewrite app_nil_r|]; reflexivity.
  - cbn [fold_left]. rewrite IH, get_record. unfold attributed. cbn [filter].
    destruct (str_eqb (keyOf m) key) eqn:E.
    + apply str_eqb_spec in E. subst key. cbn [List.map].
      destruct (get R0 (keyOf m)) as [l|].
      * rewrite <- app_assoc. reflexivity.
      * reflexivity.
    + destruct (get R0 key); reflexivity.
Qed.

Lemma NoDup_keys_collect (inbound : list Message.t) (R0 : ReplySet) :
  NoDup (keys R0) ->
  NoDup (keys (fold_left (fun r m => record r (keyOf m) m) inbound R0)).
Proof.
  revert R0. induction inbound as [|m inbound IH]; intros R0 N; [exact N|].
  cbn [fold_left]. apply IH. apply NoDup_keys_record. exact N.
Qed.

Lemma keys_collect (inbound : list Message.t) (R0 : ReplySet) (key : jsstring) :
  In key (keys (fold_left (fun r m => record r (keyOf m) m) inbound R0)) ->
  In key (keys R0) \/ exists m, In m inbound /\ keyOf m = key.
Proof.
  intros H. apply get_In_keys in H. rewrite get_collect in H.
  destruct (get R0 key) eqn:E.
  - left. apply get_In_keys. rewrite E. discriminate.
  - right. unfold attributed in H.
    destruct (filter (fun m => str_eqb (keyOf m) key) inbound) as [|m l] eqn:F;
      [contradiction H; reflexivity|].
    assert (I : In m (filter (fun m => str_eqb (keyOf m) key) inbound))
      by (rewrite F; left; reflexivity).
    apply filter_In in I. destruct I as [I K]. apply str_eqb_spec in K. eauto.
Qed.

(** A message is filed under its key. *)
Lemma collect_records (inbound : list Message.t) (m : Message.t) :
  In m inbound ->
  exists l,
    get (fold_left (fun r m => record r (keyOf m) m) inbound []) (keyOf m) = Some l
    /\ In (replyOf m) l.
Proof.
  intros I. rewrite get_collect. cbn [get].
  assert (A : In (replyOf m) (attributed keyOf (keyOf m) inbound)).
  { unfold attributed. apply in_map. apply filter_In. split; [exact I|].
    apply str_eqb_refl. }
  destruct (attributed keyOf (keyOf m) inbound) as [|r l] eqn:E; [destruct A|].
  exists (r :: l). split; [reflexivity | exact A].
Qed.

End Probe.

Section ReplySetInvariant.

Lemma sendUDPRequests_Some (servers : list Server.t) (inbound : list Message.t)
  (R : ReplySet) :
  Scan.sendUDPRequests servers inbound = Some R ->
  (servers = [] /\ R = []) \/
  (servers <> [] /\
   R = fold_left (fun r m => record r (Scan.matchedKey (Scan.hostPortMap servers) m) m)
         inbound []).
Proof.
  unfold Scan.sendUDPRequests. destruct servers as [|s servers].
  - intros H; inversion H. left. auto.
  - destruct (forallb _ _); [|discriminate].
    intros H; inversion H. right. split; [discriminate | reflexivity].
Qed.

(** With targets whose ports [socket.send] accepts, a reply set is
    produced. *)
Lemma sendUDPRequests_total (servers : list Server.t) (inbound : list Message.t) :
  forallb (fun s => validPort (Server.port s)) servers = true ->
  exists R, Scan.sendUDPRequests servers inbound = Some R.
Proof.
  intros H. unfold Scan.sendUDPRequests. rewrite H.
  destruct servers; eauto.
Qed.

Lemma attributed_nonempty (keyOf : Message.t -> jsstring) (key : jsstring)
  (inbound : list Message.t) :
  attributed keyOf key inbound <> [] ->
  exists m, In m inbound /\ keyOf m = key.
Proof.
  unfold attributed. intros H.
  destruct (filter (fun m => str_eqb (keyOf m) key) inbound) as [|m l] eqn:F;
    [contradiction H; reflexivity|].
  assert (I : In m (filter (fun m => str_eqb (keyOf m) key) inbound))
    by (rewrite F; left; reflexivity).
  apply filter_In in I. destruct I as [I K]. apply str_eqb_spec in K. eauto.
Qed.

Lemma collect_get_Some (keyOf : Message.t -> jsstring)
  (inbound : list Message.t) (key : jsstring) (replies : list Reply.t) :
  get (fold_left (fun r m => record r (keyOf m) m) inbound []) key = Some replies ->
  replies <> [] /\ replies = attributed keyOf key inbound.
Proof.
  rewrite get_collect. cbn [get].
  destruct (attributed keyOf key inbound) as [|r l]; [discriminate|].
  intros H; inversion H; subst. split; [discriminate | reflexivity].
Qed.

(** C8. In a reply set produced by the probe of either script, every key
    maps to a non-empty list: the replies of exactly the datagrams that
    the handler attributed to that key, in arrival order; so a key is
    present only if some datagram was attributed to it. *)
Theorem replySet_entries_nonempty_in_arrival_order :
  forall (servers : list Server.t) (inbound : list Message.t) (R : ReplySet)
         (keyOf : Message.t -> jsstring) (key : jsstring)
         (replies : list Reply.t),
    (Scan.sendUDPRequests servers inbound = Some R /\
     keyOf = Scan.matchedKey (Scan.hostPortMap servers))
    \/ (R = Legacy.sendUDPRequests inbound /\ keyOf = rawKey) ->
    get R key = Some replies ->
    replies <> []
    /\ replies = attributed keyOf key inbound
    /\ (exists m, In m inbound /\ keyOf m = key)
    /\ NoDup (keys R).
Proof.
  intros servers inbound R keyOf key replies H G.
  assert (C : R = fold_left (fun r m => record r (keyOf m) m) inbound []).
  { destruct H as [[H ->]|[-> ->]]; [|reflexivity].
    apply sendUDPRequests_Some in H. destruct H as [[_ ->]|[_ ->]];
      [discriminate G | reflexivity]. }
  subst R. destruct (collect_get_Some _ _ _ _ G) as [Hne ->].
  split; [exact Hne|]. split; [reflexivity|].
  split; [exact (attributed_nonempty _ _ _ Hne)|].
  apply NoDup_keys_collect. constructor.
Qed.

Lemma replySet_entries_nonempty_in_arrival_order_witness :
  [replyOf reply_6567; replyOf reply_6567] <> []
  /\ [replyOf reply_6567; replyOf reply_6567]
     = attributed (Scan.matchedKey (Scan.hostPortMap [target_a; target_b]))
         (serverKey target_a) [reply_6567; reply_6567]
  /\ (exists m, In m [reply_6567; reply_6567]
                /\ Scan.matchedKey (Scan.hostPortMap [target_a; target_b]) m
                   = serverKey target_a)
  /\ NoDup (keys (probed [target_a; target_b] [reply_6567; reply_6567])).
Proof.
  exact (replySet_entries_nonempty_in_arrival_order
           [target_a; target_b] [reply_6567; reply_6567]
           (probed [target_a; target_b] [reply_6567; reply_6567])
           (Scan.matchedKey (Scan.hostPortMap [target_a; target_b]))
           (serverKey target_a) [replyOf reply_6567; replyOf reply_6567]
           (or_introl (conj eq_refl eq_refl)) eq_refl).
Defined.

End ReplySetInvariant.

Section Correlation.

Lemma startsWith_separator (c : Z) (x y z : jsstring) :
  ~ In c x -> ~ In c y ->
  startsWith (x ++ [c]) (y ++ c :: z) = true -> x = y.
Proof.
  revert y. induction x as [|a x IH]; intros [|b y] Hx Hy; simpl.
  - reflexivity.
  - rewrite andb_true_iff, Z.eqb_eq. intros [-> _]. exfalso. apply Hy. left. reflexivity.
  - rewrite andb_true_iff, Z.eqb_eq. intros [-> _]. exfalso. apply Hx. left. reflexivity.
  - rewrite andb_true_iff, Z.eqb_eq. intros [-> H]. f_equal.
    apply IH; [intros I; apply Hx; right; exact I
              | intros I; apply Hy; right; exact I | exact H].
Qed.

(** A declared key ends with [:port] exactly when the declared port is
    that port. *)
Lemma endsWith_port (m : Message.t) (s : Server.t) :
  endsWith (COLON :: numToString (Num (Z.of_N (Message.port m)))) (serverKey s)
  = samePort m s.
Proof.
  unfold endsWith, serverKey, samePort.
  set (p := Num (Z.of_N (Message.port m))). set (q := Server.port s).
  rewrite rev_app_distr. cbn [rev].
  destruct (num_eqb q p) eqn:E.
  - destruct q as [|a], p as [|b]; try discriminate E.
    apply Z.eqb_eq in E. subst. apply startsWith_app.
  - destruct (startsWith _ _) eqn:S; [|reflexivity].
    rewrite <- app_assoc in S. cbn [app] in S.
    apply startsWith_separator in S.
    + apply (f_equal (@rev Z)) in S. rewrite !rev_involutive in S.
      apply numToString_inj in S. subst p. rewrite <- S in E.
      subst q. destruct (Server.port s) as [|a]; [discriminate S|].
      simpl in E. rewrite Z.eqb_refl in E. discriminate.
    + rewrite <- in_rev. apply includes_false, numToString_no_colon.
    + rewrite <- in_rev. apply includes_false, numToString_no_colon.
Qed.

Lemma find_append {A : Type} (f : A -> bool) (a b : list A) :
  find f (a ++ b) = match find f a with Some x => Some x | None => find f b end.
Proof.
  induction a as [|x a IH]; simpl; [reflexivity|].
  destruct (f x); [reflexivity | exact IH].
Qed.

Lemma find_pointwise {A : Type} (f g : A -> bool) (l : list A) :
  (forall x, f x = g x) -> find f l = find g l.
Proof.
  intros H. induction l as [|x l IH]; simpl; [reflexivity|].
  rewrite H, IH. reflexivity.
Qed.

Lemma find_keys_set (f : jsstring -> bool) (o : object jsstring)
  (k v : jsstring) :
  find f (keys (set o k v)) =
  match find f (keys o) with
  | Some x => Some x
  | None => if f k then Some k else None
  end.
Proof.
  rewrite keys_set. destruct (get o k) eqn:G.
  - destruct (find f (keys o)) eqn:F; [reflexivity|].
    destruct (f k) eqn:Fk; [|reflexivity].
    assert (I : In k (keys o)) by (apply get_In_keys; rewrite G; discriminate).
    pose proof (find_none _ _ F _ I). congruence.
  - rewrite find_append. destruct (find f (keys o)); [reflexivity|].
    simpl. destruct (f k); reflexivity.
Qed.

Lemma find_hostPortMap (f : jsstring -> bool) (servers : list Server.t)
  (o : object jsstring) :
  find f (keys (fold_left (fun o s => set o (serverKey s) (serverKey s)) servers o)) =
  match find f (keys o) with
  | Some x => Some x
  | None => find f (List.map serverKey servers)
  end.
Proof.
  revert o. induction servers as [|s servers IH]; intros o; cbn [fold_left].
  - simpl. destruct (find f (keys o)); reflexivity.
  - rewrite IH, find_keys_set. destruct (find f (keys o)); [reflexivity|].
    simpl. destruct (f (serverKey s)); reflexivity.
Qed.

Lemma find_map_key (f : jsstring -> bool) (servers : list Server.t) :
  find f (List.map serverKey servers)
  = option_map serverKey (find (fun s => f (serverKey s)) servers).
Proof.
  induction servers as [|s servers IH]; simpl; [reflexivity|].
  destruct (f (serverKey s)); [reflexivity | exact IH].
Qed.

(** The key of a reply: the declared key of the first target with the
    source port of the reply, else the raw key. *)
Lemma matchedKey_first (servers : list Server.t) (m : Message.t) :
  Scan.matchedKey (Scan.hostPortMap servers) m =
  match find (samePort m) servers with
  | Some s => serverKey s
  | None => rawKey m
  end.
Proof.
  unfold Scan.matchedKey, Scan.hostPortMap.
  rewrite find_hostPortMap. cbn [keys List.map find]. rewrite find_map_key.
  rewrite (find_pointwise _ (samePort m)) by (intros s; apply endsWith_port).
  destruct (find (samePort m) servers) as [s|]; [|reflexivity].
  cbn [option_map]. pose proof (serverKey_has_colon s) as I.
  destruct (serverKey s); [destruct I | reflexivity].
Qed.

Lemma endsWith_rawKey (m : Message.t) :
  endsWith (COLON :: numToString (Num (Z.of_N (Message.port m)))) (rawKey m)
  = true.
Proof.
  unfold endsWith, rawKey. rewrite rev_app_distr. apply startsWith_app.
Qed.

Lemma samePort_true (m : Message.t) (s : Server.t) :
  samePort m s = true -> Server.port s = Num (Z.of_N (Message.port m)).
Proof.
  unfold samePort. destruct (Server.port s) as [|a]; [discriminate|].
  cbn [num_eqb]. intros H. apply Z.eqb_eq in H. congruence.
Qed.

(** A key of the reply set is the key of the first target with the port
    of some reply, or a raw key that no declared port matches: a target
    that comes after another one with its port and another key has no
    entry. *)
Lemma later_target_has_no_entry (servers : list Server.t)
  (inbound : list Message.t) (m : Message.t) (first t' : Server.t) :
  find (samePort m) servers = Some first ->
  In t' servers -> samePort m t' = true ->
  serverKey t' <> serverKey first ->
  get (fold_left
         (fun r m => record r (Scan.matchedKey (Scan.hostPortMap servers) m) m)
         inbound []) (serverKey t') = None.
Proof.
  intros F It P N.
  rewrite (get_collect (Scan.matchedKey (Scan.hostPortMap servers))
             inbound [] (serverKey t')).
  cbn [get].
  destruct (attributed (Scan.matchedKey (Scan.hostPortMap servers))
              (serverKey t') inbound) as [|r l] eqn:A; [reflexivity|].
  exfalso.
  destruct (attributed_nonempty (Scan.matchedKey (Scan.hostPortMap servers))
              (serverKey t') inbound) as (m' & _ & K);
    [rewrite A; discriminate|].
  rewrite matchedKey_first in K.
  assert (P' : samePort m' t' = true).
  { rewrite <- endsWith_port.
    destruct (find (samePort m') servers) as [s|] eqn:F'.
    - rewrite <- K, endsWith_port. apply find_some in F'. exact (proj2 F').
    - rewrite <- K. apply endsWith_rawKey. }
  assert (E : find (samePort m') servers = find (samePort m) servers).
  { apply find_pointwise. intros s. unfold samePort.
    pose proof (samePort_true _ _ P) as E1.
    pose proof (samePort_true _ _ P') as E2.
    rewrite E1 in E2. rewrite E2. reflexivity. }
  rewrite E, F in K. apply N. symmetry. exact K.
Qed.

(** C3. In the newer script, a reply whose source port is the declared
    port of some target is recorded under the declared [host:port] key of
    the first declared target with that port, and under that one only:
    every other target with that port and another key has no entry in the
    reply set.  A reply whose source port matches no declared port is
    recorded under the raw [address:port] key; in the older script every
    reply is recorded under the raw key.  No reply is dropped. *)
Theorem reply_recorded_under_first_matching_target :
  forall (servers : list Server.t) (inbound : list Message.t) (R : ReplySet)
         (m : Message.t) (t : Server.t),
    Scan.sendUDPRequests servers inbound = Some R ->
    In t servers -> In m inbound ->
    (samePort m t = true ->
     exists first l,
       find (samePort m) servers = Some first /\
       Server.port first = Server.port t /\
       get R (serverKey first) = Some l /\ In (replyOf m) l /\
       (forall t', In t' servers -> samePort m t' = true ->
                   serverKey t' <> serverKey first ->
                   get R (serverKey t') = None))
    /\ ((forall s, In s servers -> samePort m s = false) ->
        exists l, get R (rawKey m) = Some l /\ In (replyOf m) l)
    /\ (exists l,
          get (Legacy.sendUDPRequests inbound) (rawKey m) = Some l
          /\ In (replyOf m) l).
Proof.
  intros servers inbound R m t H It Im.
  apply sendUDPRequests_Some in H.
  destruct H as [[-> _]|[_ ->]]; [destruct It|].
  pose proof (collect_records (Scan.matchedKey (Scan.hostPortMap servers))
                inbound m Im) as (l & G & Il).
  rewrite matchedKey_first in G.
  split; [|split].
  - intros P. destruct (find (samePort m) servers) as [first|] eqn:F.
    + exists first, l. split; [reflexivity|]. split.
      * apply find_some in F. destruct F as [_ F].
        rewrite (samePort_true _ _ F), (samePort_true _ _ P). reflexivity.
      * split; [exact G|]. split; [exact Il|].
        intros t' It' P' N.
        exact (later_target_has_no_entry servers inbound m first t' F It' P' N).
    + pose proof (find_none _ _ F _ It). congruence.
  - intros N. destruct (find (samePort m) servers) as [first|] eqn:F.
    + apply find_some in F. destruct F as [I F]. rewrite (N _ I) in F. discriminate.
    + exists l. auto.
  - exact (collect_records rawKey inbound m Im).
Qed.

Lemma reply_recorded_under_first_matching_target_witness :
  exists first l,
    find (samePort reply_6567) [target_a; target_b] = Some first /\
    Server.port first = Server.port target_b /\
    get (probed [target_a; target_b] [reply_6567]) (serverKey first) = Some l /\
    In (replyOf reply_6567) l /\
    (forall t', In t' [target_a; target_b] -> samePort reply_6567 t' = true ->
                serverKey t' <> serverKey first ->
                get (probed [target_a; target_b] [reply_6567]) (serverKey t')
                = None).
Proof.
  exact (proj1 (reply_recorded_under_first_matching_target
                  [target_a; target_b] [reply_6567]
                  (probed [target_a; target_b] [reply_6567])
                  reply_6567 target_b eq_refl
                  (or_intror (or_introl eq_refl)) (or_introl eq_refl))
           eq_refl).
Defined.

(** With two targets on one port the reply is filed under the first one
    only, and the older script files it under the raw key whatever the
    targets are. *)
Lemma reply_not_under_each_matching_target :
  In target_b [target_a; target_b] /\
  samePort reply_6567 target_b = true /\
  samePort reply_6567 target_a = true /\
  Scan.sendUDPRequests [target_a; target_b] [reply_6567]
    = Some [(serverKey target_a, [replyOf reply_6567])] /\
  get (probed [target_a; target_b] [reply_6567]) (serverKey target_b) = None /\
  Legacy.sendUDPRequests [reply_6567]
    = [(lit "203.0.113.5:6567", [replyOf reply_6567])] /\
  get (Legacy.sendUDPRequests [reply_6567]) (serverKey target_a) = None.
Proof.
  split; [right; left; reflexivity|]. repeat split; reflexivity.
Qed.

End Correlation.

(* ===================================================================== *)
(** * The authoritative reply *)
(* ===================================================================== *)

Section Latest.

Lemma insertBy_In {A : Type} (cmp : A -> A -> Z) (x y : A) (l : list A) :
  In y (insertBy cmp x l) <-> y = x \/ In y l.
Proof.
  induction l as [|z l IH]; simpl; [intuition|].
  destruct (cmp x z <=? 0); simpl; [intuition|]. rewrite IH. intuition.
Qed.

Lemma sortBy_In {A : Type} (cmp : A -> A -> Z) (y : A) (l : list A) :
  In y (sortBy cmp l) <-> In y l.
Proof.
  induction l as [|x l IH]; simpl; [tauto|].
  rewrite insertBy_In, IH. intuition.
Qed.

Lemma insertBy_length {A : Type} (cmp : A -> A -> Z) (x : A) (l : list A) :
  List.length (insertBy cmp x l) = S (List.length l).
Proof.
  induction l as [|z l IH]; simpl; [reflexivity|].
  destruct (cmp x z <=? 0); simpl; [reflexivity | rewrite IH; reflexivity].
Qed.

Lemma sortBy_length {A : Type} (cmp : A -> A -> Z) (l : list A) :
  List.length (sortBy cmp l) = List.length l.
Proof.
  induction l as [|x l IH]; simpl; [reflexivity|].
  rewrite insertBy_length, IH. reflexivity.
Qed.

(** [sortBy] is the stable sort: for a comparator that is the difference
    of a numeric key it permutes the list, orders it by the key and keeps
    the input order among elements with one key. *)
Lemma insertBy_perm {A : Type} (cmp : A -> A -> Z) (x : A) (l : list A) :
  Permutation (insertBy cmp x l) (x :: l).
Proof.
  induction l as [|y l IH]; simpl; [apply Permutation_refl|].
  destruct (cmp x y <=? 0); [apply Permutation_refl|].
  apply perm_trans with (y :: x :: l); [apply perm_skip; exact IH | apply perm_swap].
Qed.

Lemma sortBy_perm {A : Type} (cmp : A -> A -> Z) (l : list A) :
  Permutation (sortBy cmp l) l.
Proof.
  induction l as [|x l IH]; simpl; [apply perm_nil|].
  apply perm_trans with (x :: sortBy cmp l);
    [apply insertBy_perm | apply perm_skip; exact IH].
Qed.

Lemma sortBy_sorted {A : Type} (key : A -> Z) (cmp : A -> A -> Z) (l : list A) :
  (forall x y, cmp x y = key x - key y) ->
  StronglySorted (fun a b => key a <= key b) (sortBy cmp l).
Proof.
  intros C. induction l as [|x l IH]; simpl; [constructor|].
  induction IH as [|y S HS IHS Hy]; simpl; [repeat constructor|].
  destruct (Z.leb_spec (cmp x y) 0) as [H|H]; rewrite C in H.
  - constructor; [constructor; assumption|].
    constructor; [lia|]. eapply Forall_impl; [|exact Hy]. cbv beta. intros; lia.
  - constructor; [exact IHS|]. apply Forall_forall. intros z Iz.
    apply insertBy_In in Iz. destruct Iz as [->|Iz]; [lia|].
    rewrite Forall_forall in Hy. exact (Hy z Iz).
Qed.

Lemma sortBy_stable {A : Type} (key : A -> Z) (cmp : A -> A -> Z) (t : Z)
  (l : list A) :
  (forall x y, cmp x y = key x - key y) ->
  filter (fun z => key z =? t) (sortBy cmp l) = filter (fun z => key z =? t) l.
Proof.
  intros C. induction l as [|x l IH]; simpl; [reflexivity|].
  rewrite <- IH. clear IH. induction (sortBy cmp l) as [|y S IHS]; [reflexivity|].
  simpl. destruct (Z.leb_spec (cmp x y) 0) as [H|H]; [reflexivity|].
  rewrite C in H. simpl. rewrite IHS.
  destruct (Z.eqb_spec (key x) t), (Z.eqb_spec (key y) t); try reflexivity. lia.
Qed.

(** The newer script: sort descending, take the first. *)
Lemma latest_cons (r : Reply.t) (l : list Reply.t) :
  Scan.latest (r :: l) =
  Some match Scan.latest l with
       | None => r
       | Some y => if Reply.timestamp y <=? Reply.timestamp r then r else y
       end.
Proof.
  unfold Scan.latest. cbn [sortBy fold_right].
  fold (sortBy (fun a b => Reply.timestamp b - Reply.timestamp a) l).
  destruct (sortBy _ l) as [|y S]; [reflexivity|]. cbn [insertBy hd_error].
  destruct (Z.leb_spec (Reply.timestamp y - Reply.timestamp r) 0),
           (Z.leb_spec (Reply.timestamp y) (Reply.timestamp r));
    try lia; reflexivity.
Qed.

(** It is the first of the replies with the greatest time stamp. *)
Lemma latest_first_of_greatest (l : list Reply.t) :
  l <> [] ->
  exists r pre post,
    Scan.latest l = Some r /\ l = pre ++ r :: post /\
    timestamps_lt (Reply.timestamp r) pre /\
    timestamps_le (Reply.timestamp r) post.
Proof.
  unfold timestamps_lt, timestamps_le.
  induction l as [|x l IH]; [contradiction|]. intros _.
  rewrite latest_cons. destruct l as [|y l].
  - exists x, [], []. cbn. auto.
  - destruct IH as (r & pre & post & -> & E & Hpre & Hpost); [discriminate|].
    destruct (Z.leb_spec (Reply.timestamp r) (Reply.timestamp x)) as [H|H].
    + exists x, [], (y :: l). split; [reflexivity|]. split; [reflexivity|].
      split; [constructor|]. rewrite E. apply Forall_app. split.
      * eapply Forall_impl; [|exact Hpre]. cbv beta. intros; lia.
      * constructor; [lia|]. eapply Forall_impl; [|exact Hpost]. cbv beta. intros; lia.
    + exists r, (x :: pre), post. split; [reflexivity|].
      split; [rewrite E; reflexivity|]. split; [|exact Hpost].
      constructor; [lia | exact Hpre].
Qed.

Lemma last_insertBy (cmp : Reply.t -> Reply.t -> Z) (x : Reply.t)
  (l : list Reply.t) :
  last (List.map Some (insertBy cmp x l)) None =
  if forallb (fun z => negb (cmp x z <=? 0)) l then Some x
  else last (List.map Some l) None.
Proof.
  induction l as [|y l IH]; [reflexivity|]. cbn [insertBy forallb].
  destruct (cmp x y <=? 0) eqn:E; cbn [negb andb]; [reflexivity|].
  cbn [List.map]. 
  assert (N : forall z S, last (Some y :: List.map Some (z :: S)) None
                          = last (List.map Some (z :: S)) None) by reflexivity.
  destruct (insertBy cmp x l) as [|z S] eqn:I.
  { pose proof (insertBy_length cmp x l) as L. rewrite I in L. discriminate. }
  rewrite N, IH. destruct (forallb _ l) eqn:F; [reflexivity|].
  destruct l as [|w l]; [discriminate F | reflexivity].
Qed.

(** The older script: sort ascending, take the last. *)
Lemma final_cons (r : Reply.t) (l : list Reply.t) :
  Legacy.Grouped.final (Legacy.group (r :: l)) =
  if forallb (fun z => Reply.timestamp z <? Reply.timestamp r) l then Some r
  else Legacy.Grouped.final (Legacy.group l).
Proof.
  unfold Legacy.group, Legacy.sorted. cbn [Legacy.Grouped.final sortBy fold_right].
  fold (sortBy (fun a b => Reply.timestamp a - Reply.timestamp b) l).
  rewrite last_insertBy.
  set (S := sortBy (fun a b => Reply.timestamp a - Reply.timestamp b) l).
  set (f := fun z => negb (Reply.timestamp r - Reply.timestamp z <=? 0)).
  set (g := fun z => Reply.timestamp z <? Reply.timestamp r).
  assert (FG : forall z, f z = g z).
  { intros z. unfold f, g.
    destruct (Z.leb_spec (Reply.timestamp r - Reply.timestamp z) 0),
             (Z.ltb_spec (Reply.timestamp z) (Reply.timestamp r));
      try lia; reflexivity. }
  assert (EQ : forallb f S = forallb g l).
  { apply eq_iff_eq_true. rewrite !forallb_forall. split; intros H z Iz.
    - rewrite <- FG. apply H. unfold S. apply sortBy_In. exact Iz.
    - rewrite FG. apply H. unfold S in Iz. apply sortBy_In in Iz. exact Iz. }
  rewrite EQ. reflexivity.
Qed.

(** It is the last of the replies with the greatest time stamp. *)
Lemma final_last_of_greatest (l : list Reply.t) :
  l <> [] ->
  exists r pre post,
    Legacy.Grouped.final (Legacy.group l) = Some r /\ l = pre ++ r :: post /\
    timestamps_le (Reply.timestamp r) pre /\
    timestamps_lt (Reply.timestamp r) post.
Proof.
  unfold timestamps_lt, timestamps_le.
  induction l as [|x l IH]; [contradiction|]. intros _.
  rewrite final_cons. destruct l as [|y l].
  - exists x, [], []. cbn. auto.
  - destruct IH as (r & pre & post & -> & E & Hpre & Hpost); [discriminate|].
    destruct (forallb _ (y :: l)) eqn:F.
    + exists x, [], (y :: l). split; [reflexivity|]. split; [reflexivity|].
      split; [constructor|]. apply Forall_forall. intros z Iz.
      rewrite forallb_forall in F. apply Z.ltb_lt. apply F. exact Iz.
    + exists r, (x :: pre), post. split; [reflexivity|].
      split; [rewrite E; reflexivity|]. split; [|exact Hpost].
      constructor; [|exact Hpre].
      destruct (Z.leb_spec (Reply.timestamp x) (Reply.timestamp r)) as [H|H];
        [exact H|]. exfalso.
      assert (T : forallb (fun z => Reply.timestamp z <? Reply.timestamp x) (y :: l) = true).
      { apply forallb_forall. intros z Iz. apply Z.ltb_lt. rewrite E in Iz.
        apply in_app_or in Iz. rewrite Forall_forall in Hpre, Hpost.
        destruct Iz as [Iz|[<-|Iz]];
          [specialize (Hpre _ Iz) | | specialize (Hpost _ Iz)]; lia. }
      congruence.
Qed.

End Latest.

(* ===================================================================== *)
(** * The report of the older script *)
(* ===================================================================== *)

Section LegacyReport.

Lemma keyForm_has_colon (key : jsstring) : keyForm key -> In COLON key.
Proof.
  intros (a & q & _ & ->). apply in_or_app. right. left. reflexivity.
Qed.

(** The display key of [host:port]: the host alone for the default port. *)
Lemma displayKey_keyForm (a : jsstring) (q : jsnum) :
  includes COLON a = false ->
  Legacy.displayKey (a ++ COLON :: numToString q)
  = if num_eqb q (Num defaultPort) then a else a ++ COLON :: numToString q.
Proof.
  intros Ha. unfold Legacy.displayKey.
  rewrite (split_app _ _ _ Ha), (split_none _ _ (numToString_no_colon q)).
  cbn [hd second nth_error]. unfold showsPort.
  pose proof (numToString_nonempty q) as Hne.
  pose proof (parseInt_numToString q) as P.
  destruct (numToString q) as [|c r]; [contradiction|].
  rewrite P. destruct (num_eqb q (Num defaultPort)); reflexivity.
Qed.

Lemma num_eqb_true (p q : jsnum) : num_eqb p q = true -> p = q.
Proof.
  destruct p, q; simpl; try discriminate. intros H.
  apply Z.eqb_eq in H. congruence.
Qed.

(** Two keys of the form [host:port] that are stored under one key of the
    report are the same key. *)
Lemma outKey_inj (K1 K2 k : jsstring) :
  keyForm K1 -> keyForm K2 ->
  k = K1 \/ k = Legacy.displayKey K1 ->
  k = K2 \/ k = Legacy.displayKey K2 ->
  K1 = K2.
Proof.
  intros F1 F2 H1 H2.
  pose proof (keyForm_has_colon _ F1) as C1.
  pose proof (keyForm_has_colon _ F2) as C2.
  destruct F1 as (a1 & q1 & A1 & E1), F2 as (a2 & q2 & A2 & E2).
  assert (X1 : k = K1 \/ (k = a1 /\ q1 = Num defaultPort)).
  { destruct H1 as [H1|H1]; [left; exact H1|].
    rewrite E1, (displayKey_keyForm _ _ A1) in H1.
    destruct (num_eqb q1 (Num defaultPort)) eqn:Q.
    - right. split; [exact H1 | exact (num_eqb_true _ _ Q)].
    - left. rewrite E1. exact H1. }
  assert (X2 : k = K2 \/ (k = a2 /\ q2 = Num defaultPort)).
  { destruct H2 as [H2|H2]; [left; exact H2|].
    rewrite E2, (displayKey_keyForm _ _ A2) in H2.
    destruct (num_eqb q2 (Num defaultPort)) eqn:Q.
    - right. split; [exact H2 | exact (num_eqb_true _ _ Q)].
    - left. rewrite E2. exact H2. }
  apply includes_false in A1, A2.
  destruct X1 as [X1|[X1 Q1]], X2 as [X2|[X2 Q2]].
  - congruence.
  - exfalso. apply A2. rewrite <- X2, X1. exact C1.
  - exfalso. apply A1. rewrite <- X1, X2. exact C2.
  - rewrite E1, E2. congruence.
Qed.

Lemma legacyOutcome_key (K : jsstring) (rs : list Reply.t) (k : jsstring)
  (e : Legacy.Entry.t) :
  legacyOutcome K rs = Some (k, e) -> k = K \/ k = Legacy.displayKey K.
Proof.
  unfold legacyOutcome.
  destruct (Legacy.Grouped.final (Legacy.group rs)) as [r|]; [|discriminate].
  unfold Legacy.tryEntry, bind.
  destruct (Legacy.parseHexPayload (Reply.response r));
    intros H; inversion H; auto.
Qed.

Lemma legacyOutcome_nonempty (K : jsstring) (rs : list Reply.t) :
  rs <> [] -> exists k e, legacyOutcome K rs = Some (k, e).
Proof.
  intros H. destruct (final_last_of_greatest rs H) as (r & _ & _ & F & _).
  unfold legacyOutcome. rewrite F.
  destruct (Legacy.tryEntry K r (Legacy.sorted rs)) as [[k e]|err]; eauto.
Qed.

Lemma set_fresh {V : Type} (o : object V) (k : jsstring) (v : V) :
  get o k = None -> set o k v = o ++ [(k, v)].
Proof.
  induction o as [|[k' v'] o IH]; simpl; [reflexivity|].
  destruct (str_eqb k' k); [discriminate|]. intros H. rewrite (IH H). reflexivity.
Qed.

(** The first loop keeps the keys and their order. *)
Lemma groupedResults_map (R : ReplySet) :
  NoDup (keys R) ->
  Legacy.groupedResults R
  = List.map (fun kv => (fst kv, Legacy.group (snd kv))) R.
Proof.
  intros N. unfold Legacy.groupedResults.
  assert (G : forall suffix acc,
             (forall kv, In kv suffix -> get R (fst kv) = Some (snd kv)) ->
             NoDup (keys acc ++ keys suffix) ->
             fold_left (fun g key =>
                          match get R key with
                          | Some responses => set g key (Legacy.group responses)
                          | None => g
                          end) (keys suffix) acc
             = acc ++ List.map (fun kv => (fst kv, Legacy.group (snd kv))) suffix).
  { induction suffix as [|[k rs] suffix IH]; intros acc Hget Hnd.
    - simpl. rewrite app_nil_r. reflexivity.
    - cbn [keys List.map fold_left fst snd].
      pose proof (Hget (k, rs) (or_introl eq_refl)) as Hk.
      cbn [fst snd] in Hk. rewrite Hk.
      assert (Fr : get acc k = None).
      { apply get_None_keys. intros I.
        apply NoDup_remove_2 in Hnd. apply Hnd. apply in_or_app. left. exact I. }
      rewrite (set_fresh _ _ _ Fr).
      fold (keys suffix). rewrite IH.
      + rewrite <- app_assoc. reflexivity.
      + intros kv I. apply Hget. right. exact I.
      + unfold keys at 1. rewrite map_app. cbn [List.map fst].
        rewrite <- app_assoc. exact Hnd. }
  rewrite (G R []); [reflexivity | | exact N].
  intros [k rs] I. apply get_In; assumption.
Qed.

Lemma steps_store (l : ReplySet) (results : object Legacy.Entry.t) :
  Forall (fun kv => snd kv <> []) l ->
  Legacy.steps results (List.map (fun kv => (fst kv, Legacy.group (snd kv))) l)
  = Ok (fold_left store l results).
Proof.
  intros F. revert results. induction F as [|[K rs] l Hne F IH]; intros results.
  - reflexivity.
  - cbn [List.map Legacy.steps fold_left fst snd].
    destruct (legacyOutcome_nonempty K rs Hne) as (k & e & O).
    unfold store at 2. cbn [fst snd]. rewrite O.
    unfold legacyOutcome in O. unfold Legacy.step.
    destruct (Legacy.Grouped.final (Legacy.group rs)) as [r|]; [|discriminate].
    change (Legacy.Grouped.all_responses (Legacy.group rs)) with (Legacy.sorted rs).
    destruct (Legacy.tryEntry K r (Legacy.sorted rs)) as [[k' e']|err];
      inversion O; subst; cbn [bind]; apply IH.
Qed.

Lemma get_store_other (l : ReplySet) (results : object Legacy.Entry.t)
  (k : jsstring) :
  (forall K rs e, In (K, rs) l -> legacyOutcome K rs <> Some (k, e)) ->
  get (fold_left store l results) k = get results k.
Proof.
  revert results. induction l as [|[K rs] l IH]; intros results H; [reflexivity|].
  cbn [fold_left]. rewrite IH.
  - unfold store. cbn [fst snd].
    destruct (legacyOutcome K rs) as [[k' e']|] eqn:O; [|reflexivity].
    apply get_set_other. intros ->. exact (H K rs e' (or_introl eq_refl) O).
  - intros K' rs' e' I. apply H. right. exact I.
Qed.

Lemma get_store (l : ReplySet) (results : object Legacy.Entry.t)
  (K : jsstring) (rs : list Reply.t) (k : jsstring) (e : Legacy.Entry.t) :
  NoDup (keys l) -> Forall (fun kv => keyForm (fst kv)) l ->
  In (K, rs) l -> legacyOutcome K rs = Some (k, e) ->
  get (fold_left store l results) k = Some e.
Proof.
  revert results. induction l as [|[K0 rs0] l IH]; intros results N F I O;
    [destruct I|].
  inversion N as [|? ? Hk N']; subst. inversion F as [|? ? F0 F']; subst.
  cbn [fold_left]. destruct I as [I|I].
  - inversion I; subst K0 rs0. rewrite get_store_other.
    + unfold store. cbn [fst snd]. rewrite O. apply get_set_same.
    + intros K' rs' e' I' O'.
      assert (E : K = K').
      { apply (outKey_inj K K' k).
        - exact F0.
        - rewrite Forall_forall in F'. exact (F' _ I').
        - exact (legacyOutcome_key _ _ _ _ O).
        - exact (legacyOutcome_key _ _ _ _ O'). }
      subst K'. apply Hk. change K with (fst (K, rs')). apply in_map. exact I'.
  - apply IH; assumption.
Qed.

Lemma keys_store (l : ReplySet) (results : object Legacy.Entry.t) (k : jsstring) :
  In k (keys (fold_left store l results)) ->
  In k (keys results) \/
  exists K rs e, In (K, rs) l /\ legacyOutcome K rs = Some (k, e).
Proof.
  revert results. induction l as [|[K rs] l IH]; intros results H; [left; exact H|].
  cbn [fold_left] in H. apply IH in H. destruct H as [H|(K' & rs' & e' & I & O)].
  - unfold store in H. cbn [fst snd] in H.
    destruct (legacyOutcome K rs) as [[k' e']|] eqn:O; [|left; exact H].
    rewrite keys_set in H. destruct (get results k'); [left; exact H|].
    apply in_app_or in H. destruct H as [H|[<-|[]]]; [left; exact H|].
    right. exists K, rs, e'. split; [left; reflexivity | exact O].
  - right. exists K', rs', e'. split; [right; exact I | exact O].
Qed.

(** On a reply set shaped as the probe leaves it, the older aggregation
    succeeds and stores, for every key, the outcome of that key. *)
Lemma legacy_report (R : ReplySet) :
  probeShaped R ->
  exists report,
    Legacy.processEnhancedData R = Ok report /\
    (forall K rs k e,
        get R K = Some rs -> legacyOutcome K rs = Some (k, e) ->
        get report k = Some e) /\
    (forall k, In k (keys report) ->
        exists K rs e, get R K = Some rs /\ legacyOutcome K rs = Some (k, e)).
Proof.
  intros [N F]. exists (fold_left store R []).
  unfold Legacy.processEnhancedData. rewrite (groupedResults_map _ N).
  split; [|split].
  - apply steps_store. eapply Forall_impl; [|exact F]. cbv beta. tauto.
  - intros K rs k e G O. apply (get_store R [] K rs k e); try assumption.
    + eapply Forall_impl; [|exact F]. cbv beta. tauto.
    + apply get_Some_In. exact G.
  - intros k I. apply keys_store in I. destruct I as [[]|(K & rs & e & I & O)].
    exists K, rs, e. split; [apply get_In; assumption | exact O].
Qed.

Lemma showAddress_no_colon (a : ipv4) : includes COLON (showAddress a) = false.
Proof.
  destruct a as [[[a1 a2] a3] a4]. unfold showAddress.
  apply includes_false. intros I.
  repeat (apply in_app_or in I; destruct I as [I|I];
          [revert I; apply decimal_no; reflexivity|];
          destruct I as [I|I]; [discriminate I|]).
  revert I; apply decimal_no; reflexivity.
Qed.

Lemma keyForm_rawKey (m : Message.t) : keyForm (rawKey m).
Proof.
  exists (showAddress (Message.address m)), (Num (Z.of_N (Message.port m))).
  split; [apply showAddress_no_colon | reflexivity].
Qed.


(** The older probe leaves a reply set of that shape. *)
Lemma probeShaped_sendUDPRequests (inbound : list Message.t) :
  probeShaped (Legacy.sendUDPRequests inbound).
Proof.
  unfold Legacy.sendUDPRequests, Legacy.onMessage. split.
  - apply (NoDup_keys_collect rawKey). constructor.
  - apply Forall_forall. intros [K rs] I. cbn [fst snd].
    assert (G : get (fold_left (fun r m => record r (rawKey m) m) inbound []) K
                = Some rs).
    { apply get_In; [apply (NoDup_keys_collect rawKey); constructor | exact I]. }
    split.
    + assert (IK : In K (keys (fold_left (fun r m => record r (rawKey m) m) inbound [])))
        by (apply get_In_keys; rewrite G; discriminate).
      apply (keys_collect rawKey) in IK. destruct IK as [[]|(m & _ & <-)].
      apply keyForm_rawKey.
    + exact (proj1 (collect_get_Some rawKey _ _ _ G)).
Qed.

End LegacyReport.

(* ===================================================================== *)
(** * The report *)
(* ===================================================================== *)

Section Report.

Lemma entryOf_In (pingOf : jsstring -> jsstring) (inputData : ReplySet)
  (address : jsstring) (replies : list Reply.t) :
  In (address, replies) inputData ->
  In (Scan.entryOf pingOf (address, replies))
     (Scan.processEnhancedData pingOf inputData).
Proof. intros I. unfold Scan.processEnhancedData. apply in_map. exact I. Qed.

Lemma entryOf_failed (pingOf : jsstring -> jsstring) (address : jsstring)
  (replies : list Reply.t) (r : Reply.t) (err : error) :
  Scan.latest replies = Some r ->
  Scan.parseServerInfo (Reply.response r) = Throw err ->
  Scan.entryOf pingOf (address, replies) = Scan.failed address.
Proof.
  intros L P. unfold Scan.entryOf, Scan.tryEntry. cbn [fst snd].
  rewrite L. cbn [bind]. rewrite P. reflexivity.
Qed.

Lemma entryOf_decoded (pingOf : jsstring -> jsstring) (address : jsstring)
  (replies : list Reply.t) (r : Reply.t) (info : Scan.Info.t) :
  Scan.latest replies = Some r ->
  Scan.parseServerInfo (Reply.response r) = Ok info ->
  let e := Scan.entryOf pingOf (address, replies) in
  Scan.Entry.name e = Scan.Info.name info /\
  Scan.Entry.map e = Scan.Info.map info /\
  Scan.Entry.description e = Scan.Info.description info /\
  Scan.Entry.players e = Scan.Players (Scan.Info.players info) /\
  Scan.Entry.sentPackets e = Z.of_nat (List.length replies) /\
  Scan.Entry.updatedAt e = DateOf (Reply.timestamp r).
Proof.
  intros L P. unfold Scan.entryOf, Scan.tryEntry. cbn [fst snd].
  rewrite L. cbn [bind]. rewrite P. cbn. auto 10.
Qed.

(** C1. For a key with replies, the aggregation takes a reply with the
    greatest time stamp.  The newer script takes the first-appended of the
    replies that share it; when that reply decodes, the entry holds its
    decoded fields and a reply count equal to the length of the list, and
    when it does not, the entry is the failure entry (reply count 0).  The
    older script, on the reply set of its probe, takes the last-appended
    of the replies that share the greatest time stamp; the entry is built
    from that reply and carries all the replies of the key. *)
Theorem report_entry_from_latest_reply :
  forall (pingOf : jsstring -> jsstring) (inputData : ReplySet)
         (address : jsstring) (replies : list Reply.t)
         (inbound : list Message.t) (rawAddress : jsstring)
         (rawReplies : list Reply.t),
    In (address, replies) inputData -> replies <> [] ->
    get (Legacy.sendUDPRequests inbound) rawAddress = Some rawReplies ->
    (exists r pre post,
        replies = pre ++ r :: post /\
        timestamps_lt (Reply.timestamp r) pre /\
        timestamps_le (Reply.timestamp r) post /\
        match Scan.parseServerInfo (Reply.response r) with
        | Ok info =>
            exists e,
              In e (Scan.processEnhancedData pingOf inputData) /\
              Scan.Entry.name e = Scan.Info.name info /\
              Scan.Entry.map e = Scan.Info.map info /\
              Scan.Entry.description e = Scan.Info.description info /\
              Scan.Entry.players e = Scan.Players (Scan.Info.players info) /\
              Scan.Entry.sentPackets e = Z.of_nat (List.length replies) /\
              Scan.Entry.updatedAt e = DateOf (Reply.timestamp r)
        | Throw _ =>
            In (Scan.failed address) (Scan.processEnhancedData pingOf inputData)
            /\ Scan.Entry.sentPackets (Scan.failed address) = 0
        end)
    /\ (exists r pre post report k e,
          rawReplies = pre ++ r :: post /\
          timestamps_le (Reply.timestamp r) pre /\
          timestamps_lt (Reply.timestamp r) post /\
          Legacy.processEnhancedData (Legacy.sendUDPRequests inbound) = Ok report /\
          get report k = Some e /\
          match Legacy.tryEntry rawAddress r (Legacy.sorted rawReplies) with
          | Ok ke => (k, e) = ke
          | Throw err =>
              (k, e) = (rawAddress, Legacy.failed err r (Legacy.sorted rawReplies))
          end /\
          Legacy.Entry.raw_hex e = Reply.response r /\
          Legacy.Entry.all_responses e = Legacy.sorted rawReplies /\
          List.length (Legacy.Entry.all_responses e) = List.length rawReplies).
Proof.
  intros pingOf inputData address replies inbound rawAddress rawReplies I Hne G.
  split.
  - destruct (latest_first_of_greatest replies Hne)
      as (r & pre & post & L & E & Hpre & Hpost).
    exists r, pre, post. split; [exact E|]. split; [exact Hpre|].
    split; [exact Hpost|].
    destruct (Scan.parseServerInfo (Reply.response r)) as [info|err] eqn:P.
    + exists (Scan.entryOf pingOf (address, replies)).
      split; [exact (entryOf_In pingOf inputData address replies I)|].
      exact (entryOf_decoded pingOf address replies r info L P).
    + split; [|reflexivity].
      rewrite <- (entryOf_failed pingOf address replies r err L P).
      exact (entryOf_In pingOf inputData address replies I).
  - pose proof (probeShaped_sendUDPRequests inbound) as Sh.
    destruct (legacy_report _ Sh) as (report & Hrep & Hget & _).
    assert (Hne' : rawReplies <> []).
    { destruct Sh as [_ F]. rewrite Forall_forall in F.
      exact (proj2 (F _ (get_Some_In _ _ _ G))). }
    destruct (final_last_of_greatest rawReplies Hne')
      as (r & pre & post & Fin & E & Hpre & Hpost).
    destruct (legacyOutcome_nonempty rawAddress rawReplies Hne') as (k & e & O).
    exists r, pre, post, report, k, e.
    split; [exact E|]. split; [exact Hpre|]. split; [exact Hpost|].
    split; [exact Hrep|]. split; [exact (Hget _ _ _ _ G O)|].
    unfold legacyOutcome in O. rewrite Fin in O.
    assert (Len : List.length (Legacy.sorted rawReplies) = List.length rawReplies)
      by apply sortBy_length.
    unfold Legacy.tryEntry, bind in *.
    destruct (Legacy.parseHexPayload (Reply.response r));
      inversion O; subst; cbn; auto.
Qed.

Lemma report_entry_from_latest_reply_witness :
  exists r pre post,
    snd (hd (lit "", []) tied_input) = pre ++ r :: post /\
    timestamps_lt (Reply.timestamp r) pre /\
    timestamps_le (Reply.timestamp r) post /\
    match Scan.parseServerInfo (Reply.response r) with
    | Ok info =>
        exists e,
          In e (Scan.processEnhancedData noPing tied_input) /\
          Scan.Entry.name e = Scan.Info.name info /\
          Scan.Entry.map e = Scan.Info.map info /\
          Scan.Entry.description e = Scan.Info.description info /\
          Scan.Entry.players e = Scan.Players (Scan.Info.players info) /\
          Scan.Entry.sentPackets e
          = Z.of_nat (List.length (snd (hd (lit "", []) tied_input))) /\
          Scan.Entry.updatedAt e = DateOf (Reply.timestamp r)
    | Throw _ =>
        In (Scan.failed (lit "1.2.3.4:6567"))
           (Scan.processEnhancedData noPing tied_input)
        /\ Scan.Entry.sentPackets (Scan.failed (lit "1.2.3.4:6567")) = 0
    end.
Proof.
  refine (proj1 (report_entry_from_latest_reply noPing tied_input
                   (lit "1.2.3.4:6567") (snd (hd (lit "", []) tied_input))
                   [reply_6567] (rawKey reply_6567) [replyOf reply_6567]
                   (or_introl eq_refl) _ eq_refl)).
  discriminate.
Defined.

(** With two replies of one time stamp the newer script decodes the first
    one, and for a key whose reply does not decode it reports no reply. *)
Lemma tied_replies_first_wins_and_failure_counts_zero :
  List.map Scan.Entry.name (Scan.processEnhancedData noPing tied_input)
    = [lit "A"; text "数据解析失败"] /\
  List.map Scan.Entry.sentPackets (Scan.processEnhancedData noPing tied_input)
    = [2; 0] /\
  List.map (fun kv => List.length (snd kv)) tied_input = [2%nat; 2%nat] /\
  List.map (fun kv => List.map Reply.timestamp (snd kv)) tied_input
    = [[100; 100]; [1; 2]] /\
  Scan.parseServerInfo (toHex payload_B)
    = Ok {| Scan.Info.name := lit "B"; Scan.Info.description := [];
            Scan.Info.players := 0; Scan.Info.map := [] |}.
Proof. repeat split; reflexivity. Qed.

(** C6. When the authoritative reply of a key does not decode, the report
    still has an entry for the key, marked as failed by its name.  In the
    newer script it is the fixed failure entry under the key, with reply
    count 0, payload size 0 and a fixed description, and the report has
    one entry per key; in the older script, on the reply set of its probe,
    it is stored under the key and carries the raw payload text, all the
    replies and the message of the error. *)
Theorem failed_decode_keeps_report_entry :
  forall (pingOf : jsstring -> jsstring) (inputData : ReplySet)
         (address : jsstring) (replies : list Reply.t) (r : Reply.t)
         (err : error) (inbound : list Message.t) (rawAddress : jsstring)
         (rawReplies : list Reply.t) (final : Reply.t) (err' : error),
    In (address, replies) inputData ->
    Scan.latest replies = Some r ->
    Scan.parseServerInfo (Reply.response r) = Throw err ->
    get (Legacy.sendUDPRequests inbound) rawAddress = Some rawReplies ->
    Legacy.Grouped.final (Legacy.group rawReplies) = Some final ->
    Legacy.parseHexPayload (Reply.response final) = Throw err' ->
    (In (Scan.failed address) (Scan.processEnhancedData pingOf inputData)
     /\ List.length (Scan.processEnhancedData pingOf inputData)
        = List.length inputData
     /\ Scan.Entry.ip (Scan.failed address) = address
     /\ Scan.Entry.name (Scan.failed address) = text "数据解析失败"
     /\ Scan.Entry.description (Scan.failed address) = text "解析失败"
     /\ Scan.Entry.sentPackets (Scan.failed address) = 0
     /\ Scan.Entry.receivedMeta (Scan.failed address) = 0%Q)
    /\ (exists report e,
          Legacy.processEnhancedData (Legacy.sendUDPRequests inbound) = Ok report /\
          get report rawAddress = Some e /\
          Legacy.Entry.name e = text "数据解析失败" /\
          Legacy.Entry.description e = text "错误详情: " ++ Legacy.message err' /\
          Legacy.Entry.raw_hex e = Reply.response final /\
          Legacy.Entry.all_responses e = Legacy.sorted rawReplies).
Proof.
  intros pingOf inputData address replies r err inbound rawAddress rawReplies
         final err' I L P G Fin P'.
  split.
  - split.
    { rewrite <- (entryOf_failed pingOf address replies r err L P).
      exact (entryOf_In pingOf inputData address replies I). }
    split; [apply length_map|]. repeat split; reflexivity.
  - pose proof (probeShaped_sendUDPRequests inbound) as Sh.
    destruct (legacy_report _ Sh) as (report & Hrep & Hget & _).
    exists report, (Legacy.failed err' final (Legacy.sorted rawReplies)).
    split; [exact Hrep|]. split; [|repeat split; reflexivity].
    apply (Hget rawAddress rawReplies); [exact G|].
    unfold legacyOutcome. rewrite Fin. unfold Legacy.tryEntry, bind.
    rewrite P'. reflexivity.
Qed.

Lemma failed_decode_keeps_report_entry_witness :
  (In (Scan.failed (lit "5.6.7.8:6567")) (Scan.processEnhancedData noPing tied_input)
   /\ List.length (Scan.processEnhancedData noPing tied_input)
      = List.length tied_input)
  /\ (exists report e,
        Legacy.processEnhancedData (Legacy.sendUDPRequests [empty_datagram])
        = Ok report /\
        get report (rawKey empty_datagram) = Some e /\
        Legacy.Entry.description e = text "错误详情: " ++ Legacy.message HEX_ERROR).
Proof.
  destruct (failed_decode_keeps_report_entry noPing tied_input
              (lit "5.6.7.8:6567")
              [ {| Reply.timestamp := 1; Reply.response := lit "41" |};
                {| Reply.timestamp := 2; Reply.response := lit "41" |} ]
              {| Reply.timestamp := 2; Reply.response := lit "41" |}
              (RangeError (ERR_OUT_OF_RANGE 66 0))
              [empty_datagram] (rawKey empty_datagram) [replyOf empty_datagram]
              (replyOf empty_datagram) HEX_ERROR
              (or_intror (or_introl eq_refl)) eq_refl eq_refl eq_refl eq_refl eq_refl)
    as [(H1 & H2 & _) (report & e & H3 & H4 & _ & H5 & _)].
  split; [exact (conj H1 H2)|]. exists report, e. auto.
Defined.

(** The failure entry of the newer script carries neither the size of the
    payload nor the description of the error. *)
Lemma failed_entry_without_size_and_error :
  Scan.processEnhancedData noPing
    [(lit "1.2.3.4:6567", [ {| Reply.timestamp := 1; Reply.response := lit "41" |} ])]
    = [Scan.failed (lit "1.2.3.4:6567")] /\
  Scan.parseServerInfo (lit "41") = Throw (RangeError (ERR_OUT_OF_RANGE 66 0)) /\
  blength (fromHex (lit "41")) = 1 /\
  Scan.Entry.receivedMeta (Scan.failed (lit "1.2.3.4:6567")) = 0%Q /\
  Scan.Entry.sentPackets (Scan.failed (lit "1.2.3.4:6567")) = 0 /\
  Scan.Entry.description (Scan.failed (lit "1.2.3.4:6567")) = text "解析失败".
Proof. repeat split; reflexivity. Qed.


(** A round in which no datagram arrives: nothing collected, nothing
    reported, the target listed as silent. *)
Example round_without_replies :
  Legacy.main one_group []
  = Ok {| Legacy.Round.responses := [];
          Legacy.Round.processedData := [];
          Legacy.Round.noResponse := [target_a] |}.
Proof. reflexivity. Qed.


End Report.

(* ===================================================================== *)
(** * Further properties of the loader and the probe *)
(* ===================================================================== *)

Section LoaderKeys.



Lemma numToString_nonneg (n : Z) : 0 <= n -> numToString (Num n) = decimal n.
Proof.
  intros H. unfold numToString.
  destruct (Z.ltb_spec n 0); [lia | reflexivity].
Qed.

(** X2. An address [host:port] whose port is a plain decimal numeral
    (no sign, no leading zero other than 0 itself) of a number up to
    2^53, which a double holds exactly, is the key of the target loaded
    from it, and an address without colon gets the key [address:6567];
    this holds for both scripts. *)
Theorem address_is_key_of_loaded_target :
  forall (group : Group.t) (h : jsstring) (n : Z),
    includes COLON h = false -> 0 <= n <= 2 ^ 53 ->
    serverKey (Scan.loadAddress group (h ++ COLON :: decimal n))
      = h ++ COLON :: decimal n
    /\ serverKey (Legacy.loadAddress group (h ++ COLON :: decimal n))
       = h ++ COLON :: decimal n
    /\ serverKey (Scan.loadAddress group h) = h ++ COLON :: lit "6567"
    /\ serverKey (Legacy.loadAddress group h) = h ++ COLON :: lit "6567".
Proof.
  intros group h n Hh [Hn _]. rewrite !loadAddress_same.
  rewrite (loadAddress_colon _ _ _ Hh), (loadAddress_no_colon _ _ Hh).
  assert (D : includes COLON (decimal n) = false).
  { apply includes_false. apply decimal_no. reflexivity. }
  rewrite (split_none _ _ D). cbn [hd]. rewrite (parseInt_decimal _ Hn).
  unfold serverKey. cbn [Server.host Server.port].
  rewrite (numToString_nonneg _ Hn). auto.
Qed.

Lemma address_is_key_of_loaded_target_witness :
  serverKey (Scan.loadAddress (hd {| Group.name := []; Group.address := None |} one_group)
               (lit "121.127.37.17" ++ COLON :: decimal 6568))
  = lit "121.127.37.17" ++ COLON :: decimal 6568.
Proof.
  exact (proj1 (address_is_key_of_loaded_target
                  (hd {| Group.name := []; Group.address := None |} one_group)
                  (lit "121.127.37.17") 6568 eq_refl ltac:(lia))).
Defined.

End LoaderKeys.

Section Conservation.

Lemma totalReplies_set (R : ReplySet) (k : jsstring) (v : list Reply.t) :
  (totalReplies (set R k v)
   + match get R k with Some l => List.length l | None => 0 end
   = totalReplies R + List.length v)%nat.
Proof.
  unfold totalReplies. induction R as [|[k' l'] R IH]; simpl; [lia|].
  destruct (str_eqb k' k); simpl; lia.
Qed.

Lemma totalReplies_record (R : ReplySet) (k : jsstring) (m : Message.t) :
  totalReplies (record R k m) = S (totalReplies R).
Proof.
  unfold record. destruct (get R k) as [l|] eqn:G.
  - pose proof (totalReplies_set R k (l ++ [replyOf m])) as H.
    rewrite G, length_app in H. simpl in H. lia.
  - pose proof (totalReplies_set R k [replyOf m]) as H.
    rewrite G in H. simpl in H. lia.
Qed.

Lemma totalReplies_collect (keyOf : Message.t -> jsstring)
  (inbound : list Message.t) (R0 : ReplySet) :
  totalReplies (fold_left (fun r m => record r (keyOf m) m) inbound R0)
  = (totalReplies R0 + List.length inbound)%nat.
Proof.
  revert R0. induction inbound as [|m inbound IH]; intros R0; simpl; [lia|].
  rewrite IH, totalReplies_record. lia.
Qed.

(** X3. The handlers neither drop nor duplicate a datagram: the reply
    set of the older probe, and the reply set of the newer probe when it
    has targets and produces one, hold exactly as many replies as
    datagrams arrived. *)
Theorem replySet_holds_every_datagram_once :
  forall (servers : list Server.t) (inbound : list Message.t) (R : ReplySet),
    Scan.sendUDPRequests servers inbound = Some R -> servers <> [] ->
    totalReplies R = List.length inbound
    /\ totalReplies (Legacy.sendUDPRequests inbound) = List.length inbound.
Proof.
  intros servers inbound R H Hne. split.
  - apply sendUDPRequests_Some in H. destruct H as [[E _]|[_ ->]];
      [contradiction|].
    apply (totalReplies_collect (Scan.matchedKey (Scan.hostPortMap servers))).
  - apply (totalReplies_collect rawKey).
Qed.

Lemma replySet_holds_every_datagram_once_witness :
  totalReplies (probed [target_a; target_b] [reply_6567; reply_6567]) = 2%nat
  /\ totalReplies (Legacy.sendUDPRequests [reply_6567; reply_6567]) = 2%nat.
Proof.
  exact (replySet_holds_every_datagram_once [target_a; target_b]
           [reply_6567; reply_6567]
           (probed [target_a; target_b] [reply_6567; reply_6567])
           eq_refl ltac:(discriminate)).
Defined.

(** X4. One address whose port [socket.send] refuses (NaN, 0, negative or
    above 65535) anywhere in the server list makes the newer probe produce
    no reply set at all, whatever arrives: the send throws in the bind
    callback before the handler and the timer are installed. *)
Theorem refused_port_stops_newer_probe :
  forall (serverGroups : list Group.t) (group : Group.t)
         (addrs : list jsstring) (addr : jsstring) (inbound : list Message.t),
    In group serverGroups -> Group.address group = Some addrs ->
    In addr addrs ->
    validPort (Server.port (Scan.loadAddress group addr)) = false ->
    Scan.sendUDPRequests (Scan.loadServers serverGroups) inbound = None.
Proof.
  intros serverGroups group addrs addr inbound Ig Ea Ia V.
  assert (I : In (Scan.loadAddress group addr) (Scan.loadServers serverGroups)).
  { rewrite loadServers_same, loadAddress_same. apply loadServers_In.
    exists group, addrs, addr. auto. }
  unfold Scan.sendUDPRequests.
  destruct (Scan.loadServers serverGroups) as [|s l] eqn:E; [destruct I|].
  assert (F : forallb (fun s => validPort (Server.port s)) (s :: l) = false).
  { apply not_true_is_false. intros T. rewrite forallb_forall in T.
    rewrite (T _ I) in V. discriminate. }
  rewrite F. reflexivity.
Qed.

Lemma refused_port_stops_newer_probe_witness :
  Scan.sendUDPRequests (Scan.loadServers bad_port_group) [reply_6567] = None.
Proof.
  exact (refused_port_stops_newer_probe bad_port_group
           (hd {| Group.name := []; Group.address := None |} bad_port_group)
           [lit "a.test"; lit "b.test:port"] (lit "b.test:port") [reply_6567]
           (or_introl eq_refl) eq_refl (or_intror (or_introl eq_refl)) eq_refl).
Defined.

End Conservation.

(* ===================================================================== *)
(** * Further properties of the colour-tag rewrite and the decoder *)
(* ===================================================================== *)

Section RewriteShape.

Lemma Forall2_rewritten_refl (s : jsstring) : Forall2 rewritten s s.
Proof. induction s; constructor; [left; reflexivity | assumption]. Qed.

Lemma processColorTags_pointwise (s : jsstring) :
  Forall2 rewritten s (Scan.processColorTags s).
Proof.
  remember (List.length s) as n eqn:En. revert s En.
  induction n as [n IH] using lt_wf_ind. intros s En.
  destruct (processColorTags_cases s) as [->|[(tok & rest & Ht & ->)|(c & s' & -> & E)]].
  - constructor.
  - rewrite (processColorTags_match _ _ Ht).
    constructor; [right; left; split; reflexivity|].
    apply Forall2_app; [apply Forall2_rewritten_refl|].
    constructor; [right; right; split; reflexivity|].
    apply (IH (List.length rest)); [|reflexivity].
    subst n. simpl. rewrite length_app. simpl. lia.
  - rewrite (processColorTags_copy _ _ E).
    constructor; [left; reflexivity|].
    apply (IH (List.length s')); [subst n; simpl; lia | reflexivity].
Qed.

Lemma processColorTags_no_closing (s : jsstring) :
  includes RBRACK s = false -> Scan.processColorTags s = s.
Proof.
  induction s as [|c s IH]; intros H; [reflexivity|].
  assert (Hs : includes RBRACK s = false).
  { unfold includes in *. simpl in H. apply orb_false_iff in H. exact (proj2 H). }
  destruct (Scan.colorTagRegex (c :: s)) as [[rep n]|] eqn:E.
  - destruct (colorTag_inv _ _ _ E) as (tok & rest & _ & Es & _).
    exfalso. apply includes_false in H. apply H. rewrite Es.
    right. apply in_or_app. right. left. reflexivity.
  - rewrite (processColorTags_copy _ _ E), (IH Hs). reflexivity.
Qed.

Lemma processColorTags_no_opening (s : jsstring) :
  includes LBRACK s = false -> Scan.processColorTags s = s.
Proof.
  intros H. rewrite <- (app_nil_r s) at 1.
  rewrite processColorTags_plain; [apply app_nil_r|].
  apply Forall_forall. intros x Ix ->. apply includes_false in H. contradiction.
Qed.

(** X5. The colour-tag rewrite of the newer script works in place: the
    output has the length of the input and differs from it only where a
    bracket became the brace of the same side; a text without an opening
    bracket, or without a closing one, is returned unchanged. *)
Theorem processColorTags_only_turns_brackets_into_braces :
  forall (text : jsstring),
    Forall2 rewritten text (Scan.processColorTags text)
    /\ List.length (Scan.processColorTags text) = List.length text
    /\ (includes LBRACK text = false \/ includes RBRACK text = false ->
        Scan.processColorTags text = text).
Proof.
  intros text. split; [apply processColorTags_pointwise|].
  split; [apply processColorTags_length|].
  intros [H|H];
    [apply processColorTags_no_opening | apply processColorTags_no_closing];
    exact H.
Qed.

Lemma processColorTags_only_turns_brackets_into_braces_witness :
  Scan.processColorTags (lit "[gold") = lit "[gold".
Proof.
  exact (proj2 (proj2 (processColorTags_only_turns_brackets_into_braces
                         (lit "[gold")))
           (or_intror eq_refl)).
Defined.

End RewriteShape.

Section DecodedRanges.

Lemma bytesBetween_length (buf : Buffer) (start stop : Z) :
  0 <= start -> start <= stop -> stop <= blength buf ->
  List.length (bytesBetween buf start stop) = Z.to_nat (stop - start).
Proof.
  intros H1 H2 H3. unfold bytesBetween, blength in *.
  rewrite length_firstn, length_skipn. lia.
Qed.

(** [toString] reads the bytes from [start] to [stop], cut at the end of
    the buffer. *)
Lemma toString_clamped (buf : Buffer) (start stop : Z) :
  0 < start -> start <= blength buf ->
  toString buf start stop
  = utf8Decode (bytesBetween buf start (Z.min stop (blength buf))).
Proof.
  intros Hs Hl. unfold toString.
  replace (0 <? start) with true by (symmetry; apply Z.ltb_lt; lia).
  replace (start <=? 0) with false by (symmetry; apply Z.leb_gt; lia).
  cbn [andb]. destruct (Z.leb_spec (blength buf) start) as [H|H].
  - unfold bytesBetween. rewrite skipn_all2 by (unfold blength in *; lia).
    rewrite firstn_nil. reflexivity.
  - destruct (Z.ltb_spec (blength buf) stop) as [H'|H'].
    + rewrite Z.min_r by lia.
      destruct (Z.leb_spec (blength buf) start); [lia | reflexivity].
    + rewrite Z.min_l by lia.
      destruct (Z.leb_spec stop start) as [H''|H'']; [|reflexivity].
      unfold bytesBetween. replace (Z.to_nat (stop - start)) with 0%nat by lia.
      reflexivity.
Qed.

Lemma signed_byte (b : byte) :
  (if Z.testbit (byteval b) 7 then byteval b - 256 else byteval b)
  = (if byteval b <? 128 then byteval b else byteval b - 256).
Proof. destruct b; reflexivity. Qed.

Lemma readInt8_signed (buf : Buffer) (offset v : Z) :
  readInt8 buf offset = Ok v ->
  exists u, readUInt8 buf offset = Ok u /\
            v = (if u <? 128 then u else u - 256) /\ -128 <= v <= 127.
Proof.
  intros H. destruct (readInt8_Ok _ _ _ H) as (u & Hu & ->).
  exists u. split; [exact Hu|].
  pose proof (readUInt8_Ok _ _ _ Hu) as [_ R].
  unfold readUInt8 in Hu.
  destruct ((0 <=? offset) && (offset <? blength buf)); [|discriminate].
  destruct (nth_error buf (Z.to_nat offset)) as [b|]; [|discriminate].
  inversion Hu; subst u. rewrite signed_byte.
  split; [reflexivity|]. destruct (Z.ltb_spec (byteval b) 128); lia.
Qed.

(** X6. For an accepted payload the map name is decoded from exactly the
    [L2] bytes that follow the map length byte at offset [L1 + 1]: the
    range lies inside the payload, so the map is never cut short. *)
Theorem parseServerInfo_map_bytes :
  forall (hexString : jsstring) (info : Scan.Info.t) (L1 L2 : Z),
    Scan.parseServerInfo hexString = Ok info ->
    readUInt8 (fromHex hexString) 0 = Ok L1 ->
    readUInt8 (fromHex hexString) (L1 + 1) = Ok L2 ->
    let raw := bytesBetween (fromHex hexString) (L1 + 2) (L1 + 2 + L2) in
    List.length raw = Z.to_nat L2
    /\ Scan.Info.map info
       = Scan.processColorTags
           (replaceFirst Scan.EMPTY_TAG [SPACE] (utf8Decode raw)).
Proof.
  intros hexString info L1 L2 H E1 E2 raw.
  apply parseServerInfo_Ok in H.
  destruct H as (L1' & L2' & Lo & Ld & pl & E1' & E2' & E3 & _ & _ & ->).
  rewrite E1 in E1'. inversion E1'; subst L1'.
  rewrite E2 in E2'. inversion E2'; subst L2'.
  apply readUInt8_Ok in E1, E2, E3. split.
  - unfold raw. rewrite bytesBetween_length by lia. f_equal. lia.
  - unfold decoded. cbn [Scan.Info.map]. rewrite toString_within by lia.
    reflexivity.
Qed.

Lemma parseServerInfo_map_bytes_witness :
  Scan.Info.map (decoded payload_A 3 0 0 0 0)
  = Scan.processColorTags
      (replaceFirst Scan.EMPTY_TAG [SPACE]
         (utf8Decode (bytesBetween (fromHex (toHex payload_A)) (3 + 2) (3 + 2 + 0)))).
Proof.
  exact (proj2 (parseServerInfo_map_bytes (toHex payload_A)
                  (decoded payload_A 3 0 0 0 0) 3 0 eq_refl eq_refl eq_refl)).
Defined.

(** X7. For an accepted payload the description length [Ld] is the byte
    at offset [L1 + L2 + Lo + 20] read as a signed number, between -128
    and 127; the description is decoded from the bytes that start at
    offset [L1 + L2 + Lo + 21] and end [Ld] bytes later or at the end of
    the payload, whichever comes first; a length byte of 0 or of 128 and
    more gives the empty description. *)
Theorem parseServerInfo_description_bytes :
  forall (hexString : jsstring) (info : Scan.Info.t) (L1 L2 Lo Ld : Z),
    Scan.parseServerInfo hexString = Ok info ->
    readUInt8 (fromHex hexString) 0 = Ok L1 ->
    readUInt8 (fromHex hexString) (L1 + 1) = Ok L2 ->
    readUInt8 (fromHex hexString) (L1 + L2 + 14) = Ok Lo ->
    readInt8 (fromHex hexString) (L1 + L2 + Lo + 20) = Ok Ld ->
    let buf := fromHex hexString in
    let start := L1 + L2 + Lo + 21 in
    -128 <= Ld <= 127
    /\ (exists u, readUInt8 buf (L1 + L2 + Lo + 20) = Ok u
                  /\ Ld = (if u <? 128 then u else u - 256))
    /\ Scan.Info.description info
       = Scan.processColorTags
           (replaceFirst Scan.EMPTY_TAG [SPACE]
              (utf8Decode
                 (bytesBetween buf start (Z.min (start + Ld) (blength buf)))))
    /\ (Ld <= 0 -> Scan.Info.description info = []).
Proof.
  intros hexString info L1 L2 Lo Ld H E1 E2 E3 E4 buf start.
  apply parseServerInfo_Ok in H.
  destruct H as (L1' & L2' & Lo' & Ld' & pl & E1' & E2' & E3' & E4' & _ & ->).
  rewrite E1 in E1'. inversion E1'; subst L1'.
  rewrite E2 in E2'. inversion E2'; subst L2'.
  rewrite E3 in E3'. inversion E3'; subst Lo'.
  rewrite E4 in E4'. inversion E4'; subst Ld'.
  destruct (readInt8_signed _ _ _ E4) as (u & Hu & Ev & Rv).
  pose proof (readUInt8_Ok _ _ _ Hu) as [Ru _].
  apply readUInt8_Ok in E1, E2, E3.
  assert (D : Scan.Info.description (decoded buf L1 L2 Lo Ld pl)
              = Scan.processColorTags
                  (replaceFirst Scan.EMPTY_TAG [SPACE]
                     (utf8Decode
                        (bytesBetween buf start
                           (Z.min (start + Ld) (blength buf)))))).
  { unfold decoded. cbn [Scan.Info.description].
    rewrite toString_clamped by (unfold start, buf; lia). reflexivity. }
  split; [exact Rv|]. split; [exists u; auto|]. split; [exact D|].
  intros Hn. fold buf. rewrite D. unfold bytesBetween.
  replace (Z.to_nat (Z.min (start + Ld) (blength buf) - start)) with 0%nat by lia.
  reflexivity.
Qed.

Lemma parseServerInfo_description_bytes_witness :
  Scan.Info.description (decoded payload_long_description 0 0 0 5 0)
  = Scan.processColorTags
      (replaceFirst Scan.EMPTY_TAG [SPACE]
         (utf8Decode
            (bytesBetween (fromHex (toHex payload_long_description))
               (0 + 0 + 0 + 21)
               (Z.min (0 + 0 + 0 + 21 + 5)
                  (blength (fromHex (toHex payload_long_description))))))).
Proof.
  pose proof (parseServerInfo_description_bytes (toHex payload_long_description)
                (decoded payload_long_description 0 0 0 5 0) 0 0 0 5
                eq_refl eq_refl eq_refl eq_refl eq_refl) as (_ & _ & H & _).
  exact H.
Defined.

End DecodedRanges.

Section DecodeOutcome.

(** C2. The binary decoder either returns a whole record or throws the
    [RangeError] of a [Buffer] read: ERR_OUT_OF_RANGE, which names the
    offending offset and the greatest offset allowed (the length of the
    buffer minus one), or, for an empty payload, ERR_BUFFER_OUT_OF_BOUNDS,
    which names neither.  It succeeds exactly when the five single-byte
    reads (offsets 0, [L1 + 1], [L1 + L2 + 14], [L1 + L2 + Lo + 20] and
    [L1 + L2 + 5]) lie in the buffer, so every payload shorter than 21
    bytes, and in particular shorter than 2 bytes, fails.  In an accepted
    payload the name and the map lie inside the buffer, and the
    description starts inside it or at its end; only the declared length
    of the description may run past the end, and the description is then
    cut at the end of the buffer.  The text decoder of the older script
    either returns a text or throws its own [Error], and it throws exactly
    for a text that is not a non-empty hexadecimal string, that is, for an
    empty datagram. *)
Theorem decode_fails_explicitly_or_returns_whole :
  forall (hexString : jsstring) (payload : Buffer),
    let buf := fromHex hexString in
    match Scan.parseServerInfo hexString with
    | Ok info =>
        21 <= blength buf /\
        exists L1 L2 Lo Ld pl,
          readUInt8 buf 0 = Ok L1 /\ readUInt8 buf (L1 + 1) = Ok L2 /\
          readUInt8 buf (L1 + L2 + 14) = Ok Lo /\
          readInt8 buf (L1 + L2 + Lo + 20) = Ok Ld /\
          readUInt8 buf (L1 + L2 + 5) = Ok pl /\
          info = decoded buf L1 L2 Lo Ld pl /\
          L1 - 1 < blength buf /\
          L1 + 2 + L2 <= blength buf /\
          L1 + L2 + Lo + 21 <= blength buf /\
          Scan.Info.description info
          = Scan.processColorTags
              (replaceFirst Scan.EMPTY_TAG [SPACE]
                 (utf8Decode
                    (bytesBetween buf (L1 + L2 + Lo + 21)
                       (Z.min (L1 + L2 + Lo + 21 + Ld) (blength buf)))))
    | Throw e =>
        exists offset,
          e = boundsError offset (blength buf - 1) /\
          0 <= offset /\ blength buf <= offset /\
          (blength buf = 0 /\ e = RangeError ERR_BUFFER_OUT_OF_BOUNDS
           \/ 0 < blength buf
              /\ e = RangeError (ERR_OUT_OF_RANGE offset (blength buf - 1)))
    end
    /\ (forall L1 L2 Lo Ld pl,
          readUInt8 buf 0 = Ok L1 -> readUInt8 buf (L1 + 1) = Ok L2 ->
          readUInt8 buf (L1 + L2 + 14) = Ok Lo ->
          readInt8 buf (L1 + L2 + Lo + 20) = Ok Ld ->
          readUInt8 buf (L1 + L2 + 5) = Ok pl ->
          Scan.parseServerInfo hexString = Ok (decoded buf L1 L2 Lo Ld pl))
    /\ (blength buf < 2 ->
        exists offset,
          Scan.parseServerInfo hexString
          = Throw (boundsError offset (blength buf - 1)))
    /\ (blength buf = 0 ->
        Scan.parseServerInfo hexString
        = Throw (RangeError ERR_BUFFER_OUT_OF_BOUNDS))
    /\ match Legacy.parseHexPayload hexString with
       | Ok _ => Legacy.isHexString hexString = true
       | Throw e => Legacy.isHexString hexString = false /\ e = HEX_ERROR
       end
    /\ isOk (Legacy.parseHexPayload (toHex payload))
       = match payload with [] => false | _ => true end.
Proof.
  intros hexString payload buf.
  assert (A : match Scan.parseServerInfo hexString with
              | Ok info =>
                  21 <= blength buf /\
                  exists L1 L2 Lo Ld pl,
                    readUInt8 buf 0 = Ok L1 /\ readUInt8 buf (L1 + 1) = Ok L2 /\
                    readUInt8 buf (L1 + L2 + 14) = Ok Lo /\
                    readInt8 buf (L1 + L2 + Lo + 20) = Ok Ld /\
                    readUInt8 buf (L1 + L2 + 5) = Ok pl /\
                    info = decoded buf L1 L2 Lo Ld pl /\
                    L1 - 1 < blength buf /\
                    L1 + 2 + L2 <= blength buf /\
                    L1 + L2 + Lo + 21 <= blength buf /\
                    Scan.Info.description info
                    = Scan.processColorTags
                        (replaceFirst Scan.EMPTY_TAG [SPACE]
                           (utf8Decode
                              (bytesBetween buf (L1 + L2 + Lo + 21)
                                 (Z.min (L1 + L2 + Lo + 21 + Ld)
                                    (blength buf)))))
              | Throw e =>
                  exists offset,
                    e = boundsError offset (blength buf - 1) /\
                    0 <= offset /\ blength buf <= offset /\
                    (blength buf = 0 /\ e = RangeError ERR_BUFFER_OUT_OF_BOUNDS
                     \/ 0 < blength buf
                        /\ e = RangeError
                                 (ERR_OUT_OF_RANGE offset (blength buf - 1)))
              end).
  { subst buf. set (buf := fromHex hexString).
    destruct (Scan.parseServerInfo hexString) as [info|e] eqn:E.
    - split; [exact (parseServerInfo_min_length _ _ E)|].
      apply parseServerInfo_Ok in E. fold buf in E.
      destruct E as (L1 & L2 & Lo & Ld & pl & E1 & E2 & E3 & E4 & E5 & ->).
      exists L1, L2, Lo, Ld, pl.
      pose proof (readUInt8_Ok _ _ _ E1) as [_ B1].
      pose proof (readUInt8_Ok _ _ _ E2) as [_ B2].
      pose proof (readUInt8_Ok _ _ _ E3) as [_ B3].
      destruct (readInt8_Ok _ _ _ E4) as (u & E4' & _).
      pose proof (readUInt8_Ok _ _ _ E4') as [R4 _].
      repeat (split; [first [assumption | reflexivity | lia]|]).
      unfold decoded. cbn [Scan.Info.description].
      rewrite toString_clamped by lia. reflexivity.
    - destruct (parseServerInfo_Throw _ _ E) as (offset & -> & H0 & H1).
      exists offset. fold buf in H1 |- *.
      split; [reflexivity|]. split; [exact H0|]. split; [exact H1|].
      unfold boundsError. destruct (Z.ltb_spec (blength buf - 1) 0) as [L|L].
      + left. unfold blength in *. split; [lia | reflexivity].
      + right. split; [lia | reflexivity]. }
  split; [exact A|]. split.
  { intros L1 L2 Lo Ld pl E1 E2 E3 E4 E5. apply parseServerInfo_Ok.
    exists L1, L2, Lo, Ld, pl. auto 10. }
  split.
  { intros Hlen. destruct (Scan.parseServerInfo hexString) as [info|e].
    - destruct A as [A _]. lia.
    - destruct A as (offset & -> & _). exists offset. reflexivity. }
  split.
  { intros Hlen. destruct (Scan.parseServerInfo hexString) as [info|e].
    - destruct A as [A _]. lia.
    - destruct A as (offset & _ & _ & _ & [[_ ->]|[Hpos _]]); [reflexivity | lia]. }
  split; [apply parseHexPayload_cases|].
  pose proof (parseHexPayload_cases (toHex payload)) as C.
  rewrite isHexString_toHex in C.
  destruct (Legacy.parseHexPayload (toHex payload)) as [t|e]; simpl.
  - destruct payload; [discriminate C | reflexivity].
  - destruct C as [C _]. destruct payload; [reflexivity | discriminate C].
Qed.

Lemma decode_fails_explicitly_or_returns_whole_witness :
  (exists offset,
      Scan.parseServerInfo (lit "41")
      = Throw (boundsError offset (blength (fromHex (lit "41")) - 1)))
  /\ Scan.parseServerInfo [] = Throw (RangeError ERR_BUFFER_OUT_OF_BOUNDS).
Proof.
  destruct (decode_fails_explicitly_or_returns_whole (lit "41") [x41])
    as (_ & _ & H & _).
  destruct (decode_fails_explicitly_or_returns_whole [] [x41])
    as (_ & _ & _ & H0 & _).
  split; [apply H; reflexivity | apply H0; reflexivity].
Defined.

(** A declared length that runs past the buffer end does not make the
    decoder fail, and a one-byte payload does not make the text decoder
    fail. *)
Lemma decode_accepts_length_past_end :
  blength payload_long_description = 21 /\
  readInt8 payload_long_description 20 = Ok 5 /\
  blength payload_long_description < 21 + 5 /\
  Scan.parseServerInfo (toHex payload_long_description)
  = Ok {| Scan.Info.name := []; Scan.Info.description := [];
          Scan.Info.players := 0; Scan.Info.map := [] |} /\
  Legacy.parseHexPayload (toHex [x41]) = Ok (lit "A").
Proof. repeat split; reflexivity. Qed.

End DecodeOutcome.

(* ===================================================================== *)
(** * Further properties of the aggregation *)
(* ===================================================================== *)

Section StoredReply.

Lemma toHex_length (buf : Buffer) :
  List.length (toHex buf) = (2 * List.length buf)%nat.
Proof.
  induction buf as [|b buf IH]; [reflexivity|].
  change (toHex (b :: buf))
    with ([hexdigit (byteval b / 16); hexdigit (byteval b mod 16)] ++ toHex buf).
  rewrite length_app, IH. simpl. lia.
Qed.

Lemma tryEntry_Ok (pingOf : jsstring -> jsstring) (address : jsstring)
  (replies : list Reply.t) (e : Scan.Entry.t) :
  Scan.tryEntry pingOf address replies = Ok e ->
  exists r info,
    Scan.latest replies = Some r /\
    Scan.parseServerInfo (Reply.response r) = Ok info /\
    e = {| Scan.Entry.ip :=
             (if showsPort (second (split COLON address))
              then hd [] (split COLON address)
                   ++ COLON :: match second (split COLON address) with
                               | Some p => p
                               | None => []
                               end
              else hd [] (split COLON address));
           Scan.Entry.name := Scan.Info.name info;
           Scan.Entry.players := Scan.Players (Scan.Info.players info);
           Scan.Entry.map := Scan.Info.map info;
           Scan.Entry.description := Scan.Info.description info;
           Scan.Entry.ping := pingOf (hd [] (split COLON address));
           Scan.Entry.updatedAt := DateOf (Reply.timestamp r);
           Scan.Entry.sentPackets := Z.of_nat (List.length replies);
           Scan.Entry.receivedMeta :=
             (Z.of_nat (List.length (Reply.response r)) # 2)%Q |}.
Proof.
  unfold Scan.tryEntry, bind.
  destruct (Scan.latest replies) as [r|] eqn:L; [|discriminate].
  destruct (Scan.parseServerInfo (Reply.response r)) as [info|] eqn:P;
    [|discriminate].
  intros H; inversion H. exists r, info.
  split; [reflexivity|]. split; [exact P | reflexivity].
Qed.

(** X8. What the handler stores for a datagram decodes back to the
    datagram: the hexadecimal text has two characters per byte and
    [Buffer.from(text, 'hex')] gives the bytes again; so an entry of the
    newer report that is built from that reply carries the size of the
    datagram in bytes, the arrival time of the datagram, and a player
    count between 0 and 255. *)
Theorem stored_reply_decodes_to_datagram :
  forall (pingOf : jsstring -> jsstring) (address : jsstring)
         (replies : list Reply.t) (m : Message.t) (e : Scan.Entry.t),
    Scan.latest replies = Some (replyOf m) ->
    Scan.tryEntry pingOf address replies = Ok e ->
    fromHex (Reply.response (replyOf m)) = Message.msg m
    /\ List.length (Reply.response (replyOf m))
       = (2 * List.length (Message.msg m))%nat
    /\ (Scan.Entry.receivedMeta e == inject_Z (blength (Message.msg m)))%Q
    /\ Scan.Entry.updatedAt e = DateOf (Message.now m)
    /\ (exists n, Scan.Entry.players e = Scan.Players n /\ 0 <= n <= 255).
Proof.
  intros pingOf address replies m e L T.
  apply tryEntry_Ok in T. destruct T as (r & info & L' & P & ->).
  rewrite L in L'. inversion L'; subst r.
  split; [apply fromHex_toHex|]. split; [apply toHex_length|].
  cbn [Scan.Entry.receivedMeta Scan.Entry.updatedAt Scan.Entry.players].
  split.
  - cbn [replyOf Reply.response]. rewrite toHex_length. unfold blength.
    unfold Qeq, inject_Z. cbn [Qnum Qden]. lia.
  - split; [reflexivity|]. exists (Scan.Info.players info). split; [reflexivity|].
    apply parseServerInfo_Ok in P.
    destruct P as (L1 & L2 & Lo & Ld & pl & _ & _ & _ & _ & E5 & ->).
    apply readUInt8_Ok in E5. exact (proj2 E5).
Qed.

Lemma stored_reply_decodes_to_datagram_witness :
  fromHex (Reply.response (replyOf datagram_A)) = Message.msg datagram_A
  /\ List.length (Reply.response (replyOf datagram_A)) = 48%nat.
Proof.
  pose proof (stored_reply_decodes_to_datagram noPing (rawKey datagram_A)
                [replyOf datagram_A] datagram_A
                (Scan.entryOf noPing (rawKey datagram_A, [replyOf datagram_A]))
                eq_refl eq_refl) as (H1 & H2 & _).
  exact (conj H1 H2).
Defined.

Lemma showsPort_numToString (q : jsnum) :
  showsPort (Some (numToString q)) = negb (num_eqb q (Num defaultPort)).
Proof.
  unfold showsPort. pose proof (numToString_nonempty q) as Hne.
  pose proof (parseInt_numToString q) as P.
  destruct (numToString q) as [|c r]; [contradiction|].
  rewrite P. reflexivity.
Qed.

(** X9. For a key [host:port] with a host without colon, the address
    that an entry is shown under is the host alone when the port is the
    default port 6567, and [host:port] otherwise: this is the [ip] of a
    decoded entry of the newer script, which pings the host, and the key
    of a decoded entry of the older script. *)
Theorem default_port_is_hidden :
  forall (pingOf : jsstring -> jsstring) (host : jsstring) (port : jsnum)
         (replies : list Reply.t) (e : Scan.Entry.t),
    includes COLON host = false ->
    Scan.tryEntry pingOf (host ++ COLON :: numToString port) replies = Ok e ->
    Scan.Entry.ip e
      = (if num_eqb port (Num 6567) then host
         else host ++ COLON :: numToString port)
    /\ Scan.Entry.ping e = pingOf host
    /\ Legacy.displayKey (host ++ COLON :: numToString port)
       = (if num_eqb port (Num 6567) then host
          else host ++ COLON :: numToString port).
Proof.
  intros pingOf host port replies e Hh T.
  apply tryEntry_Ok in T. destruct T as (r & info & _ & _ & ->).
  cbn [Scan.Entry.ip Scan.Entry.ping].
  rewrite (split_app _ _ _ Hh), (split_none _ _ (numToString_no_colon port)).
  cbn [hd second nth_error]. rewrite showsPort_numToString.
  split; [|split; [reflexivity | exact (displayKey_keyForm host port Hh)]].
  change (Num 6567) with (Num defaultPort).
  destruct (num_eqb port (Num defaultPort)); reflexivity.
Qed.

Lemma default_port_is_hidden_witness :
  Scan.Entry.ip (Scan.entryOf noPing (rawKey datagram_A, [replyOf datagram_A]))
  = lit "1.2.3.4".
Proof.
  exact (proj1 (default_port_is_hidden noPing (lit "1.2.3.4") (Num 6567)
                  [replyOf datagram_A]
                  (Scan.entryOf noPing (rawKey datagram_A, [replyOf datagram_A]))
                  eq_refl eq_refl)).
Defined.

End StoredReply.

Section ReportShape.

Lemma NoDup_keys_store (l : ReplySet) (results : object Legacy.Entry.t) :
  NoDup (keys results) -> NoDup (keys (fold_left store l results)).
Proof.
  revert results. induction l as [|kv l IH]; intros results N; [exact N|].
  cbn [fold_left]. apply IH. unfold store.
  destruct (legacyOutcome (fst kv) (snd kv)) as [[k e]|];
    [apply NoDup_keys_set|]; exact N.
Qed.

Lemma NoDup_map_on {A B : Type} (f : A -> B) (l : list A) :
  NoDup l -> (forall x y, In x l -> In y l -> f x = f y -> x = y) ->
  NoDup (List.map f l).
Proof.
  induction 1 as [|x l Hx N IH]; intros Inj; [constructor|].
  cbn [List.map]. constructor.
  - intros I. apply in_map_iff in I. destruct I as (y & E & Iy).
    assert (y = x) by (apply Inj; [right; exact Iy | left; reflexivity | exact E]).
    subst y. contradiction.
  - apply IH. intros a b Ia Ib. apply Inj; right; assumption.
Qed.

Lemma NoDup_keys_entries {V : Type} (o : object V) : NoDup (keys o) -> NoDup o.
Proof.
  induction o as [|[k v] o IH]; intros N; [constructor|].
  inversion N as [|? ? Hk N']; subst. constructor; [|apply IH; exact N'].
  intros I. apply Hk. change k with (fst (k, v)). apply in_map. exact I.
Qed.

(** X10. On the reply set of its probe the older aggregation never fails
    and never merges two keys: the report has exactly one entry for each
    key of the reply set, under distinct keys. *)
Theorem legacy_report_one_entry_per_key :
  forall (inbound : list Message.t),
    exists report,
      Legacy.processEnhancedData (Legacy.sendUDPRequests inbound) = Ok report
      /\ List.length report = List.length (Legacy.sendUDPRequests inbound)
      /\ NoDup (keys report).
Proof.
  intros inbound. set (R := Legacy.sendUDPRequests inbound).
  pose proof (probeShaped_sendUDPRequests inbound) as Sh. fold R in Sh.
  destruct Sh as [N F]. exists (fold_left store R []).
  assert (Hrep : Legacy.processEnhancedData R = Ok (fold_left store R [])).
  { unfold Legacy.processEnhancedData. rewrite (groupedResults_map _ N).
    apply steps_store. eapply Forall_impl; [|exact F]. cbv beta. tauto. }
  assert (Nrep : NoDup (keys (fold_left store R [])))
    by (apply NoDup_keys_store; constructor).
  split; [exact Hrep|]. split; [|exact Nrep].
  set (okey := fun kv : jsstring * list Reply.t =>
                 match legacyOutcome (fst kv) (snd kv) with
                 | Some (k, _) => k
                 | None => []
                 end).
  assert (FK : Forall (fun kv => keyForm (fst kv)) R)
    by (eapply Forall_impl; [|exact F]; cbv beta; tauto).
  assert (Nok : NoDup (List.map okey R)).
  { apply NoDup_map_on; [apply NoDup_keys_entries; exact N|].
    intros [K1 rs1] [K2 rs2] I1 I2 E. unfold okey in E. cbn [fst snd] in E.
    rewrite Forall_forall in F, FK.
    destruct (legacyOutcome_nonempty K1 rs1 (proj2 (F _ I1))) as (k1 & e1 & O1).
    destruct (legacyOutcome_nonempty K2 rs2 (proj2 (F _ I2))) as (k2 & e2 & O2).
    rewrite O1, O2 in E. subst k2.
    assert (K1 = K2).
    { apply (outKey_inj K1 K2 k1).
      - exact (FK _ I1).
      - exact (FK _ I2).
      - exact (legacyOutcome_key _ _ _ _ O1).
      - exact (legacyOutcome_key _ _ _ _ O2). }
    subst K2. f_equal.
    pose proof (get_In R K1 rs1 N I1) as G1.
    pose proof (get_In R K1 rs2 N I2) as G2. congruence. }
  assert (L1 : (List.length (keys (fold_left store R [])) <= List.length (List.map okey R))%nat).
  { apply NoDup_incl_length; [exact Nrep|]. intros k Ik.
    apply keys_store in Ik. destruct Ik as [[]|(K & rs & e & I & O)].
    apply in_map_iff. exists (K, rs). split; [|exact I].
    unfold okey. cbn [fst snd]. rewrite O. reflexivity. }
  assert (L2 : (List.length (List.map okey R) <= List.length (keys (fold_left store R [])))%nat).
  { apply NoDup_incl_length; [exact Nok|]. intros k Ik.
    apply in_map_iff in Ik. destruct Ik as ([K rs] & E & I).
    unfold okey in E. cbn [fst snd] in E. rewrite Forall_forall in F.
    destruct (legacyOutcome_nonempty K rs (proj2 (F _ I))) as (k' & e' & O).
    rewrite O in E. subst k'.
    apply get_In_keys. rewrite (get_store R [] K rs k e' N FK I O). discriminate. }
  unfold keys in L1, L2. rewrite !length_map in L1, L2. lia.
Qed.

Lemma step_empty (results : object Legacy.Entry.t) (K : jsstring) :
  Legacy.step results (K, Legacy.group []) = Throw TypeError.
Proof. reflexivity. Qed.

Lemma step_nonempty (results : object Legacy.Entry.t) (K : jsstring)
  (rs : list Reply.t) :
  rs <> [] -> exists results', Legacy.step results (K, Legacy.group rs) = Ok results'.
Proof.
  intros Hne. destruct (final_last_of_greatest rs Hne) as (r & _ & _ & Fin & _).
  unfold Legacy.step. rewrite Fin.
  destruct (Legacy.tryEntry K r _) as [[k e]|err]; eauto.
Qed.

Lemma steps_throw (l : ReplySet) (results : object Legacy.Entry.t) :
  Exists (fun kv => snd kv = []) l ->
  Legacy.steps results (List.map (fun kv => (fst kv, Legacy.group (snd kv))) l)
  = Throw TypeError.
Proof.
  intros E. revert results. induction l as [|[K rs] l IH]; intros results.
  - inversion E.
  - cbn [List.map Legacy.steps fst snd]. destruct rs as [|r rs].
    + rewrite step_empty. reflexivity.
    + destruct (step_nonempty results K (r :: rs)) as [res' ->]; [discriminate|].
      cbn [bind]. apply IH. inversion E as [? ? H|? ? H]; subst; [discriminate H|].
      exact H.
Qed.

(** X11. A key with an empty reply list: the newer aggregation gives it
    the failure entry like any reply that does not decode, and the other
    keys keep their entries; the older aggregation throws a [TypeError]
    for the whole reply set, since its [catch] block reads the missing
    reply again. *)
Theorem empty_reply_list_fails_older_report_only :
  forall (pingOf : jsstring -> jsstring) (inputData : ReplySet)
         (key : jsstring),
    NoDup (keys inputData) -> In (key, []) inputData ->
    In (Scan.failed key) (Scan.processEnhancedData pingOf inputData)
    /\ List.length (Scan.processEnhancedData pingOf inputData)
       = List.length inputData
    /\ Legacy.processEnhancedData inputData = Throw TypeError.
Proof.
  intros pingOf inputData key N I. split.
  - change (Scan.failed key) with (Scan.entryOf pingOf (key, [])).
    apply entryOf_In. exact I.
  - split; [apply length_map|].
    unfold Legacy.processEnhancedData. rewrite (groupedResults_map _ N).
    apply steps_throw. apply Exists_exists. exists (key, []). auto.
Qed.

Lemma empty_reply_list_fails_older_report_only_witness :
  Legacy.processEnhancedData
    [(lit "1.2.3.4:6567", [replyOf datagram_A]); (lit "5.6.7.8:6567", [])]
  = Throw TypeError.
Proof.
  refine (proj2 (proj2 (empty_reply_list_fails_older_report_only noPing
                          [(lit "1.2.3.4:6567", [replyOf datagram_A]);
                           (lit "5.6.7.8:6567", [])]
                          (lit "5.6.7.8:6567") _ (or_intror (or_introl eq_refl))))).
  repeat constructor; simpl; intuition discriminate.
Defined.

End ReportShape.

(* ===================================================================== *)
(** * The text decoder of the older script *)
(* ===================================================================== *)

Section CleanedText.

Lemma collapseSpaces_chars (inRun : bool) (s : jsstring) :
  Forall (fun c => Legacy.isControl c = false) s ->
  Forall (fun c => Legacy.isControl c = false /\ (isSpace c = true -> c = SPACE))
    (Legacy.collapseSpaces inRun s).
Proof.
  intros H. revert inRun. induction H as [|c s Hc _ IH]; intros inRun;
    cbn [Legacy.collapseSpaces]; [constructor|].
  destruct (isSpace c) eqn:E.
  - destruct inRun; [apply IH|]. constructor; [|apply IH].
    split; [reflexivity | intros _; reflexivity].
  - constructor; [|apply IH]. split; [exact Hc | congruence].
Qed.

Lemma collapseSpaces_single (inRun : bool) (s : jsstring) :
  singleSpaced (Legacy.collapseSpaces inRun s) = true
  /\ (inRun = true ->
      match Legacy.collapseSpaces inRun s with
      | c :: _ => isSpace c = false
      | [] => True
      end).
Proof.
  revert inRun. induction s as [|c s IH]; intros inRun;
    cbn [Legacy.collapseSpaces]; [split; [reflexivity | intros _; exact I]|].
  destruct (isSpace c) eqn:E.
  - destruct inRun; [apply IH|]. split; [|discriminate].
    destruct (IH true) as [S1 S2]. specialize (S2 eq_refl).
    cbn [singleSpaced].
    destruct (Legacy.collapseSpaces true s) as [|d r]; [reflexivity|].
    rewrite S2, andb_false_r. exact S1.
  - destruct (IH false) as [S1 _]. split; [|intros _; exact E].
    cbn [singleSpaced].
    destruct (Legacy.collapseSpaces false s) as [|d r]; [reflexivity|].
    rewrite E. exact S1.
Qed.

Lemma singleSpaced_tail (a : Z) (s : jsstring) :
  singleSpaced (a :: s) = true -> singleSpaced s = true.
Proof.
  cbn [singleSpaced]. destruct s as [|b s]; [reflexivity|].
  intros H. apply andb_true_iff in H. exact (proj2 H).
Qed.

Lemma singleSpaced_app (x y : jsstring) :
  singleSpaced (x ++ y) = true -> singleSpaced x = true /\ singleSpaced y = true.
Proof.
  induction x as [|a x IH]; [intros H; split; [reflexivity | exact H]|].
  intros H. destruct (IH (singleSpaced_tail _ _ H)) as [Hx Hy].
  split; [|exact Hy]. destruct x as [|b x]; [reflexivity|].
  cbn [app singleSpaced] in H. cbn [singleSpaced].
  apply andb_true_iff in H. destruct H as [H _]. rewrite H. exact Hx.
Qed.

(** What [trim] returns is a piece of its argument. *)
Lemma trim_factor (s : jsstring) :
  exists pre post, s = pre ++ trim s ++ post.
Proof.
  exists (takeWhile isSpace s),
         (rev (takeWhile isSpace (rev (dropWhile isSpace s)))).
  unfold trim, trimEnd, trimStart. rewrite <- rev_app_distr.
  rewrite takeWhile_dropWhile, rev_involutive, takeWhile_dropWhile.
  reflexivity.
Qed.

Lemma dropWhile_fix (p : Z -> bool) (s : jsstring) :
  match s with c :: _ => p c = false | [] => True end -> dropWhile p s = s.
Proof.
  destruct s as [|c s]; [reflexivity|]. cbn [dropWhile]. intros ->. reflexivity.
Qed.

Lemma dropWhile_start (p : Z -> bool) (s : jsstring) :
  match dropWhile p s with c :: _ => p c = false | [] => True end.
Proof.
  destruct (dropWhile p s) as [|c r] eqn:E; [exact I|].
  exact (dropWhile_head _ _ _ _ E).
Qed.

Lemma trimEnd_prefix (d : jsstring) :
  d = trimEnd d ++ rev (takeWhile isSpace (rev d)).
Proof.
  unfold trimEnd. rewrite <- rev_app_distr, takeWhile_dropWhile, rev_involutive.
  reflexivity.
Qed.

Lemma trim_start (s : jsstring) :
  match trim s with c :: _ => isSpace c = false | [] => True end.
Proof.
  unfold trim. pose proof (dropWhile_start isSpace s) as H.
  fold (trimStart s) in H. revert H.
  generalize (trimStart s) as d. intros d H.
  pose proof (trimEnd_prefix d) as E.
  destruct (trimEnd d) as [|c r]; [exact I|].
  rewrite E in H. exact H.
Qed.

Lemma trim_idempotent (s : jsstring) : trim (trim s) = trim s.
Proof.
  change (trim (trim s)) with (trimEnd (dropWhile isSpace (trim s))).
  rewrite (dropWhile_fix isSpace (trim s) (trim_start s)).
  unfold trim, trimEnd. rewrite rev_involutive.
  rewrite (dropWhile_fix isSpace (dropWhile isSpace (rev (trimStart s)))
             (dropWhile_start isSpace _)).
  reflexivity.
Qed.

Lemma filter_all {A : Type} (f : A -> bool) (l : list A) :
  Forall (fun x => f x = true) l -> filter f l = l.
Proof.
  induction 1 as [|x l Hx _ IH]; [reflexivity|].
  cbn [filter]. rewrite Hx, IH. reflexivity.
Qed.

Lemma collapseSpaces_fix (inRun : bool) (s : jsstring) :
  Forall (fun c => isSpace c = true -> c = SPACE) s ->
  singleSpaced s = true ->
  (inRun = true -> match s with c :: _ => isSpace c = false | [] => True end) ->
  Legacy.collapseSpaces inRun s = s.
Proof.
  intros F. revert inRun. induction F as [|c s Hc _ IH]; intros inRun S B;
    [reflexivity|].
  cbn [Legacy.collapseSpaces]. destruct (isSpace c) eqn:E.
  - destruct inRun; [specialize (B eq_refl); congruence|].
    rewrite (Hc eq_refl). f_equal.
    apply IH; [exact (singleSpaced_tail _ _ S)|]. intros _.
    cbn [singleSpaced] in S. destruct s as [|d s]; [exact I|].
    apply andb_true_iff in S. destruct S as [S _].
    rewrite E in S. cbn [andb negb] in S.
    destruct (isSpace d); [discriminate S | reflexivity].
  - f_equal. apply IH; [exact (singleSpaced_tail _ _ S) | discriminate].
Qed.

Lemma cleaned_normal (u : jsstring) :
  Forall (fun c => Legacy.isControl c = false /\ (isSpace c = true -> c = SPACE))
    (cleaned u)
  /\ singleSpaced (cleaned u) = true
  /\ trim (cleaned u) = cleaned u.
Proof.
  unfold cleaned.
  set (c := Legacy.collapseSpaces false
              (filter (fun c => negb (Legacy.isControl c)) u)).
  assert (Fc : Forall (fun c => Legacy.isControl c = false
                                /\ (isSpace c = true -> c = SPACE)) c).
  { apply collapseSpaces_chars. apply Forall_forall. intros x Ix.
    apply filter_In in Ix. destruct Ix as [_ Ix].
    destruct (Legacy.isControl x); [discriminate Ix | reflexivity]. }
  destruct (trim_factor c) as (pre & post & E).
  split.
  - rewrite E in Fc. apply Forall_app in Fc. destruct Fc as [_ Fc].
    apply Forall_app in Fc. exact (proj1 Fc).
  - split; [|apply trim_idempotent].
    pose proof (proj1 (collapseSpaces_single false
                         (filter (fun c => negb (Legacy.isControl c)) u))) as S.
    fold c in S. rewrite E in S.
    apply singleSpaced_app in S. destruct S as [_ S].
    apply singleSpaced_app in S. exact (proj1 S).
Qed.

(** X12. The text decoder returns a text in normal form: it holds no
    control character; its only white space is the plain space, never
    twice in a row and neither first nor last; cleaning it again changes
    nothing. *)
Theorem parseHexPayload_normal_form :
  forall (hexString s : jsstring),
    Legacy.parseHexPayload hexString = Ok s ->
    Forall (fun c => Legacy.isControl c = false
                     /\ (isSpace c = true -> c = SPACE)) s
    /\ singleSpaced s = true
    /\ trim s = s
    /\ cleaned s = s.
Proof.
  intros hexString s H. unfold Legacy.parseHexPayload in H.
  destruct (Legacy.isHexString hexString); [|discriminate].
  injection H as H. fold (cleaned (utf8Decode (fromHex hexString))) in H.
  destruct (cleaned_normal (utf8Decode (fromHex hexString))) as (F & S & T).
  rewrite H in F, S, T.
  split; [exact F|]. split; [exact S|]. split; [exact T|].
  unfold cleaned. rewrite filter_all.
  - rewrite collapseSpaces_fix; [exact T | | exact S | discriminate].
    eapply Forall_impl; [|exact F]. cbv beta. tauto.
  - eapply Forall_impl; [|exact F]. cbv beta. intros c [-> _]. reflexivity.
Qed.

Lemma parseHexPayload_normal_form_witness :
  singleSpaced (lit "A B") = true /\ cleaned (lit "A B") = lit "A B".
Proof.
  pose proof (parseHexPayload_normal_form (lit "0941200a204220") (lit "A B")
                eq_refl) as (_ & S & _ & C).
  exact (conj S C).
Defined.

End CleanedText.

Section NameAndDescription.

Lemma join_split (c : Z) (s : jsstring) : join c (split c s) = s.
Proof.
  induction s as [|x s IH]; [reflexivity|]. cbn [split].
  pose proof (split_nonempty c s) as N.
  destruct (Z.eqb_spec x c) as [->|_].
  - destruct (split c s) as [|seg segs]; [contradiction|].
    cbn [join app]. cbn [join] in IH. rewrite IH. reflexivity.
  - destruct (split c s) as [|seg segs]; [contradiction|].
    cbn [join] in IH |- *. destruct segs as [|seg' segs].
    + rewrite IH. reflexivity.
    + cbn [app]. rewrite IH. reflexivity.
Qed.

Lemma tryEntry_parsed (address : jsstring) (serverData : Reply.t)
  (all : list Reply.t) (parsed key : jsstring) (e : Legacy.Entry.t) :
  Legacy.parseHexPayload (Reply.response serverData) = Ok parsed ->
  Legacy.tryEntry address serverData all = Ok (key, e) ->
  key = Legacy.displayKey address
  /\ Legacy.Entry.name e
     = Legacy.processColorTags
         (trim (match hd [] (split PIPE parsed) with
                | [] => text "未知服务器"
                | _ => hd [] (split PIPE parsed)
                end))
  /\ Legacy.Entry.description e
     = match Legacy.processColorTags
               (trim (join PIPE (tl (split PIPE parsed)))) with
       | [] => text "暂无描述"
       | _ => Legacy.processColorTags
                (trim (join PIPE (tl (split PIPE parsed))))
       end.
Proof.
  intros P T. unfold Legacy.tryEntry in T. rewrite P in T. cbn [bind] in T.
  injection T as <- <-. split; [reflexivity|]. split; reflexivity.
Qed.

(** X13. The older script cuts the decoded text at its first [|]: what
    stands before it is the name and all that follows it, further
    separators included, is the description; a text without separator is
    the name, and the description is then the default one.  An empty name
    or description is replaced by its default text. *)
Theorem legacy_entry_cut_at_first_separator :
  forall (address : jsstring) (serverData : Reply.t) (all : list Reply.t)
         (parsed key : jsstring) (e : Legacy.Entry.t),
    Legacy.parseHexPayload (Reply.response serverData) = Ok parsed ->
    Legacy.tryEntry address serverData all = Ok (key, e) ->
    (forall a b : jsstring,
        parsed = a ++ PIPE :: b -> includes PIPE a = false ->
        Legacy.Entry.name e
        = Legacy.processColorTags
            (trim (match a with [] => text "未知服务器" | _ => a end))
        /\ Legacy.Entry.description e
           = match Legacy.processColorTags (trim b) with
             | [] => text "暂无描述"
             | d => d
             end)
    /\ (includes PIPE parsed = false ->
        Legacy.Entry.name e
        = Legacy.processColorTags
            (trim (match parsed with [] => text "未知服务器" | _ => parsed end))
        /\ Legacy.Entry.description e = text "暂无描述").
Proof.
  intros address serverData all parsed key e P T.
  destruct (tryEntry_parsed _ _ _ _ _ _ P T) as (_ & Hn & Hd).
  split.
  - intros a b -> Ha. rewrite (split_app PIPE a b Ha) in Hn, Hd.
    cbn [hd tl] in Hn, Hd. rewrite join_split in Hd.
    split; [|destruct (Legacy.processColorTags (trim b)); exact Hd].
    rewrite Hn. destruct a; reflexivity.
  - intros Hp. rewrite (split_none PIPE parsed Hp) in Hn, Hd.
    cbn [hd tl] in Hn, Hd. split; [|exact Hd].
    rewrite Hn. destruct parsed; reflexivity.
Qed.

Lemma legacy_entry_cut_at_first_separator_witness :
  exists e : Legacy.Entry.t,
    Legacy.tryEntry (lit "1.2.3.4:6567") reply_Hub [reply_Hub]
    = Ok (lit "1.2.3.4", e)
    /\ Legacy.Entry.name e = lit "Hub"
    /\ Legacy.Entry.description e = lit "a|b".
Proof.
  destruct (Legacy.tryEntry (lit "1.2.3.4:6567") reply_Hub [reply_Hub])
    as [[key e]|err] eqn:T; [|discriminate T].
  exists e.
  pose proof (proj1 (legacy_entry_cut_at_first_separator
                       (lit "1.2.3.4:6567") reply_Hub [reply_Hub]
                       (lit "Hub|a|b") key e eq_refl T)
                (lit "Hub") (lit "a|b") eq_refl eq_refl) as H.
  split; [|exact H].
  vm_compute in T. injection T as <- _. reflexivity.
Defined.

End NameAndDescription.

(* ===================================================================== *)
(** * Bracketed tokens, for any class of characters *)
(* ===================================================================== *)

Section Bracketed.

Variable p : Z -> bool.
Hypothesis p_plain :
  forall c, p c = true ->
            c <> LBRACK /\ c <> RBRACK /\ c <> LBRACE /\ c <> RBRACE.

Lemma isTokenOf_spec (tok : jsstring) :
  isTokenOf p tok = true <-> tok <> [] /\ forallb p tok = true.
Proof.
  destruct tok as [|c tok]; cbn [isTokenOf].
  - split; [discriminate | intros [H _]; contradiction].
  - split; [intros H; split; [discriminate | exact H] | tauto].
Qed.

Lemma token_plain (tok : jsstring) :
  forallb p tok = true ->
  Forall (fun c => c <> LBRACK /\ c <> RBRACK /\ c <> LBRACE /\ c <> RBRACE) tok.
Proof.
  rewrite forallb_forall, Forall_forall. intros H x Hx. exact (p_plain x (H x Hx)).
Qed.

Lemma bracketed_shape (t r : jsstring) :
  forallb p t = true ->
  match r with [] => True | d :: _ => p d = false end ->
  bracketed p (LBRACK :: t ++ r) =
  match t, r with
  | _ :: _, d :: _ =>
      if d =? RBRACK
      then Some (LBRACE :: t ++ [RBRACE], (List.length t + 2)%nat)
      else None
  | _, _ => None
  end.
Proof.
  intros Ht Hr. unfold bracketed. rewrite Z.eqb_refl.
  destruct (takeWhile_run _ t r Ht Hr) as [-> ->]. reflexivity.
Qed.

Lemma bracketed_other (c : Z) (s : jsstring) :
  c <> LBRACK -> bracketed p (c :: s) = None.
Proof.
  intros H. unfold bracketed.
  destruct (Z.eqb_spec c LBRACK); [contradiction | reflexivity].
Qed.

Lemma bracketed_match (tok rest : jsstring) :
  isTokenOf p tok = true ->
  bracketed p (LBRACK :: tok ++ RBRACK :: rest)
  = Some (LBRACE :: tok ++ [RBRACE], (List.length tok + 2)%nat).
Proof.
  intros H. apply isTokenOf_spec in H. destruct H as [Hne Ht].
  rewrite bracketed_shape; [|exact Ht|].
  - destruct tok; [contradiction|]. rewrite Z.eqb_refl. reflexivity.
  - destruct (p RBRACK) eqn:E; [|reflexivity].
    destruct (p_plain _ E) as (_ & N & _). contradiction.
Qed.

Lemma bracketed_inv (s rep : jsstring) (n : nat) :
  bracketed p s = Some (rep, n) ->
  exists tok rest,
    isTokenOf p tok = true /\ s = LBRACK :: tok ++ RBRACK :: rest /\
    rep = LBRACE :: tok ++ [RBRACE] /\ n = (List.length tok + 2)%nat.
Proof.
  destruct s as [|c s]; [discriminate|].
  destruct (Z.eq_dec c LBRACK) as [->|Hc];
    [|rewrite (bracketed_other _ _ Hc); discriminate].
  destruct (run_decompose p s) as (t & r & -> & A & Hr).
  rewrite (bracketed_shape t r A Hr).
  destruct t as [|x t]; [discriminate|]. destruct r as [|d r]; [discriminate|].
  destruct (Z.eqb_spec d RBRACK) as [->|]; [|discriminate].
  intros H; inversion H; subst. exists (x :: t), r.
  split; [exact A|]. split; [reflexivity|]. split; reflexivity.
Qed.

Lemma rewrite_match (tok rest : jsstring) :
  isTokenOf p tok = true ->
  replaceAll (bracketed p) (LBRACK :: tok ++ RBRACK :: rest)
  = LBRACE :: tok ++ RBRACE :: replaceAll (bracketed p) rest.
Proof.
  intros H. rewrite replaceAll_cons, (bracketed_match _ _ H).
  replace (Nat.pred (List.length tok + 2)) with (List.length tok + 1)%nat by lia.
  rewrite skipn_app, skipn_all2 by lia.
  replace (List.length tok + 1 - List.length tok)%nat with 1%nat by lia.
  cbn [skipn app]. rewrite <- app_assoc. reflexivity.
Qed.

Lemma rewrite_copy (c : Z) (s : jsstring) :
  bracketed p (c :: s) = None ->
  replaceAll (bracketed p) (c :: s) = c :: replaceAll (bracketed p) s.
Proof. intros H. rewrite replaceAll_cons, H. reflexivity. Qed.

Lemma rewrite_cases (s : jsstring) :
  s = [] \/
  (exists tok rest,
      isTokenOf p tok = true /\ s = LBRACK :: tok ++ RBRACK :: rest) \/
  (exists c s', s = c :: s' /\ bracketed p (c :: s') = None).
Proof.
  destruct s as [|c s']; [left; reflexivity|right].
  destruct (bracketed p (c :: s')) as [[rep n]|] eqn:E.
  - left. destruct (bracketed_inv _ _ _ E) as (tok & rest & Ht & Es & _).
    exists tok, rest. auto.
  - right. exists c, s'. auto.
Qed.

Lemma rewrite_pointwise (s : jsstring) :
  Forall2 rewritten s (replaceAll (bracketed p) s).
Proof.
  remember (List.length s) as n eqn:En. revert s En.
  induction n as [n IH] using lt_wf_ind. intros s En.
  destruct (rewrite_cases s) as [->|[(tok & rest & Ht & ->)|(c & s' & -> & E)]].
  - constructor.
  - rewrite (rewrite_match _ _ Ht).
    constructor; [right; left; split; reflexivity|].
    apply Forall2_app; [apply Forall2_rewritten_refl|].
    constructor; [right; right; split; reflexivity|].
    apply (IH (List.length rest)); [|reflexivity].
    subst n. cbn [List.length]. rewrite length_app. cbn [List.length]. lia.
  - rewrite (rewrite_copy _ _ E).
    constructor; [left; reflexivity|].
    apply (IH (List.length s')); [subst n; cbn [List.length]; lia | reflexivity].
Qed.

(** A text that holds no token in brackets is left as it is. *)
Lemma rewrite_fix (s : jsstring) :
  (forall tok, isTokenOf p tok = true -> ~ holdsTag s tok) ->
  replaceAll (bracketed p) s = s.
Proof.
  induction s as [|c s IH]; intros H; [reflexivity|].
  destruct (bracketed p (c :: s)) as [[rep n]|] eqn:E.
  - destruct (bracketed_inv _ _ _ E) as (tok & rest & Ht & Es & _).
    exfalso. apply (H tok Ht). exists [], rest. exact Es.
  - rewrite (rewrite_copy _ _ E). f_equal. apply IH.
    intros tok Ht (pre & post & Es). apply (H tok Ht).
    exists (c :: pre), post. rewrite Es. reflexivity.
Qed.

End Bracketed.

Section TwoPasses.

Lemma app_pivot (x y pre z : jsstring) (c : Z) :
  x ++ y = pre ++ c :: z -> ~ In c x ->
  exists pre', pre = x ++ pre' /\ y = pre' ++ c :: z.
Proof.
  revert pre. induction x as [|a x IH]; intros pre E N.
  - exists pre. split; [reflexivity | exact E].
  - destruct pre as [|b pre]; cbn [app] in E.
    + inversion E; subst. exfalso. apply N. left. reflexivity.
    + inversion E; subst. destruct (IH pre H1) as (pre' & -> & ->).
      * intros I. apply N. right. exact I.
      * exists pre'. split; reflexivity.
Qed.

Lemma rewritten_plain (a b : Z) :
  rewritten a b -> b <> LBRACE -> b <> RBRACE -> a = b.
Proof. intros [->|[[_ ->]|[_ ->]]] H1 H2; [reflexivity | contradiction..]. Qed.

Lemma rewritten_all_plain (u t : jsstring) :
  Forall2 rewritten u t ->
  Forall (fun c => c <> LBRACK /\ c <> RBRACK /\ c <> LBRACE /\ c <> RBRACE) t ->
  u = t.
Proof.
  induction 1 as [|a b u t R _ IH]; intros F; [reflexivity|].
  inversion F as [|? ? (_ & _ & H1 & H2) F']; subst.
  rewrite (rewritten_plain a b R H1 H2), (IH F'). reflexivity.
Qed.

(** A token in brackets in a rewritten text stood in brackets before. *)
Lemma holdsTag_before (u t tok : jsstring) :
  Forall2 rewritten u t ->
  Forall (fun c => c <> LBRACK /\ c <> RBRACK /\ c <> LBRACE /\ c <> RBRACE) tok ->
  forall pre post, t = pre ++ LBRACK :: tok ++ RBRACK :: post ->
  exists pre' post',
    List.length pre' = List.length pre
    /\ u = pre' ++ LBRACK :: tok ++ RBRACK :: post'.
Proof.
  intros R F pre post ->.
  apply Forall2_app_inv_r in R. destruct R as (pre' & u1 & Rp & R1 & ->).
  inversion R1 as [|x ? u2 ? Rx R2]; subst.
  apply Forall2_app_inv_r in R2. destruct R2 as (tok' & u3 & Rt & R3 & ->).
  inversion R3 as [|y ? post' ? Ry _]; subst.
  exists pre', post'. split; [exact (Forall2_length Rp)|].
  rewrite (rewritten_all_plain _ _ Rt F).
  rewrite (rewritten_plain x LBRACK Rx); [|discriminate..].
  rewrite (rewritten_plain y RBRACK Ry); [|discriminate..].
  reflexivity.
Qed.

Variable p : Z -> bool.
Hypothesis p_plain :
  forall c, p c = true ->
            c <> LBRACK /\ c <> RBRACK /\ c <> LBRACE /\ c <> RBRACE.

(** The rewritten text holds no token in brackets. *)
Lemma rewrite_clean (s tok : jsstring) :
  isTokenOf p tok = true -> ~ holdsTag (replaceAll (bracketed p) s) tok.
Proof.
  intros Ht. pose proof (proj1 (isTokenOf_spec p tok) Ht) as [_ Hall].
  pose proof (token_plain p p_plain tok Hall) as Fp.
  remember (List.length s) as n eqn:En. revert s En.
  induction n as [n IH] using lt_wf_ind. intros s En (pre & post & E).
  destruct (rewrite_cases p s)
    as [->|[(tok0 & rest & Ht0 & ->)|(c & s' & -> & N)]].
  - destruct pre; discriminate E.
  - rewrite (rewrite_match p p_plain _ _ Ht0) in E.
    pose proof (proj1 (isTokenOf_spec p tok0) Ht0) as [_ Hall0].
    pose proof (token_plain p p_plain tok0 Hall0) as F0.
    change (LBRACE :: tok0 ++ RBRACE :: replaceAll (bracketed p) rest)
      with ((LBRACE :: tok0) ++ RBRACE :: replaceAll (bracketed p) rest) in E.
    replace ((LBRACE :: tok0) ++ RBRACE :: replaceAll (bracketed p) rest)
      with ((LBRACE :: tok0 ++ [RBRACE]) ++ replaceAll (bracketed p) rest) in E
      by (cbn [app]; rewrite <- app_assoc; reflexivity).
    apply app_pivot in E.
    + destruct E as (pre' & _ & E).
      apply (IH (List.length rest)) with (s := rest);
        [|reflexivity | exists pre', post; exact E].
      subst n. cbn [List.length]. rewrite length_app. cbn [List.length]. lia.
    + intros [I|I]; [discriminate I|].
      apply in_app_or in I. destruct I as [I|[I|[]]]; [|discriminate I].
      rewrite Forall_forall in F0. destruct (F0 _ I) as (H & _). apply H; reflexivity.
  - rewrite (rewrite_copy p _ _ N) in E. destruct pre as [|b pre].
    + cbn [app] in E. inversion E as [[Ec Es]]. subst c.
      destruct (holdsTag_before (LBRACK :: s')
                  (LBRACK :: replaceAll (bracketed p) s') tok) with
        (pre := @nil Z) (post := post) as (pre' & post' & L & Eu).
      * constructor; [left; reflexivity | apply rewrite_pointwise; exact p_plain].
      * exact Fp.
      * cbn [app]. rewrite Es. reflexivity.
      * destruct pre'; [|discriminate L]. cbn [app] in Eu.
        rewrite Eu, (bracketed_match p p_plain _ _ Ht) in N. discriminate N.
    + cbn [app] in E. inversion E as [[Ec Es]].
      apply (IH (List.length s')) with (s := s');
        [subst n; cbn [List.length]; lia | reflexivity |].
      exists pre, post. exact Es.
Qed.

Lemma rewrite_idempotent (s : jsstring) :
  replaceAll (bracketed p) (replaceAll (bracketed p) s)
  = replaceAll (bracketed p) s.
Proof.
  apply rewrite_fix. intros tok Ht. apply rewrite_clean. exact Ht.
Qed.

End TwoPasses.

(* ===================================================================== *)
(** * The post-processing pass of the newer script *)
(* ===================================================================== *)

Section FixBrackets.

Lemma tagChar_plain (c : Z) :
  Scan.isTagChar c = true ->
  c <> LBRACK /\ c <> RBRACK /\ c <> LBRACE /\ c <> RBRACE.
Proof.
  unfold Scan.isTagChar, HASH, LBRACK, RBRACK, LBRACE, RBRACE.
  rewrite !orb_true_iff, !andb_true_iff, !Z.leb_le, Z.eqb_eq. lia.
Qed.

Lemma hexTagChar_plain (c : Z) :
  Scan.isHexTagChar c = true ->
  c <> LBRACK /\ c <> RBRACK /\ c <> LBRACE /\ c <> RBRACE.
Proof.
  unfold Scan.isHexTagChar, HASH, LBRACK, RBRACK, LBRACE, RBRACE.
  rewrite !orb_true_iff, !andb_true_iff, !Z.leb_le, Z.eqb_eq. lia.
Qed.

(** A character of the class of [fixBrackets] that is no upper-case
    letter is in the class of [processColorTags]. *)
Lemma hexTagChar_lower (c : Z) :
  Scan.isHexTagChar c = true -> isUpperHex c = false -> Scan.isTagChar c = true.
Proof.
  unfold Scan.isHexTagChar, Scan.isTagChar, isUpperHex, HASH.
  rewrite !orb_true_iff, !andb_true_iff, andb_false_iff, !Z.leb_le,
    !Z.leb_gt, Z.eqb_eq. lia.
Qed.

Lemma processColorTags_bracketed (s : jsstring) :
  Scan.processColorTags s = replaceAll (bracketed Scan.isTagChar) s.
Proof. reflexivity. Qed.

Lemma fixText_bracketed (s : jsstring) :
  Scan.fixText s = replaceAll (bracketed Scan.isHexTagChar) s.
Proof. reflexivity. Qed.

Lemma fixText_idempotent (s : jsstring) :
  Scan.fixText (Scan.fixText s) = Scan.fixText s.
Proof.
  rewrite !fixText_bracketed. apply rewrite_idempotent. exact hexTagChar_plain.
Qed.

Lemma fixText_clean (s tok : jsstring) :
  isTokenOf Scan.isHexTagChar tok = true -> ~ holdsTag (Scan.fixText s) tok.
Proof.
  rewrite fixText_bracketed. apply rewrite_clean. exact hexTagChar_plain.
Qed.

Lemma fixServer_idempotent (e : Scan.Entry.t) :
  Scan.fixServer (Scan.fixServer e) = Scan.fixServer e.
Proof.
  unfold Scan.fixServer. cbn [Scan.Entry.name Scan.Entry.description
    Scan.Entry.ip Scan.Entry.players Scan.Entry.map Scan.Entry.ping
    Scan.Entry.updatedAt Scan.Entry.sentPackets Scan.Entry.receivedMeta].
  rewrite !fixText_idempotent. reflexivity.
Qed.

(** X14. The post-processing pass [fixBrackets] touches the name and the
    description of an entry only, and there it only turns brackets into
    the braces of the same side; afterwards neither text holds a token of
    the class [#0-9A-Fa-f] in brackets, and a second pass, as the
    five-minute loop makes it on a file that was not written again,
    changes nothing. *)
Theorem fixBrackets_in_place_and_idempotent :
  forall (servers : list Scan.Entry.t),
    Forall2 sameButBraces servers (Scan.fixBrackets servers)
    /\ Forall (fun e =>
                 forall tok, isTokenOf Scan.isHexTagChar tok = true ->
                             ~ holdsTag (Scan.Entry.name e) tok
                             /\ ~ holdsTag (Scan.Entry.description e) tok)
         (Scan.fixBrackets servers)
    /\ Scan.fixBrackets (Scan.fixBrackets servers) = Scan.fixBrackets servers.
Proof.
  intros servers. unfold Scan.fixBrackets. split.
  - induction servers as [|e servers IH]; [constructor|].
    cbn [List.map]. constructor; [|exact IH].
    unfold sameButBraces, Scan.fixServer.
    cbn [Scan.Entry.name Scan.Entry.description
      Scan.Entry.ip Scan.Entry.players Scan.Entry.map Scan.Entry.ping
      Scan.Entry.updatedAt Scan.Entry.sentPackets Scan.Entry.receivedMeta].
    repeat (split; [reflexivity|]).
    split; rewrite fixText_bracketed; apply rewrite_pointwise;
      exact hexTagChar_plain.
  - split.
    + apply Forall_forall. intros e' I. apply in_map_iff in I.
      destruct I as (e & <- & _). intros tok Ht.
      split; apply fixText_clean; exact Ht.
    + rewrite map_map. apply map_ext. intros e. apply fixServer_idempotent.
Qed.

Lemma rewritten_origin (s u : jsstring) (c : Z) :
  Forall2 rewritten s u -> In c u -> In c s \/ c = LBRACE \/ c = RBRACE.
Proof.
  induction 1 as [|a b s u R _ IH]; intros I; [destruct I|].
  destruct I as [<-|I].
  - destruct R as [->|[[_ ->]|[_ ->]]]; [left; left; reflexivity | auto..].
  - destruct (IH I) as [H|H]; [left; right; exact H | right; exact H].
Qed.

(** X15. The two passes of a round, [processColorTags] in [main] and then
    the expression of [fixBrackets]: the result is stable under both, so
    repeating either changes nothing; and the second pass has work to do
    only where the text holds an upper-case letter from A to F. *)
Theorem fixText_after_processColorTags :
  forall (text : jsstring),
    Scan.processColorTags (Scan.fixText (Scan.processColorTags text))
    = Scan.fixText (Scan.processColorTags text)
    /\ Scan.fixText (Scan.fixText (Scan.processColorTags text))
       = Scan.fixText (Scan.processColorTags text)
    /\ (existsb isUpperHex text = false ->
        Scan.fixText (Scan.processColorTags text) = Scan.processColorTags text).
Proof.
  intros text. split; [|split; [apply fixText_idempotent|]].
  - rewrite (processColorTags_bracketed (Scan.fixText _)).
    apply rewrite_fix. intros tok Ht (pre & post & E).
    pose proof (proj1 (isTokenOf_spec Scan.isTagChar tok) Ht) as [_ Hall].
    destruct (holdsTag_before (Scan.processColorTags text)
                (Scan.fixText (Scan.processColorTags text)) tok)
      with (pre := pre) (post := post) as (pre' & post' & _ & Eu).
    + rewrite fixText_bracketed. apply rewrite_pointwise. exact hexTagChar_plain.
    + apply token_plain with (p := Scan.isTagChar); [exact tagChar_plain | exact Hall].
    + exact E.
    + apply (rewrite_clean Scan.isTagChar tagChar_plain text tok Ht).
      exists pre', post'. exact Eu.
  - intros U. rewrite fixText_bracketed. apply rewrite_fix.
    intros tok Ht (pre & post & E).
    pose proof (proj1 (isTokenOf_spec Scan.isHexTagChar tok) Ht) as [Hne Hall].
    apply (rewrite_clean Scan.isTagChar tagChar_plain text tok);
      [|exists pre, post; exact E].
    apply isTokenOf_spec. split; [exact Hne|].
    apply forallb_forall. intros c Ic. rewrite forallb_forall in Hall.
    apply hexTagChar_lower; [exact (Hall c Ic)|].
    destruct (rewritten_origin text (Scan.processColorTags text) c) as [I|[->| ->]].
    + apply processColorTags_pointwise.
    + rewrite E. apply in_or_app. right. right. apply in_or_app. left. exact Ic.
    + destruct (isUpperHex c) eqn:Uc; [|reflexivity].
      assert (existsb isUpperHex text = true)
        by (apply existsb_exists; exists c; split; assumption).
      congruence.
    + reflexivity.
    + reflexivity.
Qed.

Lemma fixText_after_processColorTags_witness :
  Scan.fixText (Scan.processColorTags (lit "[#ff00aa]Hub [x]"))
  = Scan.processColorTags (lit "[#ff00aa]Hub [x]").
Proof.
  exact (proj2 (proj2 (fixText_after_processColorTags (lit "[#ff00aa]Hub [x]")))
           eq_refl).
Defined.

End FixBrackets.

(* ===================================================================== *)
(** * The download and the round of the newer script *)
(* ===================================================================== *)

Section Round.

Ltac download_case :=
  cbv [fst snd requests waited flat_map fold_right app removelast last
       attemptOrder list_prod seq List.map filter Nat.ltb Nat.leb
       Scan.RETRY_DELAY List.length];
  split; [eexists; reflexivity|];
  split; [repeat constructor; assumption|];
  split; [first [ do 2 eexists; split; [reflexivity | assumption]
                | split; [reflexivity|]; split; [reflexivity|];
                  split; [repeat constructor; assumption | reflexivity] ]|];
  split; [reflexivity | lia].

(** X16. The download asks the three sources in their order, each up to
    three times, and stops at the first answer, which it returns: the
    requests made are an initial part of that order, and all but the last
    failed.  It pauses five seconds after a failed attempt unless that
    was the third at its source.  It throws only after nine failed
    requests, which takes thirty seconds of pauses. *)
Theorem downloadServerList_first_answer :
  forall (data : Type) (fetch : nat -> nat -> option data),
    (exists rest,
        attemptOrder = requests (snd (Scan.downloadServerList fetch)) ++ rest)
    /\ Forall (fun ua => fetch (fst ua) (snd ua) = None)
         (removelast (requests (snd (Scan.downloadServerList fetch))))
    /\ match fst (Scan.downloadServerList fetch) with
       | Ok body =>
           exists u a,
             last (requests (snd (Scan.downloadServerList fetch))) (0, 0)%nat
             = (u, a)
             /\ fetch u a = Some body
       | Throw e =>
           e = Error (text "所有下载源都失败")
           /\ requests (snd (Scan.downloadServerList fetch)) = attemptOrder
           /\ Forall (fun ua => fetch (fst ua) (snd ua) = None) attemptOrder
           /\ waited (snd (Scan.downloadServerList fetch)) = 30000
       end
    /\ waited (snd (Scan.downloadServerList fetch))
       = 5000 * Z.of_nat
                  (List.length
                     (filter (fun ua => (snd ua <? 3)%nat)
                        (removelast
                           (requests (snd (Scan.downloadServerList fetch))))))
    /\ waited (snd (Scan.downloadServerList fetch)) <= 30000.
Proof.
  intros data fetch. unfold Scan.downloadServerList.
  cbv [Scan.sources Scan.attempts Scan.SERVER_LIST_URLS List.length
       Scan.MAX_RETRIES Nat.ltb Nat.leb].
  destruct (fetch 0 1)%nat eqn:E01; [download_case|].
  destruct (fetch 0 2)%nat eqn:E02; [download_case|].
  destruct (fetch 0 3)%nat eqn:E03; [download_case|].
  destruct (fetch 1 1)%nat eqn:E11; [download_case|].
  destruct (fetch 1 2)%nat eqn:E12; [download_case|].
  destruct (fetch 1 3)%nat eqn:E13; [download_case|].
  destruct (fetch 2 1)%nat eqn:E21; [download_case|].
  destruct (fetch 2 2)%nat eqn:E22; [download_case|].
  destruct (fetch 2 3)%nat eqn:E23; download_case.
Qed.

Lemma forallb_false {A : Type} (f : A -> bool) (l : list A) :
  forallb f l = false -> exists x, In x l /\ f x = false.
Proof.
  induction l as [|x l IH]; cbn [forallb]; [discriminate|].
  destruct (f x) eqn:E; cbn [andb].
  - intros H. destruct (IH H) as (y & I & Hy). exists y. split; [right|]; assumption.
  - intros _. exists x. split; [left; reflexivity | exact E].
Qed.

Lemma probe_cases (pingOf : jsstring -> jsstring) (servers : list Server.t)
  (inbound : list Message.t) :
  servers <> [] ->
  match Scan.probe pingOf servers inbound with
  | Scan.Written responses report =>
      Forall (fun s => validPort (Server.port s) = true) servers
      /\ Scan.sendUDPRequests servers inbound = Some responses
      /\ report = Scan.processEnhancedData pingOf responses
      /\ List.length report = List.length responses
  | Scan.Stopped => False
  | Scan.Crashed =>
      exists s, In s servers /\ validPort (Server.port s) = false
  end.
Proof.
  intros Hne. unfold Scan.probe.
  destruct servers as [|s0 servers]; [contradiction|].
  unfold Scan.sendUDPRequests.
  destruct (forallb (fun s => validPort (Server.port s)) (s0 :: servers)) eqn:V.
  - split; [apply Forall_forall; exact (proj1 (forallb_forall _ _) V)|].
    split; [reflexivity|]. split; [reflexivity|].
    unfold Scan.processEnhancedData. apply length_map.
  - exact (forallb_false _ _ V).
Qed.

(** X17. How a round of the newer script ends.  It writes its two files
    only for a list with at least one target, the local one or else the
    downloaded one, whose ports [socket.send] accepts; the report then
    has one entry for each key of the raw replies.  It asks the network
    for a list only when the local file yields no target, and stops when
    the download fails or yields none either.  The remaining end is the
    uncaught exception for a port that [socket.send] refuses. *)
Theorem main_outcomes :
  forall (pingOf : jsstring -> jsstring)
         (fetch : nat -> nat -> option (option (list Group.t)))
         (file : option (list Group.t)) (inbound : list Message.t),
    (Scan.loadFile file <> [] ->
     snd (Scan.main pingOf fetch file inbound) = [])
    /\ (Scan.loadFile file = [] ->
        snd (Scan.main pingOf fetch file inbound)
        = snd (Scan.downloadServerList fetch))
    /\ exists used : option (list Group.t),
        (Scan.loadFile file <> [] /\ used = file
         \/ Scan.loadFile file = []
            /\ match fst (Scan.downloadServerList fetch) with
               | Ok body => used = body
               | Throw _ => used = None
               end)
        /\ match fst (Scan.main pingOf fetch file inbound) with
           | Scan.Written responses report =>
               Scan.loadFile used <> []
               /\ Forall (fun s => validPort (Server.port s) = true)
                    (Scan.loadFile used)
               /\ Scan.sendUDPRequests (Scan.loadFile used) inbound
                  = Some responses
               /\ report = Scan.processEnhancedData pingOf responses
               /\ List.length report = List.length responses
           | Scan.Stopped => Scan.loadFile used = []
           | Scan.Crashed =>
               exists s, In s (Scan.loadFile used)
                         /\ validPort (Server.port s) = false
           end.
Proof.
  intros pingOf fetch file inbound. unfold Scan.main.
  destruct (Scan.loadFile file) as [|s0 l] eqn:L.
  - split; [intros H; contradiction H; reflexivity|].
    destruct (Scan.downloadServerList fetch) as [[body|e] log] eqn:D;
      cbn [fst snd].
    + split; [intros _; destruct (Scan.loadFile body); reflexivity|].
      exists body. split; [right; split; reflexivity|].
      destruct (Scan.loadFile body) as [|s1 l1] eqn:B; cbn [fst]; [reflexivity|].
      pose proof (probe_cases pingOf (s1 :: l1) inbound) as P.
      destruct (Scan.probe pingOf (s1 :: l1) inbound);
        [split; [discriminate | apply P; discriminate]
        | exfalso; apply P; discriminate
        | apply P; discriminate].
    + split; [intros _; reflexivity|].
      exists None. split; [right; split; reflexivity | reflexivity].
  - split; [intros _; reflexivity|]. split; [discriminate|].
    exists file. split; [left; split; [discriminate | reflexivity]|].
    cbn [fst]. rewrite L.
    pose proof (probe_cases pingOf (s0 :: l) inbound) as P.
    destruct (Scan.probe pingOf (s0 :: l) inbound);
      [split; [discriminate | apply P; discriminate]
      | exfalso; apply P; discriminate
      | apply P; discriminate].
Qed.

Lemma main_outcomes_witness :
  snd (Scan.main noPing fetch_second (Some one_group) [datagram_A]) = []
  /\ snd (Scan.main noPing fetch_second None [datagram_A])
     = snd (Scan.downloadServerList fetch_second).
Proof.
  pose proof (main_outcomes noPing fetch_second (Some one_group) [datagram_A])
    as (H1 & _).
  pose proof (main_outcomes noPing fetch_second None [datagram_A])
    as (_ & H2 & _).
  split; [apply H1; discriminate | apply H2; reflexivity].
Defined.

End Round.

(* ===================================================================== *)
(** * The colour-tag rewrite of the older script *)
(* ===================================================================== *)

Section LegacyColorTags.

Lemma wordChar_plain (c : Z) :
  Legacy.isWordChar c = true ->
  c <> LBRACK /\ c <> RBRACK /\ c <> LBRACE /\ c <> RBRACE /\ c <> HASH.
Proof.
  unfold Legacy.isWordChar, HASH, LBRACK, RBRACK, LBRACE, RBRACE.
  rewrite !orb_true_iff, !andb_true_iff, !Z.leb_le, Z.eqb_eq. lia.
Qed.

Lemma wordChars_plain (t : jsstring) :
  forallb Legacy.isWordChar t = true -> Forall (fun x => x <> LBRACK) t.
Proof.
  rewrite forallb_forall, Forall_forall. intros H x Hx.
  apply (wordChar_plain x (H x Hx)).
Qed.

(** The matcher, on a bracket, an optional hash [hs], a run [t] of word
    characters and a remainder [r] that does not go on with one. *)
Lemma legacyTag_shape (hs t r : jsstring) :
  hs = [] \/ hs = [HASH] ->
  forallb Legacy.isWordChar t = true ->
  match r with [] => True | d :: _ => Legacy.isWordChar d = false end ->
  (hs = [] -> match t ++ r with d :: _ => d <> HASH | [] => True end) ->
  Legacy.colorTagRegex (LBRACK :: hs ++ t ++ r) =
  match t, r with
  | _ :: _, d :: _ =>
      if d =? RBRACK
      then Some (LBRACE :: t ++ [RBRACE],
                 (List.length hs + List.length t + 2)%nat)
      else None
  | _, _ => None
  end.
Proof.
  intros Hhs Ht Hr Hh. unfold Legacy.colorTagRegex. rewrite Z.eqb_refl.
  destruct Hhs as [->| ->].
  - cbn [app]. specialize (Hh eq_refl).
    assert (E : match t ++ r with
                | h :: _ => if h =? HASH then 1%nat else 0%nat
                | [] => 0%nat
                end = 0%nat).
    { destruct (t ++ r) as [|d u]; [reflexivity|].
      destruct (Z.eqb_spec d HASH); [contradiction | reflexivity]. }
    rewrite E. cbn [skipn].
    destruct (takeWhile_run _ t r Ht Hr) as [-> ->]. reflexivity.
  - cbn [app]. rewrite Z.eqb_refl. cbn [skipn].
    destruct (takeWhile_run _ t r Ht Hr) as [-> ->]. reflexivity.
Qed.

Lemma legacyTag_decompose (s : jsstring) :
  exists hs t r,
    s = hs ++ t ++ r /\ (hs = [] \/ hs = [HASH])
    /\ forallb Legacy.isWordChar t = true
    /\ match r with [] => True | d :: _ => Legacy.isWordChar d = false end
    /\ (hs = [] -> match t ++ r with d :: _ => d <> HASH | [] => True end).
Proof.
  destruct s as [|c s].
  - exists [], [], []. repeat split; auto.
  - destruct (Z.eq_dec c HASH) as [->|Hc].
    + destruct (run_decompose Legacy.isWordChar s) as (t & r & -> & A & Hr).
      exists [HASH], t, r. split; [reflexivity|]. split; [right; reflexivity|].
      split; [exact A|]. split; [exact Hr | discriminate].
    + destruct (run_decompose Legacy.isWordChar (c :: s)) as (t & r & E & A & Hr).
      exists [], t, r. split; [exact E|]. split; [left; reflexivity|].
      split; [exact A|]. split; [exact Hr|]. intros _. cbn [app] in E.
      rewrite <- E. exact Hc.
Qed.

Lemma legacyTag_other (c : Z) (s : jsstring) :
  c <> LBRACK -> Legacy.colorTagRegex (c :: s) = None.
Proof.
  intros H. unfold Legacy.colorTagRegex.
  destruct (Z.eqb_spec c LBRACK); [contradiction | reflexivity].
Qed.

Lemma legacyTag_match (hs tok rest : jsstring) :
  hs = [] \/ hs = [HASH] ->
  isTokenOf Legacy.isWordChar tok = true ->
  Legacy.colorTagRegex (LBRACK :: hs ++ tok ++ RBRACK :: rest)
  = Some (LBRACE :: tok ++ [RBRACE],
          (List.length hs + List.length tok + 2)%nat).
Proof.
  intros Hhs H. apply isTokenOf_spec in H. destruct H as [Hne Ht].
  rewrite legacyTag_shape; [|exact Hhs|exact Ht|reflexivity|].
  - destruct tok; [contradiction|]. rewrite Z.eqb_refl. reflexivity.
  - intros _. destruct tok as [|c tok]; [contradiction|]. cbn [app].
    cbn [forallb] in Ht. apply andb_true_iff in Ht.
    apply (wordChar_plain c (proj1 Ht)).
Qed.

Lemma legacyTag_inv (s rep : jsstring) (n : nat) :
  Legacy.colorTagRegex s = Some (rep, n) ->
  exists hs tok rest,
    (hs = [] \/ hs = [HASH]) /\ isTokenOf Legacy.isWordChar tok = true
    /\ s = LBRACK :: hs ++ tok ++ RBRACK :: rest
    /\ rep = LBRACE :: tok ++ [RBRACE]
    /\ n = (List.length hs + List.length tok + 2)%nat.
Proof.
  destruct s as [|c s]; [discriminate|].
  destruct (Z.eq_dec c LBRACK) as [->|Hc];
    [|rewrite (legacyTag_other _ _ Hc); discriminate].
  destruct (legacyTag_decompose s) as (hs & t & r & -> & Hhs & A & Hr & Hh).
  rewrite (legacyTag_shape hs t r Hhs A Hr Hh).
  destruct t as [|x t]; [discriminate|]. destruct r as [|d r]; [discriminate|].
  destruct (Z.eqb_spec d RBRACK) as [->|]; [|discriminate].
  intros H; inversion H; subst. exists hs, (x :: t), r.
  split; [exact Hhs|]. split; [exact A|]. split; [reflexivity|].
  split; reflexivity.
Qed.

Lemma legacy_rewrite_match (hs tok rest : jsstring) :
  hs = [] \/ hs = [HASH] ->
  isTokenOf Legacy.isWordChar tok = true ->
  Legacy.processColorTags (LBRACK :: hs ++ tok ++ RBRACK :: rest)
  = LBRACE :: tok ++ RBRACE :: Legacy.processColorTags rest.
Proof.
  intros Hhs H. unfold Legacy.processColorTags.
  rewrite replaceAll_cons, (legacyTag_match _ _ _ Hhs H).
  replace (Nat.pred (List.length hs + List.length tok + 2))
    with (List.length hs + (List.length tok + 1))%nat by lia.
  rewrite skipn_app, skipn_all2 by lia.
  replace (List.length hs + (List.length tok + 1) - List.length hs)%nat
    with (List.length tok + 1)%nat by lia.
  rewrite skipn_app, skipn_all2 by lia.
  replace (List.length tok + 1 - List.length tok)%nat with 1%nat by lia.
  cbn [skipn app]. rewrite <- app_assoc. reflexivity.
Qed.

Lemma legacy_rewrite_copy (c : Z) (s : jsstring) :
  Legacy.colorTagRegex (c :: s) = None ->
  Legacy.processColorTags (c :: s) = c :: Legacy.processColorTags s.
Proof.
  intros H. unfold Legacy.processColorTags. rewrite replaceAll_cons, H.
  reflexivity.
Qed.

Lemma legacy_rewrite_plain (t s : jsstring) :
  Forall (fun x => x <> LBRACK) t ->
  Legacy.processColorTags (t ++ s) = t ++ Legacy.processColorTags s.
Proof.
  induction 1 as [|x t Hx _ IH]; cbn [app]; [reflexivity|].
  rewrite legacy_rewrite_copy by (apply legacyTag_other; assumption).
  rewrite IH. reflexivity.
Qed.

Lemma legacy_rewrite_cases (s : jsstring) :
  s = [] \/
  (exists hs tok rest,
      (hs = [] \/ hs = [HASH]) /\ isTokenOf Legacy.isWordChar tok = true
      /\ s = LBRACK :: hs ++ tok ++ RBRACK :: rest) \/
  (exists c s', s = c :: s' /\ Legacy.colorTagRegex (c :: s') = None).
Proof.
  destruct s as [|c s']; [left; reflexivity|right].
  destruct (Legacy.colorTagRegex (c :: s')) as [[rep n]|] eqn:E.
  - left. destruct (legacyTag_inv _ _ _ E) as (hs & tok & rest & Hhs & Ht & Es & _).
    exists hs, tok, rest. auto.
  - right. exists c, s'. auto.
Qed.

Lemma legacy_rewrite_head (r : jsstring) :
  match r, Legacy.processColorTags r with
  | [], [] => True
  | d :: _, d' :: _ => d' = d \/ (d = LBRACK /\ d' = LBRACE)
  | _, _ => False
  end.
Proof.
  destruct (legacy_rewrite_cases r)
    as [->|[(hs & tok & rest & Hhs & Ht & ->)|(c & s' & -> & E)]].
  - exact I.
  - rewrite (legacy_rewrite_match _ _ _ Hhs Ht). right. auto.
  - rewrite (legacy_rewrite_copy _ _ E). left. reflexivity.
Qed.

(** A bracket that starts no tag in the input starts none in the output. *)
Lemma legacyTag_none_stable (s : jsstring) :
  Legacy.colorTagRegex (LBRACK :: s) = None ->
  Legacy.colorTagRegex (LBRACK :: Legacy.processColorTags s) = None.
Proof.
  destruct (legacyTag_decompose s) as (hs & t & r & -> & Hhs & A & Hr & Hh).
  rewrite (legacyTag_shape hs t r Hhs A Hr Hh).
  assert (Ph : Forall (fun x => x <> LBRACK) hs)
    by (destruct Hhs as [->| ->]; repeat constructor; discriminate).
  rewrite (legacy_rewrite_plain hs _ Ph),
    (legacy_rewrite_plain t r (wordChars_plain t A)).
  pose proof (legacy_rewrite_head r) as Hd.
  intros N.
  assert (Hr' : match Legacy.processColorTags r with
                | [] => True
                | d :: _ => Legacy.isWordChar d = false
                end).
  { revert Hd. destruct r as [|d r'], (Legacy.processColorTags _) as [|d' r''];
      intros Hd; try contradiction; [exact I|].
    destruct Hd as [->|[_ ->]]; [exact Hr | reflexivity]. }
  assert (Hh' : hs = [] ->
                match t ++ Legacy.processColorTags r with
                | d :: _ => d <> HASH
                | [] => True
                end).
  { intros E. specialize (Hh E). destruct t as [|x t']; [|exact Hh].
    cbn [app] in Hh |- *. revert Hd.
    destruct r as [|d r'], (Legacy.processColorTags _) as [|d' r''];
      intros Hd; try contradiction; [exact I|].
    destruct Hd as [->|[_ ->]]; [exact Hh | discriminate]. }
  rewrite (legacyTag_shape hs t _ Hhs A Hr' Hh').
  destruct t as [|x t']; [reflexivity|].
  revert Hd N. destruct r as [|d r'], (Legacy.processColorTags _) as [|d' r''];
    intros Hd N; try contradiction; [reflexivity|].
  destruct Hd as [->|[-> ->]]; [exact N | reflexivity].
Qed.

Lemma legacy_rewrite_idem (s : jsstring) :
  Legacy.processColorTags (Legacy.processColorTags s)
  = Legacy.processColorTags s.
Proof.
  remember (List.length s) as n eqn:En. revert s En.
  induction n as [n IH] using lt_wf_ind. intros s En.
  destruct (legacy_rewrite_cases s)
    as [->|[(hs & tok & rest & Hhs & Ht & ->)|(c & s' & -> & E)]].
  - reflexivity.
  - rewrite (legacy_rewrite_match _ _ _ Hhs Ht).
    pose proof (proj1 (isTokenOf_spec Legacy.isWordChar tok) Ht) as [_ Hall].
    change (LBRACE :: tok ++ RBRACE :: Legacy.processColorTags rest)
      with ((LBRACE :: tok) ++ RBRACE :: Legacy.processColorTags rest).
    rewrite legacy_rewrite_plain.
    + rewrite legacy_rewrite_copy by (apply legacyTag_other; discriminate).
      rewrite (IH (List.length rest)); [reflexivity | | reflexivity].
      subst n. cbn [List.length]. rewrite !length_app. cbn [List.length]. lia.
    + constructor; [discriminate | apply wordChars_plain; exact Hall].
  - rewrite (legacy_rewrite_copy _ _ E).
    rewrite legacy_rewrite_copy.
    + rewrite (IH (List.length s')); [reflexivity | subst n; cbn [List.length]; lia | reflexivity].
    + destruct (Z.eq_dec c LBRACK) as [->|Hc].
      * apply legacyTag_none_stable. exact E.
      * apply legacyTag_other. exact Hc.
Qed.

Lemma legacy_rewrite_length (s : jsstring) :
  (List.length (Legacy.processColorTags s) <= List.length s)%nat.
Proof.
  remember (List.length s) as n eqn:En. revert s En.
  induction n as [n IH] using lt_wf_ind. intros s En.
  destruct (legacy_rewrite_cases s)
    as [->|[(hs & tok & rest & Hhs & Ht & ->)|(c & s' & -> & E)]].
  - subst n. apply Nat.le_refl.
  - rewrite (legacy_rewrite_match _ _ _ Hhs Ht).
    assert (L : (List.length (Legacy.processColorTags rest)
                 <= List.length rest)%nat).
    { apply (IH (List.length rest)); [|reflexivity].
      subst n. cbn [List.length]. rewrite !length_app. cbn [List.length]. lia. }
    subst n. cbn [List.length]. rewrite !length_app. cbn [List.length].
    rewrite ?length_app. cbn [List.length]. lia.
  - rewrite (legacy_rewrite_copy _ _ E).
    assert (L : (List.length (Legacy.processColorTags s') <= List.length s')%nat)
      by (apply (IH (List.length s')); [subst n; cbn [List.length]; lia | reflexivity]).
    subst n. cbn [List.length]. lia.
Qed.

(** X18. The colour-tag rewrite of the older script: a token of word
    characters in brackets becomes the token in braces, and a hash
    between the bracket and the token is dropped; the output is never
    longer than the input, and rewriting it again changes nothing. *)
Theorem legacy_processColorTags_drops_hash :
  forall (tok rest text : jsstring),
    isTokenOf Legacy.isWordChar tok = true ->
    Legacy.processColorTags (LBRACK :: tok ++ RBRACK :: rest)
    = LBRACE :: tok ++ RBRACE :: Legacy.processColorTags rest
    /\ Legacy.processColorTags (LBRACK :: HASH :: tok ++ RBRACK :: rest)
       = LBRACE :: tok ++ RBRACE :: Legacy.processColorTags rest
    /\ (List.length (Legacy.processColorTags text) <= List.length text)%nat
    /\ Legacy.processColorTags (Legacy.processColorTags text)
       = Legacy.processColorTags text.
Proof.
  intros tok rest text Ht.
  split; [exact (legacy_rewrite_match [] tok rest (or_introl eq_refl) Ht)|].
  split; [exact (legacy_rewrite_match [HASH] tok rest (or_intror eq_refl) Ht)|].
  split; [apply legacy_rewrite_length | apply legacy_rewrite_idem].
Qed.

Lemma legacy_processColorTags_drops_hash_witness :
  Legacy.processColorTags (lit "[#FF00aa] Hub")
  = lit "{FF00aa}" ++ Legacy.processColorTags (lit " Hub").
Proof.
  exact (proj1 (proj2 (legacy_processColorTags_drops_hash
                         (lit "FF00aa") (lit " Hub") [] eq_refl))).
Defined.

End LegacyColorTags.

(* ===================================================================== *)
(** * The per-address files of the older script *)
(* ===================================================================== *)

Section DescriptionMatch.

Lemma lazyToEnd_sound (s g : jsstring) :
  Legacy.lazyToEnd s = Some g ->
  exists post,
    s = g ++ post
    /\ (post = [] \/ exists post', post = Legacy.NUL :: post')
    /\ Forall (fun c => Legacy.isLineTerminator c = false) g
    /\ Forall (fun c => c <> Legacy.NUL) g.
Proof.
  revert g. induction s as [|c s IH]; intros g; cbn [Legacy.lazyToEnd].
  - intros H; injection H as <-. exists []. repeat split; auto.
  - destruct (Z.eqb_spec c Legacy.NUL) as [->|Hc].
    + intros H; injection H as <-. exists (Legacy.NUL :: s).
      split; [reflexivity|]. split; [right; eauto|]. split; constructor.
    + destruct (Legacy.isLineTerminator c) eqn:E; [discriminate|].
      destruct (Legacy.lazyToEnd s) as [g'|]; [|discriminate].
      cbn [option_map]. intros H; injection H as <-.
      destruct (IH g' eq_refl) as (post & -> & Hp & F1 & F2).
      exists post. split; [reflexivity|]. split; [exact Hp|].
      split; constructor; assumption.
Qed.

Lemma lazyToEnd_complete (g post : jsstring) :
  Forall (fun c => Legacy.isLineTerminator c = false) g ->
  post = [] \/ (exists post', post = Legacy.NUL :: post') ->
  Legacy.lazyToEnd (g ++ post) <> None.
Proof.
  intros F Hp. induction F as [|c g Hc _ IH]; cbn [app].
  - destruct Hp as [->|[post' ->]]; cbn [Legacy.lazyToEnd];
      [|rewrite Z.eqb_refl]; discriminate.
  - cbn [Legacy.lazyToEnd]. destruct (c =? Legacy.NUL); [discriminate|].
    rewrite Hc. destruct (Legacy.lazyToEnd (g ++ post)); [discriminate|].
    contradiction.
Qed.

Lemma skipn_prefix (p s : jsstring) : skipn (List.length p) (p ++ s) = s.
Proof. rewrite skipn_app, skipn_all, Nat.sub_diag. reflexivity. Qed.

Lemma lazyToAcid_eq (s : jsstring) :
  Legacy.lazyToAcid s =
  match (if startsWith Legacy.ACID s then Legacy.lazyToEnd (skipn 6 s) else None) with
  | Some g2 => Some ([], g2)
  | None =>
      match s with
      | [] => None
      | c :: s' =>
          if Legacy.isLineTerminator c then None
          else match Legacy.lazyToAcid s' with
               | Some (g1, g2) => Some (c :: g1, g2)
               | None => None
               end
      end
  end.
Proof. destruct s; reflexivity. Qed.

Lemma descriptionMatch_eq (s : jsstring) :
  Legacy.descriptionMatch s =
  match (if startsWith Legacy.GOLD s then Legacy.lazyToAcid (skipn 6 s) else None) with
  | Some groups => Some groups
  | None =>
      match s with
      | [] => None
      | _ :: s' => Legacy.descriptionMatch s'
      end
  end.
Proof. destruct s; reflexivity. Qed.

Lemma lazyToAcid_sound (s g1 g2 : jsstring) :
  Legacy.lazyToAcid s = Some (g1, g2) ->
  exists post,
    s = g1 ++ Legacy.ACID ++ g2 ++ post
    /\ (post = [] \/ exists post', post = Legacy.NUL :: post')
    /\ Forall (fun c => Legacy.isLineTerminator c = false) g1
    /\ Forall (fun c => Legacy.isLineTerminator c = false) g2
    /\ Forall (fun c => c <> Legacy.NUL) g2.
Proof.
  revert g1. induction s as [|c s IH]; intros g1; rewrite lazyToAcid_eq.
  - cbn [startsWith Legacy.ACID lit List.map list_ascii_of_string]. discriminate.
  - destruct (startsWith Legacy.ACID (c :: s)) eqn:A.
    + destruct (Legacy.lazyToEnd (skipn 6 (c :: s))) as [g|] eqn:G.
      * intros H; injection H as <- <-.
        apply startsWith_spec in A. destruct A as [r A]. rewrite A in G |- *.
        change 6%nat with (List.length Legacy.ACID) in G.
        rewrite skipn_prefix in G.
        destruct (lazyToEnd_sound _ _ G) as (post & -> & Hp & F1 & F2).
        exists post. split; [reflexivity|]. split; [exact Hp|].
        split; [constructor|]. split; assumption.
      * destruct (Legacy.isLineTerminator c) eqn:E; [discriminate|].
        destruct (Legacy.lazyToAcid s) as [[h1 h2]|]; [|discriminate].
        intros H; injection H as <- <-.
        destruct (IH h1 eq_refl) as (post & -> & Hp & F1 & F2 & F3).
        exists post. split; [reflexivity|]. split; [exact Hp|].
        split; [constructor; assumption|]. split; assumption.
    + destruct (Legacy.isLineTerminator c) eqn:E; [discriminate|].
      destruct (Legacy.lazyToAcid s) as [[h1 h2]|]; [|discriminate].
      intros H; injection H as <- <-.
      destruct (IH h1 eq_refl) as (post & -> & Hp & F1 & F2 & F3).
      exists post. split; [reflexivity|]. split; [exact Hp|].
      split; [constructor; assumption|]. split; assumption.
Qed.

Lemma lazyToAcid_complete (g1 g2 post : jsstring) :
  Forall (fun c => Legacy.isLineTerminator c = false) g1 ->
  Forall (fun c => Legacy.isLineTerminator c = false) g2 ->
  post = [] \/ (exists post', post = Legacy.NUL :: post') ->
  Legacy.lazyToAcid (g1 ++ Legacy.ACID ++ g2 ++ post) <> None.
Proof.
  intros F1 F2 Hp. induction F1 as [|c g1 Hc _ IH].
  - cbn [app]. rewrite lazyToAcid_eq, startsWith_app.
    change 6%nat with (List.length Legacy.ACID). rewrite skipn_prefix.
    pose proof (lazyToEnd_complete g2 post F2 Hp) as N.
    destruct (Legacy.lazyToEnd (g2 ++ post)); [discriminate | contradiction].
  - cbn [app]. rewrite lazyToAcid_eq.
    destruct (if startsWith Legacy.ACID (c :: g1 ++ Legacy.ACID ++ g2 ++ post)
              then Legacy.lazyToEnd
                     (skipn 6 (c :: g1 ++ Legacy.ACID ++ g2 ++ post))
              else None); [discriminate|].
    rewrite Hc.
    destruct (Legacy.lazyToAcid (g1 ++ Legacy.ACID ++ g2 ++ post)) as [[h1 h2]|];
      [discriminate | contradiction].
Qed.

(** X19. The description of a reply text is looked for with
    [\[gold\](.*?)\[acid\](.*?)(?=\u0000|$)]: what is found are two groups
    that stand in the text after [\[gold\]] and [\[acid\]], hold no line
    terminator, the second also no NUL, and end at a NUL or at the end
    of the text; and something is found whenever the text holds such a
    pair anywhere.  Otherwise the description is the default text. *)
Theorem descriptionMatch_finds_gold_acid :
  forall (messageText : jsstring),
    (forall g1 g2,
        Legacy.descriptionMatch messageText = Some (g1, g2) ->
        (exists pre, describedBy messageText pre g1 g2)
        /\ Forall (fun c => c <> Legacy.NUL) g2
        /\ Legacy.serverDescription messageText = trim g1 ++ trim g2)
    /\ ((exists pre g1 g2, describedBy messageText pre g1 g2) ->
        Legacy.descriptionMatch messageText <> None)
    /\ (Legacy.descriptionMatch messageText = None ->
        Legacy.serverDescription messageText = text "未找到服务器简介").
Proof.
  intros s. split; [|split].
  - intros g1 g2 H. split; [|split].
    + revert H. induction s as [|c s IH]; rewrite descriptionMatch_eq.
      * cbn [startsWith Legacy.GOLD lit List.map list_ascii_of_string].
        discriminate.
      * assert (Later : Legacy.descriptionMatch s = Some (g1, g2) ->
                        exists pre, describedBy (c :: s) pre g1 g2).
        { intros H. destruct (IH H) as (pre & post & E & Hp & F1 & F2).
          exists (c :: pre), post. rewrite E. repeat split; assumption. }
        destruct (startsWith Legacy.GOLD (c :: s)) eqn:A; [|exact Later].
        destruct (Legacy.lazyToAcid (skipn 6 (c :: s))) as [[h1 h2]|] eqn:G;
          [|exact Later].
        intros H; injection H as <- <-.
        apply startsWith_spec in A. destruct A as [r A]. rewrite A in G |- *.
        change 6%nat with (List.length Legacy.GOLD) in G.
        rewrite skipn_prefix in G.
        destruct (lazyToAcid_sound _ _ _ G) as (post & -> & Hp & F1 & F2 & _).
        exists [], post. repeat split; assumption.
    + revert H. induction s as [|c s IH]; rewrite descriptionMatch_eq.
      * cbn [startsWith Legacy.GOLD lit List.map list_ascii_of_string].
        discriminate.
      * destruct (startsWith Legacy.GOLD (c :: s)) eqn:A; [|exact IH].
        destruct (Legacy.lazyToAcid (skipn 6 (c :: s))) as [[h1 h2]|] eqn:G;
          [|exact IH].
        intros H; injection H as <- <-.
        destruct (lazyToAcid_sound _ _ _ G) as (post & _ & _ & _ & _ & F3).
        exact F3.
    + unfold Legacy.serverDescription. rewrite H. reflexivity.
  - intros (pre & g1 & g2 & post & -> & Hp & F1 & F2).
    induction pre as [|c pre IH].
    + cbn [app]. rewrite descriptionMatch_eq, startsWith_app.
      change 6%nat with (List.length Legacy.GOLD). rewrite skipn_prefix.
      pose proof (lazyToAcid_complete g1 g2 post F1 F2 Hp) as N.
      destruct (Legacy.lazyToAcid (g1 ++ Legacy.ACID ++ g2 ++ post));
        [discriminate | contradiction].
    + cbn [app]. rewrite descriptionMatch_eq.
      destruct (if startsWith Legacy.GOLD
                     (c :: pre ++ Legacy.GOLD ++ g1 ++ Legacy.ACID ++ g2 ++ post)
                then Legacy.lazyToAcid
                       (skipn 6
                          (c :: pre ++ Legacy.GOLD ++ g1 ++ Legacy.ACID
                             ++ g2 ++ post))
                else None); [discriminate | exact IH].
  - intros H. unfold Legacy.serverDescription. rewrite H. reflexivity.
Qed.

Lemma descriptionMatch_finds_gold_acid_witness :
  Legacy.serverDescription text_two_descriptions = lit "Hubpvp".
Proof.
  exact (proj2 (proj2 (proj1 (descriptionMatch_finds_gold_acid
                                text_two_descriptions)
                         (lit " Hub ") (lit " pvp ") eq_refl))).
Defined.

End DescriptionMatch.

Section Packets.

Lemma byteAt_Some (buf : Buffer) (i : nat) (b : Z) :
  byteAt buf i = Some b -> (i < List.length buf)%nat /\ 0 <= b <= 255.
Proof.
  unfold byteAt. destruct (nth_error buf i) as [x|] eqn:E; [|discriminate].
  cbn [option_map]. intros H; injection H as <-. split.
  - apply nth_error_Some. congruence.
  - unfold byteval. pose proof (Byte.to_N_bounded x). lia.
Qed.

Lemma byteAt_in (buf : Buffer) (i : nat) :
  (i < List.length buf)%nat -> exists b, byteAt buf i = Some b.
Proof.
  intros H. unfold byteAt. destruct (nth_error buf i) as [x|] eqn:E.
  - eexists. reflexivity.
  - apply nth_error_None in E. lia.
Qed.

Lemma readUInt16BE_Ok (buf : Buffer) (offset v : Z) :
  readUInt16BE buf offset = Ok v ->
  0 <= offset /\ offset + 2 <= blength buf /\ 0 <= v <= 65535.
Proof.
  unfold readUInt16BE.
  destruct ((0 <=? offset) && (offset + 2 <=? blength buf)) eqn:E;
    [|discriminate].
  apply andb_true_iff in E. rewrite !Z.leb_le in E.
  destruct (byteAt buf (Z.to_nat offset)) as [a|] eqn:A; [|discriminate].
  destruct (byteAt buf (S (Z.to_nat offset))) as [b|] eqn:B; [|discriminate].
  intros H; injection H as <-.
  pose proof (proj2 (byteAt_Some _ _ _ A)). pose proof (proj2 (byteAt_Some _ _ _ B)).
  lia.
Qed.

Lemma readUInt16BE_in (buf : Buffer) (offset : Z) :
  0 <= offset -> offset + 2 <= blength buf ->
  exists v, readUInt16BE buf offset = Ok v.
Proof.
  intros H1 H2. unfold readUInt16BE.
  replace ((0 <=? offset) && (offset + 2 <=? blength buf)) with true
    by (symmetry; apply andb_true_iff; rewrite !Z.leb_le; split; assumption).
  unfold blength in H2.
  destruct (byteAt_in buf (Z.to_nat offset)) as [a ->]; [lia|].
  destruct (byteAt_in buf (S (Z.to_nat offset))) as [b ->]; [lia|].
  eexists. reflexivity.
Qed.

Lemma readUInt16BE_Throw (buf : Buffer) (offset : Z) (e : error) :
  readUInt16BE buf offset = Throw e ->
  e = boundsError offset (blength buf - 2).
Proof.
  unfold readUInt16BE.
  destruct ((0 <=? offset) && (offset + 2 <=? blength buf)).
  - destruct (byteAt buf (Z.to_nat offset)), (byteAt buf (S (Z.to_nat offset)));
      intros H; inversion H; reflexivity.
  - intros H; inversion H; reflexivity.
Qed.

Lemma slice_to_end (buf : Buffer) (start : Z) :
  0 <= start -> slice buf start (blength buf) = skipn (Z.to_nat start) buf.
Proof.
  intros H. unfold slice, bytesBetween.
  destruct (Z.ltb_spec start 0) as [|_]; [lia|].
  destruct (Z.ltb_spec (blength buf) 0) as [L|_];
    [unfold blength in L; lia|].
  rewrite Z.min_id.
  rewrite firstn_all2.
  - unfold blength. destruct (Z.le_ge_cases start (Z.of_nat (List.length buf))) as [C|C].
    + rewrite Z.min_l by exact C. reflexivity.
    + rewrite Z.min_r by exact C. rewrite Nat2Z.id.
      rewrite !skipn_all2; [reflexivity | lia | lia].
  - rewrite length_skipn. unfold blength. lia.
Qed.

(** X20. The per-address pass reads a reply as an IP packet, although it
    is the payload of the datagram: the low four bits of the first byte,
    times four, are taken for the header length [h], and the message text
    is what starts [h + 8] bytes into the payload.  The reply is read
    whenever it has [h + 6] bytes; a shorter one throws a [RangeError]
    and gets neither file nor entry. *)
Theorem parsePacket_reads_reply_as_packet :
  forall (data : jsstring) (first : Z),
    first = match byteAt (fromHex data) 0 with Some b => b | None => 0 end ->
    (blength (fromHex data) < 4 * (first mod 16) + 6 ->
     exists offset,
       Legacy.parsePacket data
       = Throw (boundsError offset (blength (fromHex data) - 2)))
    /\ (4 * (first mod 16) + 6 <= blength (fromHex data) ->
        exists parsed,
          Legacy.parsePacket data = Ok parsed
          /\ Legacy.IpHeader.version (Legacy.Parsed.ipHeader parsed)
             = first / 16
          /\ Legacy.IpHeader.headerLength (Legacy.Parsed.ipHeader parsed)
             = 4 * (first mod 16)
          /\ 0 <= Legacy.UdpHeader.sourcePort (Legacy.Parsed.udpHeader parsed)
             <= 65535
          /\ Legacy.Parsed.mindustryMessage parsed
             = utf8Decode
                 (skipn (Z.to_nat (4 * (first mod 16) + 8)) (fromHex data))
          /\ Legacy.Parsed.serverDescription parsed
             = Legacy.serverDescription (Legacy.Parsed.mindustryMessage parsed)).
Proof.
  intros data first Hf. unfold Legacy.parsePacket. rewrite <- Hf.
  set (msg := fromHex data).
  assert (Hland : Z.land first 15 * 4 = 4 * (first mod 16)).
  { change 15 with (Z.ones 4). rewrite Z.land_ones by lia.
    change (2 ^ 4) with 16. lia. }
  assert (Hshift : Z.shiftr first 4 = first / 16).
  { rewrite Z.shiftr_div_pow2 by lia. reflexivity. }
  rewrite Hland, Hshift.
  pose proof (Z.mod_pos_bound first 16 ltac:(lia)) as Hm.
  set (h := 4 * (first mod 16)) in *.
  split.
  - intros Short. unfold bind.
    destruct (readUInt16BE msg 2) as [v0|e0] eqn:R0;
      [|rewrite (readUInt16BE_Throw _ _ _ R0); eauto].
    destruct (readUInt16BE msg h) as [v1|e1] eqn:R1;
      [|rewrite (readUInt16BE_Throw _ _ _ R1); eauto].
    destruct (readUInt16BE msg (h + 2)) as [v2|e2] eqn:R2;
      [|rewrite (readUInt16BE_Throw _ _ _ R2); eauto].
    destruct (readUInt16BE msg (h + 4)) as [v3|e3] eqn:R3;
      [|rewrite (readUInt16BE_Throw _ _ _ R3); eauto].
    apply readUInt16BE_Ok in R3. lia.
  - intros Long. unfold bind.
    destruct (readUInt16BE_in msg 2) as [v0 ->]; [lia | lia |].
    destruct (readUInt16BE_in msg h) as [v1 R1]; [lia | lia |]. rewrite R1.
    destruct (readUInt16BE_in msg (h + 2)) as [v2 ->]; [lia | lia |].
    destruct (readUInt16BE_in msg (h + 4)) as [v3 ->]; [lia | lia |].
    eexists. split; [reflexivity|].
    cbn [Legacy.Parsed.ipHeader Legacy.Parsed.udpHeader
         Legacy.Parsed.mindustryMessage Legacy.Parsed.serverDescription
         Legacy.IpHeader.version Legacy.IpHeader.headerLength
         Legacy.UdpHeader.sourcePort].
    split; [reflexivity|]. split; [reflexivity|].
    split; [apply readUInt16BE_Ok in R1; lia|].
    rewrite slice_to_end by lia. split; reflexivity.
Qed.

Lemma parsePacket_reads_reply_as_packet_witness :
  exists parsed,
    Legacy.parsePacket (toHex payload_A) = Ok parsed
    /\ Legacy.IpHeader.headerLength (Legacy.Parsed.ipHeader parsed) = 12.
Proof.
  destruct (proj2 (parsePacket_reads_reply_as_packet (toHex payload_A) 3 eq_refl))
    as (parsed & H & _ & Hl & _).
  - vm_compute. discriminate.
  - exists parsed. split; [exact H | exact Hl].
Defined.

End Packets.

Section AddressFiles.

Lemma logsOf_keys (R l : ReplySet) :
  (forall kv, In kv l -> get R (fst kv) = Some (snd kv) /\ snd kv <> []) ->
  exists logs,
    Legacy.logsOf R (keys l) = Ok logs /\ Forall2 logOf l logs.
Proof.
  induction l as [|[key rs] l IH]; intros H.
  - exists []. split; [reflexivity | constructor].
  - destruct (H (key, rs) (or_introl eq_refl)) as [G Hne]. cbn [fst snd] in G, Hne.
    destruct IH as (logs & E & F); [intros kv I; apply H; right; exact I|].
    destruct (final_last_of_greatest rs Hne) as (r & _ & _ & Fin & _).
    unfold keys in *. cbn [List.map fst Legacy.logsOf]. rewrite G.
    unfold Legacy.group in Fin. cbn [Legacy.Grouped.final] in Fin.
    rewrite Fin, E. cbn [bind]. eexists. split; [reflexivity|].
    constructor; [|exact F]. unfold logOf.
    cbn [Legacy.Log.ip Legacy.Log.port Legacy.Log.data fst snd].
    split; [reflexivity|]. split; [reflexivity|]. exists r.
    split; [|reflexivity]. unfold Legacy.group. cbn [Legacy.Grouped.final].
    exact Fin.
Qed.

Lemma fold_processLog_entries (logs : list Legacy.Log.t) (out : Legacy.Output.t) :
  Legacy.Output.serveIpData (fold_left Legacy.processLog logs out)
  = Legacy.Output.serveIpData out ++ flat_map logEntry logs.
Proof.
  revert out. induction logs as [|log logs IH]; intros out; cbn [fold_left flat_map].
  - symmetry. apply app_nil_r.
  - rewrite IH. unfold Legacy.processLog, logEntry.
    destruct (Legacy.parsePacket (Legacy.Log.data log)) as [p|e];
      cbn [Legacy.Output.serveIpData app]; [|reflexivity].
    rewrite <- app_assoc. reflexivity.
Qed.

Lemma keys_set_In {V : Type} (o : object V) (k x : jsstring) (v : V) :
  In x (keys (set o k v)) <-> x = k \/ In x (keys o).
Proof.
  rewrite keys_set. destruct (get o k) eqn:G.
  - split; [auto|]. intros [->|I]; [|exact I].
    apply get_In_keys. rewrite G. discriminate.
  - rewrite in_app_iff. cbn [In]. split; [intros [I|[<-|[]]]; auto|].
    intros [->|I]; auto.
Qed.

Lemma length_set {V : Type} (o : object V) (k : jsstring) (v : V) :
  (List.length (set o k v) <= S (List.length o))%nat.
Proof.
  induction o as [|[k' v'] o IH]; cbn [set List.length]; [lia|].
  destruct (str_eqb k' k); cbn [List.length]; lia.
Qed.

Lemma processLog_files (out : Legacy.Output.t) (log : Legacy.Log.t)
  (name : jsstring) :
  In name (keys (Legacy.Output.files (Legacy.processLog out log)))
  <-> In name (keys (Legacy.Output.files out))
      \/ exists e, In e (logEntry log)
                   /\ name = Legacy.fileName (Legacy.ServeIp.ip e).
Proof.
  unfold Legacy.processLog, logEntry.
  destruct (Legacy.parsePacket (Legacy.Log.data log)) as [p|err];
    cbn [Legacy.Output.files].
  - rewrite keys_set_In. split.
    + intros [->|I]; [right | left; exact I].
      eexists. split; [left; reflexivity | reflexivity].
    + intros [I|(e & [<-|[]] & E)]; [right; exact I | left; exact E].
  - split; [auto|]. intros [I|(e & [] & _)]. exact I.
Qed.

Lemma fold_processLog_files (logs : list Legacy.Log.t) (out : Legacy.Output.t)
  (name : jsstring) :
  In name (keys (Legacy.Output.files (fold_left Legacy.processLog logs out)))
  <-> In name (keys (Legacy.Output.files out))
      \/ exists e, In e (flat_map logEntry logs)
                   /\ name = Legacy.fileName (Legacy.ServeIp.ip e).
Proof.
  revert out. induction logs as [|log logs IH]; intros out;
    cbn [fold_left flat_map].
  - split; [auto|]. intros [I|(e & [] & _)]. exact I.
  - rewrite IH, processLog_files. split.
    + intros [[I|(e & I & E)]|(e & I & E)].
      * left. exact I.
      * right. exists e. split; [apply in_or_app; left; exact I | exact E].
      * right. exists e. split; [apply in_or_app; right; exact I | exact E].
    + intros [I|(e & I & E)]; [left; left; exact I|].
      apply in_app_or in I. destruct I as [I|I].
      * left. right. exists e. split; assumption.
      * right. exists e. split; assumption.
Qed.

Lemma fold_processLog_count (logs : list Legacy.Log.t) (out : Legacy.Output.t) :
  (List.length (Legacy.Output.files (fold_left Legacy.processLog logs out))
   <= List.length (Legacy.Output.files out)
      + List.length (flat_map logEntry logs))%nat.
Proof.
  revert out. induction logs as [|log logs IH]; intros out;
    cbn [fold_left flat_map]; [lia|].
  eapply Nat.le_trans; [apply IH|]. rewrite length_app.
  unfold Legacy.processLog, logEntry.
  destruct (Legacy.parsePacket (Legacy.Log.data log)) as [p|err];
    cbn [Legacy.Output.files List.length]; [|lia].
  pose proof (length_set (Legacy.Output.files out)
                (Legacy.fileName (Legacy.Log.ip log)) p). lia.
Qed.

Lemma flat_map_logEntry_length (logs : list Legacy.Log.t) :
  (List.length (flat_map logEntry logs) <= List.length logs)%nat.
Proof.
  induction logs as [|log logs IH]; cbn [flat_map List.length]; [lia|].
  rewrite length_app. unfold logEntry at 1.
  destruct (Legacy.parsePacket (Legacy.Log.data log)); cbn [List.length]; lia.
Qed.

(** X21. The per-address pass on a reply set without empty reply list
    never fails.  Each key whose newest reply reads as a packet gets one
    entry, with the address and the port cut from the key and the
    description found in that reply; the other keys get none.  The file
    of an entry is named after the address alone, so the keys of one
    address share one file: there are at most as many files as entries,
    and at most as many entries as keys. *)
Theorem processIPResponses_entries_and_files :
  forall (responses : ReplySet),
    NoDup (keys responses) ->
    Forall (fun kv => snd kv <> []) responses ->
    exists out logs,
      Legacy.processIPResponses responses = Ok out
      /\ Forall2 logOf responses logs
      /\ Legacy.Output.serveIpData out = flat_map logEntry logs
      /\ (forall name,
             In name (keys (Legacy.Output.files out)) <->
             exists e, In e (Legacy.Output.serveIpData out)
                       /\ name = Legacy.fileName (Legacy.ServeIp.ip e))
      /\ (List.length (Legacy.Output.files out)
          <= List.length (Legacy.Output.serveIpData out))%nat
      /\ (List.length (Legacy.Output.serveIpData out)
          <= List.length responses)%nat.
Proof.
  intros R N F.
  destruct (logsOf_keys R R) as (logs & E & F2).
  { intros [key rs] I. rewrite Forall_forall in F. cbn [fst snd].
    split; [apply get_In; assumption | exact (F _ I)]. }
  unfold Legacy.processIPResponses. rewrite E. cbn [bind].
  eexists. exists logs. split; [reflexivity|]. split; [exact F2|].
  rewrite fold_processLog_entries. cbn [Legacy.Output.serveIpData app].
  split; [reflexivity|]. split; [|split].
  - intros name. rewrite fold_processLog_files. cbn [Legacy.Output.files keys List.map In].
    tauto.
  - pose proof (fold_processLog_count logs
                  {| Legacy.Output.files := []; Legacy.Output.serveIpData := [] |}) as C.
    cbn [Legacy.Output.files List.length] in C. lia.
  - rewrite (Forall2_length F2). apply flat_map_logEntry_length.
Qed.

Lemma processIPResponses_entries_and_files_witness :
  exists out,
    Legacy.processIPResponses (Legacy.sendUDPRequests [datagram_A; datagram_A2])
    = Ok out
    /\ (List.length (Legacy.Output.files out)
        <= List.length (Legacy.Output.serveIpData out))%nat.
Proof.
  destruct (processIPResponses_entries_and_files
              (Legacy.sendUDPRequests [datagram_A; datagram_A2]))
    as (out & logs & H & _ & _ & _ & L & _).
  - repeat constructor; cbn; intuition discriminate.
  - repeat constructor; discriminate.
  - exists out. split; [exact H | exact L].
Defined.

End AddressFiles.
